(** * Route matching engine: a shallow embedding of [src/lib/matching.ts]

    The engine is a set of pure TypeScript functions over arrays of
    JavaScript numbers: [normalizePoints], [modifiedHausdorffDistance],
    [distanceToSimilarity], [dtwDistance], [relativeOrderSimilarity],
    [combinedSimilarity] and [searchRoutes].  The revision modelled
    is the one with [MatchingOptions], in which the default of
    [maxDistance] is 0.6.

    Numbers are modelled as the reals extended with the three
    special values of a JavaScript number ([Infinity], [-Infinity],
    [NaN]).  Rounding error is abstracted away: arithmetic on finite
    values is exact, a decimal literal such as [0.6] is the rational
    [6/10], and there is a single zero.  A thrown [TypeError] is
    modelled by [None] in the [option] monad.

    Where rounding decides which branch the code takes, the
    abstraction is not innocent: [normalizePoints] compares a
    computed RMS radius with 0.  Module [Binary64] embeds [mean] and
    [normalizePoints] over binary64 numbers as well, and the
    properties of [normalizePoints] on coinciding points are settled
    there. *)

From Stdlib Require Import String.
From Stdlib Require Import Reals Lra Lia ZArith Bool List.
From Stdlib Require Import Permutation Sorted.
From Stdlib Require Floats QArith.
Import ListNotations.

Set Implicit Arguments.
Open Scope R_scope.

(* ================================================================= *)
(** ** JavaScript numbers *)

Module JS.

Inductive num : Type :=
| Fin (r : R)
| PInf
| NInf
| NaN.

Definition neg (a : num) : num :=
  match a with
  | Fin r => Fin (- r)
  | PInf => NInf
  | NInf => PInf
  | NaN => NaN
  end.

Definition add (a b : num) : num :=
  match a, b with
  | NaN, _ | _, NaN => NaN
  | Fin r, Fin s => Fin (r + s)
  | PInf, NInf | NInf, PInf => NaN
  | PInf, _ | _, PInf => PInf
  | NInf, _ | _, NInf => NInf
  end.

Definition sub (a b : num) : num := add a (neg b).

(** [±Infinity * r] for a finite [r]. *)
Definition inf_times (positive : bool) (r : R) : num :=
  if Req_dec_T r 0 then NaN
  else if Rlt_dec 0 r then (if positive then PInf else NInf)
       else (if positive then NInf else PInf).

Definition mul (a b : num) : num :=
  match a, b with
  | NaN, _ | _, NaN => NaN
  | Fin r, Fin s => Fin (r * s)
  | PInf, Fin s | Fin s, PInf => inf_times true s
  | NInf, Fin s | Fin s, NInf => inf_times false s
  | PInf, PInf | NInf, NInf => PInf
  | PInf, NInf | NInf, PInf => NInf
  end.

(** Division follows IEEE 754: a nonzero finite value over zero is an
    infinity, [0/0] and [Infinity/Infinity] are [NaN]. *)
Definition div (a b : num) : num :=
  match a, b with
  | NaN, _ | _, NaN => NaN
  | Fin r, Fin s =>
      if Req_dec_T s 0
      then (if Req_dec_T r 0 then NaN
            else if Rlt_dec 0 r then PInf else NInf)
      else Fin (r / s)
  | Fin _, _ => Fin 0
  | PInf, Fin s => if Rle_dec 0 s then PInf else NInf
  | NInf, Fin s => if Rle_dec 0 s then NInf else PInf
  | _, _ => NaN
  end.

(** [a < b], [a >= b], [a > b] and [a === b]; every comparison with
    [NaN] is false. *)
Definition lt (a b : num) : bool :=
  match a, b with
  | NaN, _ | _, NaN => false
  | Fin r, Fin s => if Rlt_dec r s then true else false
  | NInf, Fin _ | NInf, PInf | Fin _, PInf => true
  | _, _ => false
  end.

Definition gt (a b : num) : bool := lt b a.

Definition ge (a b : num) : bool :=
  match a, b with
  | NaN, _ | _, NaN => false
  | Fin r, Fin s => if Rle_dec s r then true else false
  | PInf, _ | _, NInf => true
  | _, _ => false
  end.

Definition strict_eq (a b : num) : bool :=
  match a, b with
  | Fin r, Fin s => if Req_dec_T r s then true else false
  | PInf, PInf | NInf, NInf => true
  | _, _ => false
  end.

Definition min2 (a b : num) : num :=
  match a, b with
  | NaN, _ | _, NaN => NaN
  | _, _ => if lt b a then b else a
  end.

Definition max2 (a b : num) : num :=
  match a, b with
  | NaN, _ | _, NaN => NaN
  | _, _ => if lt a b then b else a
  end.

(** [Math.min(...values)] and [Math.max(...values)]: with no
    argument they are [+Infinity] and [-Infinity]. *)
Definition Math_min (values : list num) : num := fold_left min2 values PInf.
Definition Math_max (values : list num) : num := fold_left max2 values NInf.

Definition Math_sqrt (a : num) : num :=
  match a with
  | Fin r => if Rlt_dec r 0 then NaN else Fin (sqrt r)
  | PInf => PInf
  | NInf | NaN => NaN
  end.

Definition Math_abs (a : num) : num :=
  match a with
  | Fin r => Fin (Rabs r)
  | PInf | NInf => PInf
  | NaN => NaN
  end.

(** [Math.round] rounds to the nearest integer, halves upwards. *)
Definition round_half_up (r : R) : Z := Zfloor (r + / 2).

Definition Math_round (a : num) : num :=
  match a with
  | Fin r => Fin (IZR (round_half_up r))
  | _ => a
  end.

Definition is_finite (a : num) : Prop := exists r, a = Fin r.

(** [Array.prototype.sort(comparefn)]: the sort is stable, and
    [comparefn(b, a) < 0] places [b] before [a].  For a consistent
    comparison function the result of a stable sort is unique;
    insertion from the right computes it. *)
Section Sort.
Variable A : Type.
Variable comparefn : A -> A -> num.

Fixpoint insert (a : A) (l : list A) : list A :=
  match l with
  | [] => [a]
  | b :: l' =>
      if lt (comparefn b a) (Fin 0) then b :: insert a l'
      else a :: b :: l'
  end.

Fixpoint sort (l : list A) : list A :=
  match l with
  | [] => []
  | a :: l' => insert a (sort l')
  end.
End Sort.

(** [Array.prototype.slice(0, end)] for an integer [end]: a negative
    [end] counts from the end of the array. *)
Definition slice0 (A : Type) (l : list A) (end_ : Z) : list A :=
  let len := Z.of_nat (length l) in
  let final := if (end_ <? 0)%Z then Z.max (len + end_) 0 else Z.min end_ len in
  firstn (Z.to_nat final) l.

End JS.

Import JS.

(* ================================================================= *)
(** ** Data model ([src/types/route.ts]) *)

Record Point : Type := mkPoint { x : num; y : num }.

Record RouteImage : Type := mkRouteImage {
  id : string;
  filename : string;
  points : list Point;
  normalizedPoints : list Point
}.

Record Route : Type := mkRoute {
  route_id : string;
  name : string;
  images : list RouteImage;
  createdAt : string
}.

Record SearchResult : Type := mkSearchResult {
  route : Route;
  similarity : num;
  matchedImageId : string
}.

(** [MatchingOptions]: every field is optional. *)
Record MatchingOptions : Type := mkMatchingOptions {
  maxDistance : option num;
  mhdWeight : option num;
  orderWeight : option num
}.

(** [Required<MatchingOptions>] *)
Record RequiredOptions : Type := mkRequiredOptions {
  r_maxDistance : num;
  r_mhdWeight : num;
  r_orderWeight : num
}.

Record Weights : Type := mkWeights { mhd : num; order : num }.

Definition DEFAULT_OPTIONS : RequiredOptions :=
  {| r_maxDistance := Fin (6 / 10);
     r_mhdWeight := Fin (6 / 10);
     r_orderWeight := Fin (4 / 10) |}.

(* ================================================================= *)
(** ** The matching functions *)

(** Exceptions: [None] is a thrown [TypeError]. *)
Definition bind (A B : Type) (c : option A) (k : A -> option B) : option B :=
  match c with
  | Some a => k a
  | None => None
  end.

Notation "v <- c ;; k" := (bind c (fun v => k))
  (at level 61, c at next level, right associativity).

(** A [for] loop over the indices [idx], threading the state [s]. *)
Fixpoint for_each (St : Type) (idx : list nat) (body : nat -> St -> option St)
    (s : St) : option St :=
  match idx with
  | [] => Some s
  | i :: rest => s' <- body i s ;; for_each rest body s'
  end.

Definition distance (a b : Point) : num :=
  let dx := sub (x a) (x b) in
  let dy := sub (y a) (y b) in
  Math_sqrt (add (mul dx dx) (mul dy dy)).

Definition mean (values : list num) : num :=
  match values with
  | [] => Fin 0
  | _ :: _ =>
      div (fold_left (fun sum v => add sum v) values (Fin 0))
          (Fin (INR (length values)))
  end.

Definition normalizePoints (points : list Point) : list Point :=
  match points with
  | [] => []
  | [_] => [ {| x := Fin 0; y := Fin 0 |} ]
  | _ :: _ :: _ =>
      let centroid :=
        {| x := mean (map x points); y := mean (map y points) |} in
      let centered :=
        map (fun p => {| x := sub (x p) (x centroid);
                         y := sub (y p) (y centroid) |}) points in
      let squaredDistances :=
        map (fun p => add (mul (x p) (x p)) (mul (y p) (y p))) centered in
      let rms := Math_sqrt (mean squaredDistances) in
      if strict_eq rms (Fin 0) then centered
      else map (fun p => {| x := div (x p) rms; y := div (y p) rms |}) centered
  end.

Definition modifiedHausdorffDistance (A B : list Point) : num :=
  match A, B with
  | [], _ | _, [] => PInf
  | _ :: _, _ :: _ =>
      let forwardDistances :=
        map (fun a => Math_min (map (fun b => distance a b) B)) A in
      let forwardDist := mean forwardDistances in
      let reverseDistances :=
        map (fun b => Math_min (map (fun a => distance a b) A)) B in
      let reverseDist := mean reverseDistances in
      Math_max [forwardDist; reverseDist]
  end.

(** The default of the parameter [maxDistance] is [0.6]. *)
Definition distanceToSimilarity (distance : num) (maxDistance : option num)
    : num :=
  let maxDistance :=
    match maxDistance with Some m => m | None => Fin (6 / 10) end in
  if ge distance maxDistance then Fin 0
  else
    let similarity := Math_max [Fin 0; sub (Fin 1) (div distance maxDistance)] in
    Math_round (mul similarity (Fin 100)).

(** *** The DTW table

    [dtw] is an array of rows.  Reading [dtw[i]] past the end gives
    [undefined], and indexing [undefined] throws.  Reading a cell or
    a sequence element past the end gives [undefined], which every
    arithmetic use below turns into [NaN].  Writing a cell past the
    end of its row extends the row; the holes read back as
    [undefined], that is as [NaN]. *)
Definition table : Type := list (list num).

Definition element (s : list num) (i : nat) : num := nth i s NaN.

Fixpoint set_element (row : list num) (j : nat) (v : num) : list num :=
  match row, j with
  | [], O => [v]
  | [], S j' => NaN :: set_element [] j' v
  | _ :: row', O => v :: row'
  | c :: row', S j' => c :: set_element row' j' v
  end.

Fixpoint set_row (t : table) (i : nat) (row : list num) : table :=
  match t, i with
  | [], _ => []
  | _ :: t', O => row :: t'
  | r :: t', S i' => r :: set_row t' i' row
  end.

(** [dtw[i][j]] *)
Definition get_cell (dtw : table) (i j : nat) : option num :=
  row <- nth_error dtw i ;; Some (element row j).

(** [dtw[i][j] = v] *)
Definition set_cell (dtw : table) (i j : nat) (v : num) : option table :=
  row <- nth_error dtw i ;; Some (set_row dtw i (set_element row j v)).

(** The body of the inner loop of [dtwDistance]. *)
Definition dtw_body (seqA seqB : list num) (i j : nat) (dtw : table)
    : option table :=
  let cost := Math_abs (sub (element seqA (i - 1)) (element seqB (j - 1))) in
  _ <- nth_error dtw i ;;
  insertion <- get_cell dtw (i - 1) j ;;
  deletion <- get_cell dtw i (j - 1) ;;
  matching <- get_cell dtw (i - 1) (j - 1) ;;
  set_cell dtw i j (add cost (Math_min [insertion; deletion; matching])).

Definition dtw_fill (seqA seqB : list num) (n m : nat) (dtw : table)
    : option table :=
  for_each (seq 1 n)
    (fun i dtw => for_each (seq 1 m) (fun j dtw => dtw_body seqA seqB i j dtw) dtw)
    dtw.

Definition dtwDistance (seqA seqB : list num) : option num :=
  let n := length seqA in
  let m := length seqB in
  if (n =? 0)%nat || (m =? 0)%nat then Some PInf
  else
    let dtw := repeat (repeat PInf (m + 1)) (n + 1) in
    dtw <- set_cell dtw 0 0 (Fin 0) ;;
    dtw <- dtw_fill seqA seqB n m dtw ;;
    last <- get_cell dtw n m ;;
    Some (div last (Fin (INR (Nat.max n m)))).

(** The local function [normalize] of [relativeOrderSimilarity]. *)
Definition normalize (s : list num) : list num :=
  let min := Math_min s in
  let max := Math_max s in
  if strict_eq max min then map (fun _ => Fin (5 / 10)) s
  else map (fun v => div (sub v min) (sub max min)) s.

Definition by_y (a b : Point) : num := sub (y a) (y b).

Definition relativeOrderSimilarity (pointsA pointsB : list Point)
    : option num :=
  if (length pointsA =? 0)%nat || (length pointsB =? 0)%nat then Some (Fin 0)
  else if (length pointsA =? 1)%nat && (length pointsB =? 1)%nat
  then Some (Fin 100)
  else
    let sortedA := sort by_y pointsA in
    let sortedB := sort by_y pointsB in
    let xSeqA := map x sortedA in
    let xSeqB := map x sortedB in
    let normA := normalize xSeqA in
    let normB := normalize xSeqB in
    dist <- dtwDistance normA normB ;;
    let maxDist := Fin 1 in
    if ge dist maxDist then Some (Fin 0)
    else Some (Math_round (mul (sub (Fin 1) (div dist maxDist)) (Fin 100))).

(** The default of the parameter [weights] is [{ mhd: 0.6, order: 0.4 }]. *)
Definition combinedSimilarity (mhdSimilarity orderSimilarity : num)
    (weights : option Weights) : num :=
  let weights :=
    match weights with
    | Some w => w
    | None => {| mhd := Fin (6 / 10); order := Fin (4 / 10) |}
    end in
  Math_round (add (mul (mhd weights) mhdSimilarity)
                  (mul (order weights) orderSimilarity)).

(** [{ ...DEFAULT_OPTIONS, ...options }] *)
Definition merge_options (options : MatchingOptions) : RequiredOptions :=
  {| r_maxDistance :=
       match maxDistance options with
       | Some v => v | None => r_maxDistance DEFAULT_OPTIONS end;
     r_mhdWeight :=
       match mhdWeight options with
       | Some v => v | None => r_mhdWeight DEFAULT_OPTIONS end;
     r_orderWeight :=
       match orderWeight options with
       | Some v => v | None => r_orderWeight DEFAULT_OPTIONS end |}.

(** The combined similarity of the query and one image: the first
    statements of the body of the inner loop of [searchRoutes]. *)
Definition image_similarity (queryPoints normalizedQuery : list Point)
    (opts : RequiredOptions) (image : RouteImage) : option num :=
  let mhd_ := modifiedHausdorffDistance normalizedQuery (normalizedPoints image) in
  let mhdSim := distanceToSimilarity mhd_ (Some (r_maxDistance opts)) in
  orderSim <- relativeOrderSimilarity queryPoints (points image) ;;
  Some (combinedSimilarity mhdSim orderSim
          (Some {| mhd := r_mhdWeight opts; order := r_orderWeight opts |})).

(** The inner loop of [searchRoutes]; the state is
    [(bestSimilarity, bestImageId)]. *)
Fixpoint best_image (queryPoints normalizedQuery : list Point)
    (opts : RequiredOptions) (imgs : list RouteImage)
    (best : num * string) : option (num * string) :=
  match imgs with
  | [] => Some best
  | image :: rest =>
      similarity_ <- image_similarity queryPoints normalizedQuery opts image ;;
      best_image queryPoints normalizedQuery opts rest
        (if gt similarity_ (fst best) then (similarity_, id image) else best)
  end.

(** The outer loop of [searchRoutes]; the state is [results]. *)
Fixpoint score_routes (queryPoints normalizedQuery : list Point)
    (opts : RequiredOptions) (routes : list Route)
    (results : list SearchResult) : option (list SearchResult) :=
  match routes with
  | [] => Some results
  | route_ :: rest =>
      best <- best_image queryPoints normalizedQuery opts (images route_)
                (Fin 0, EmptyString) ;;
      score_routes queryPoints normalizedQuery opts rest
        (results ++ [ {| route := route_;
                         similarity := fst best;
                         matchedImageId := snd best |} ])
  end.

Definition by_similarity_desc (a b : SearchResult) : num :=
  sub (similarity b) (similarity a).

(** The defaults of [maxResults] and [options] are [10] and [{}]. *)
Definition searchRoutes (queryPoints : list Point) (routes : list Route)
    (maxResults : option Z) (options : option MatchingOptions)
    : option (list SearchResult) :=
  let maxResults := match maxResults with Some k => k | None => 10%Z end in
  let options :=
    match options with
    | Some o => o
    | None => {| maxDistance := None; mhdWeight := None; orderWeight := None |}
    end in
  let opts := merge_options options in
  let normalizedQuery := normalizePoints queryPoints in
  results <- score_routes queryPoints normalizedQuery opts routes [] ;;
  let results := sort by_similarity_desc results in
  Some (slice0 results maxResults).

(* ================================================================= *)
(** ** Reference definitions over the reals

    The inputs of the engine are arrays of finite numbers.  A finite
    point is a pair of reals; [pts] embeds finite point sets into the
    arrays the functions take.  The definitions below state, over
    the reals, what the specification says each function computes. *)

Definition pt (p : R * R) : Point := {| x := Fin (fst p); y := Fin (snd p) |}.
Definition pts (P : list (R * R)) : list Point := map pt P.

Fixpoint sumR (l : list R) : R :=
  match l with
  | [] => 0
  | a :: l' => a + sumR l'
  end.

Definition meanR (l : list R) : R := sumR l / INR (length l).

(** [s·P + t] *)
Definition transform (s : R) (t : R * R) (P : list (R * R)) : list (R * R) :=
  map (fun p => (s * fst p + fst t, s * snd p + snd t)) P.

Definition centeredR (P : list (R * R)) : list (R * R) :=
  map (fun p => (fst p - meanR (map fst P), snd p - meanR (map snd P))) P.

Definition sqnorm (p : R * R) : R := fst p * fst p + snd p * snd p.

Definition rmsR (P : list (R * R)) : R :=
  sqrt (meanR (map sqnorm (centeredR P))).

Definition scaledR (P : list (R * R)) : list (R * R) :=
  map (fun p => (fst p / rmsR P, snd p / rmsR P)) (centeredR P).

(** [normalize] of the specification, over the reals. *)
Definition normR (P : list (R * R)) : list (R * R) :=
  match P with
  | [] => []
  | [_] => [(0, 0)]
  | _ :: _ :: _ => if Req_dec_T (rmsR P) 0 then centeredR P else scaledR P
  end.

(** Euclidean distance, nearest-neighbour distance and the Modified
    Hausdorff Distance of the specification, over the reals. *)
Definition distR (a b : R * R) : R :=
  sqrt ((fst a - fst b) * (fst a - fst b) + (snd a - snd b) * (snd a - snd b)).

Definition minR (l : list R) : R :=
  match l with
  | [] => 0
  | d :: l' => fold_left Rmin l' d
  end.

(** The distance from [a] to its nearest neighbour in [B]. *)
Definition nearestR (B : list (R * R)) (a : R * R) : R :=
  minR (map (fun b => distR a b) B).

(** The mean nearest-neighbour distance from [A] to [B]. *)
Definition directedR (A B : list (R * R)) : R :=
  meanR (map (nearestR B) A).

Definition mhdR (A B : list (R * R)) : R :=
  Rmax (directedR A B) (directedR B A).

(** The dynamic-programming table of DTW, by its recurrence:
    [table[0][0] = 0], the rest of row 0 and of column 0 is
    [+Infinity], and [table[i][j]] is the cost [|seqA[i-1] - seqB[j-1]|]
    plus the least of the three neighbours above, left and
    above-left. *)
Fixpoint dtw_table (seqA seqB : list num) (i : nat) {struct i} : nat -> num :=
  match i with
  | O => fun j => match j with O => Fin 0 | S _ => PInf end
  | S i' =>
      fix row (j : nat) {struct j} : num :=
        match j with
        | O => PInf
        | S j' =>
            add (Math_abs (sub (element seqA i') (element seqB j')))
                (Math_min [dtw_table seqA seqB i' j; row j';
                           dtw_table seqA seqB i' j'])
        end
  end.

(** [sequenceAlignmentDistance] of the specification. *)
Definition dtw_reference (seqA seqB : list num) : num :=
  match seqA, seqB with
  | [], _ | _, [] => PInf
  | _ :: _, _ :: _ =>
      div (dtw_table seqA seqB (length seqA) (length seqB))
          (Fin (INR (Nat.max (length seqA) (length seqB))))
  end.

(** A table of [n + 1] rows of [m + 1] cells holding [f i j] at
    row [i], column [j]. *)
Definition represents (n m : nat) (t : table) (f : nat -> nat -> num) : Prop :=
  length t = S n /\
  (forall i row, nth_error t i = Some row -> length row = S m) /\
  (forall i j, (i <= n)%nat -> (j <= m)%nat -> get_cell t i j = Some (f i j)).

(** The table while row [i] is being filled: rows above [i] and the
    cells of row [i] up to column [j] hold their final values, every
    other cell still holds [+Infinity]. *)
Definition filled (seqA seqB : list num) (i j : nat) (k c : nat) : num :=
  if (k <? i)%nat || ((k =? i)%nat && (c <=? j)%nat)
  then dtw_table seqA seqB k c
  else PInf.

(** [orderedProjection], min-max normalisation and [orderSimilarity]
    of the specification, on finite points. *)
Definition maxR (l : list R) : R :=
  match l with
  | [] => 0
  | d :: l' => fold_left Rmax l' d
  end.

Definition sort_by_y (P : list (R * R)) : list (R * R) :=
  sort (fun a b => Fin (snd a - snd b)) P.

Definition orderedProjection (P : list (R * R)) : list R :=
  map fst (sort_by_y P).

Definition minmaxR (l : list R) : list R :=
  if Req_dec_T (maxR l) (minR l) then map (fun _ => 5 / 10) l
  else map (fun v => (v - minR l) / (maxR l - minR l)) l.

(** [round(100 · max(0, 1 − distance))] *)
Definition similarity_of_distance (dist : num) : num :=
  Math_round (mul (Fin 100) (Math_max [Fin 0; sub (Fin 1) dist])).

Definition orderSimilarity_spec (A B : list (R * R)) : num :=
  match A, B with
  | [], _ | _, [] => Fin 0
  | [_], [_] => Fin 100
  | _, _ =>
      similarity_of_distance
        (dtw_reference (map Fin (minmaxR (orderedProjection A)))
                       (map Fin (minmaxR (orderedProjection B))))
  end.

(** The cells of a DTW table over finite sequences are non-negative
    reals or [+Infinity]. *)
Definition nonneg_or_inf (v : num) : Prop :=
  v = PInf \/ exists r, v = Fin r /\ 0 <= r.

Definition nonneg_fin (v : num) : Prop := exists r, v = Fin r /\ 0 <= r.

(** The elements of a list whose real key is [k]. *)
Definition has_key (A : Type) (key : A -> R) (k : R) (a : A) : bool :=
  if Req_dec_T (key a) k then true else false.

(** What a cell of the DTW table of two finite sequences holds. *)
Definition cell_class (i j : nat) (v : num) : Prop :=
  match i, j with
  | O, O => v = Fin 0
  | O, S _ | S _, O => v = PInf
  | S _, S _ => nonneg_fin v
  end.

(** ** Reference definitions for the search *)

Definition finite_point (p : Point) : Prop := is_finite (x p) /\ is_finite (y p).

Definition finite_image (image : RouteImage) : Prop :=
  Forall finite_point (points image) /\
  Forall finite_point (normalizedPoints image).

Definition finite_route (r : Route) : Prop := Forall finite_image (images r).

Definition finite_opt (v : option num) : Prop :=
  match v with
  | Some a => is_finite a
  | None => True
  end.

Definition finite_options (o : MatchingOptions) : Prop :=
  finite_opt (maxDistance o) /\ finite_opt (mhdWeight o) /\
  finite_opt (orderWeight o).

Definition finite_required (o : RequiredOptions) : Prop :=
  is_finite (r_maxDistance o) /\ is_finite (r_mhdWeight o) /\
  is_finite (r_orderWeight o).

(** The value a computation returns, and the real a finite number
    stands for. *)
Definition value (c : option num) : num :=
  match c with
  | Some v => v
  | None => NaN
  end.

Definition real_of (v : num) : R :=
  match v with
  | Fin r => r
  | _ => 0
  end.

(** The combined score of one image against the query. *)
Definition image_score (queryPoints : list Point) (opts : RequiredOptions)
    (image : RouteImage) : R :=
  real_of (value (image_similarity queryPoints (normalizePoints queryPoints)
                    opts image)).

(** The best score of a route: the largest of 0 and the scores of
    its images. *)
Definition best_score (queryPoints : list Point) (opts : RequiredOptions)
    (r : Route) : R :=
  fold_left Rmax (map (image_score queryPoints opts) (images r)) 0.

(** The id of the earliest image whose score is [m]. *)
Fixpoint earliest_with (score : RouteImage -> R) (m : R)
    (imgs : list RouteImage) : string :=
  match imgs with
  | [] => EmptyString
  | image :: rest =>
      if Req_dec_T (score image) m then id image
      else earliest_with score m rest
  end.

Definition best_image_id (queryPoints : list Point) (opts : RequiredOptions)
    (r : Route) : string :=
  if Rlt_dec 0 (best_score queryPoints opts r)
  then earliest_with (image_score queryPoints opts)
         (best_score queryPoints opts r) (images r)
  else EmptyString.

Definition route_entry (queryPoints : list Point) (opts : RequiredOptions)
    (r : Route) : SearchResult :=
  {| route := r;
     similarity := Fin (best_score queryPoints opts r);
     matchedImageId := best_image_id queryPoints opts r |}.

(** Routes in descending order of best score, ties in input order. *)
Definition rank_routes (queryPoints : list Point) (opts : RequiredOptions)
    (routes : list Route) : list Route :=
  sort (fun a b => Fin (best_score queryPoints opts b - best_score queryPoints opts a))
       routes.

Definition the_options (options : option MatchingOptions) : RequiredOptions :=
  merge_options
    match options with
    | Some o => o
    | None => {| maxDistance := None; mhdWeight := None; orderWeight := None |}
    end.

Definition the_limit (maxResults : option Z) : Z :=
  match maxResults with
  | Some k => k
  | None => 10%Z
  end.

(** ** Sample inputs *)

Definition sample_image : RouteImage :=
  {| id := "img"; filename := "img.jpg";
     points := pts [(0, 0)]; normalizedPoints := pts [(0, 0)] |}.

Definition sample_route : Route :=
  {| route_id := "r"; name := "r"; images := [sample_image]; createdAt := "t" |}.

(** Two routes without images. *)
Definition bare_route_1 : Route :=
  {| route_id := "r1"; name := "r1"; images := []; createdAt := "t" |}.

Definition bare_route_2 : Route :=
  {| route_id := "r2"; name := "r2"; images := []; createdAt := "t" |}.

Definition negative_weight_options : MatchingOptions :=
  {| maxDistance := None; mhdWeight := Some (Fin (-1)); orderWeight := Some (Fin 0) |}.

Definition finite_weights (w : option Weights) : Prop :=
  match w with
  | Some w => is_finite (mhd w) /\ is_finite (order w)
  | None => True
  end.

(** ** Proof automation *)

(** Evaluates [Rabs], [Rmin] and [Rmax] on concrete reals. *)
Ltac eval_reals :=
  repeat match goal with
    | |- context [Rabs ?a] =>
        (rewrite (Rabs_pos_eq a) by lra) || (rewrite (Rabs_left a) by lra)
    | |- context [Rmin ?a ?b] =>
        (rewrite (Rmin_left a b) by lra) || (rewrite (Rmin_right a b) by lra)
    | |- context [Rmax ?a ?b] =>
        (rewrite (Rmax_left a b) by lra) || (rewrite (Rmax_right a b) by lra)
    end;
  try lra.

(** Case analysis on the comparisons of naturals in the goal. *)
Ltac nat_cases :=
  repeat match goal with
    | |- context [(?a <? ?b)%nat] => destruct (Nat.ltb_spec a b)
    | |- context [(?a <=? ?b)%nat] => destruct (Nat.leb_spec a b)
    | |- context [(?a =? ?b)%nat] => destruct (Nat.eqb_spec a b)
    end;
  cbn [andb orb]; try reflexivity; try lia.

(** Replaces [round_half_up r], for a concrete [r], by the integer [k]. *)
Ltac round_to k :=
  match goal with
  | |- context [round_half_up ?r] =>
      replace (round_half_up r) with k
        by (symmetry; unfold round_half_up; apply Zfloor_eq; lra)
  end.

(* ================================================================= *)
(** ** Further reference definitions *)

(** The RMS radius of a point set about the origin, as the unit
    test of [normalizePoints] computes it. *)
Definition rms_about_origin (P : list Point) : num :=
  Math_sqrt (mean (map (fun p => add (mul (x p) (x p)) (mul (y p) (y p))) P)).

(** All points of [P] coincide. *)
Definition coincident (P : list (R * R)) : Prop :=
  exists p, Forall (fun q => q = p) P.

(** A finite number between 0 and [B]. *)
Definition fin_le (B : R) (v : num) : Prop := exists r, v = Fin r /\ 0 <= r <= B.

(** An image stored for the marking [q]: its raw points are [q] and
    its normalised points are those [normalizePoints] computes. *)
Definition stored_for (q : list (R * R)) (image : RouteImage) : Prop :=
  points image = pts q /\ normalizedPoints image = normalizePoints (pts q).

(** The entry of a route that matched nothing. *)
Definition no_match (r : Route) : SearchResult :=
  {| route := r; similarity := Fin 0; matchedImageId := EmptyString |}.

(** [searchResults] of [App.tsx]: the search runs only when there
    are points and routes. *)
Definition App_searchResults (points_ : list Point) (routes : list Route)
    : option (list SearchResult) :=
  if (length points_ =? 0)%nat || (length routes =? 0)%nat then Some []
  else searchRoutes points_ routes None None.

(* ================================================================= *)
(** ** The earlier revision of [matching.ts]

    Before DTW was added, [distanceToSimilarity] had the default
    threshold 0.5 and [searchRoutes] ranked by the MHD similarity
    alone.  [distance], [mean], [normalizePoints] and
    [modifiedHausdorffDistance] are the same in both revisions. *)

Module Legacy.

Definition distanceToSimilarity (distance : num) (maxDistance : option num)
    : num :=
  let maxDistance :=
    match maxDistance with Some m => m | None => Fin (5 / 10) end in
  if ge distance maxDistance then Fin 0
  else
    let similarity := Math_max [Fin 0; sub (Fin 1) (div distance maxDistance)] in
    Math_round (mul similarity (Fin 100)).

(** The inner loop of [searchRoutes]. *)
Fixpoint best_image (normalizedQuery : list Point) (imgs : list RouteImage)
    (best : num * string) : num * string :=
  match imgs with
  | [] => best
  | image :: rest =>
      let mhd_ := modifiedHausdorffDistance normalizedQuery (normalizedPoints image) in
      let similarity_ := distanceToSimilarity mhd_ None in
      best_image normalizedQuery rest
        (if gt similarity_ (fst best) then (similarity_, id image) else best)
  end.

(** The outer loop of [searchRoutes]. *)
Fixpoint score_routes (normalizedQuery : list Point) (routes : list Route)
    (results : list SearchResult) : list SearchResult :=
  match routes with
  | [] => results
  | route_ :: rest =>
      let best := best_image normalizedQuery (images route_) (Fin 0, EmptyString) in
      score_routes normalizedQuery rest
        (results ++ [ {| route := route_;
                         similarity := fst best;
                         matchedImageId := snd best |} ])
  end.

Definition searchRoutes (queryPoints : list Point) (routes : list Route)
    (maxResults : option Z) : list SearchResult :=
  let maxResults := match maxResults with Some k => k | None => 10%Z end in
  let normalizedQuery := normalizePoints queryPoints in
  let results := score_routes normalizedQuery routes [] in
  let results := sort by_similarity_desc results in
  slice0 results maxResults.

End Legacy.

(** The options under which the later [searchRoutes] ranks as the
    earlier one did. *)
Definition mhd_only_options : MatchingOptions :=
  {| maxDistance := Some (Fin (5 / 10));
     mhdWeight := Some (Fin 1);
     orderWeight := Some (Fin 0) |}.

(* ================================================================= *)
(** ** Route management ([src/hooks/useRoutes.ts])

    The callbacks of [useRoutes] read the [routes] state, call the
    storage layer and set the new state.  A callback is modelled by
    the storage calls it issues, in order, and the state it leaves;
    the identifiers from [crypto.randomUUID()] and the time stamp are
    arguments, the image blob is opaque, and every storage call is
    taken to succeed; module [Fallible] below has the callbacks over
    a storage layer whose calls can be rejected. *)

Module UseRoutes.

Inductive Call : Type :=
| SaveImage (filename_ : string)
| DeleteImage (filename_ : string)
| RevokeObjectURL (url : string)
| SaveRoutes (routes : list Route).

(** [blobUrlCache], a [Map] from file names to blob URLs. *)
Definition BlobUrlCache : Type := list (string * string).

Fixpoint cache_get (cache : BlobUrlCache) (key : string) : option string :=
  match cache with
  | [] => None
  | (k, v) :: rest => if String.eqb k key then Some v else cache_get rest key
  end.

Definition cache_delete (cache : BlobUrlCache) (key : string) : BlobUrlCache :=
  filter (fun kv => negb (String.eqb (fst kv) key)) cache.

(** A string is truthy unless it is empty. *)
Definition truthy (s : string) : bool :=
  match s with
  | EmptyString => false
  | String _ _ => true
  end.

Definition addRoute (routes : list Route) (routeId imageId now : string)
    (name_ : string) (points_ : list Point)
    : list Call * list Route * Route :=
  let filename_ := (imageId ++ ".jpg")%string in
  let newRoute :=
    {| route_id := routeId;
       name := name_;
       images := [ {| id := imageId;
                      filename := filename_;
                      points := points_;
                      normalizedPoints := normalizePoints points_ |} ];
       createdAt := now |} in
  let updatedRoutes := routes ++ [newRoute] in
  ([SaveImage filename_; SaveRoutes updatedRoutes], updatedRoutes, newRoute).

Definition addImageToRoute (routes : list Route) (imageId : string)
    (routeId : string) (points_ : list Point) : list Call * list Route :=
  let filename_ := (imageId ++ ".jpg")%string in
  let updatedRoutes :=
    map (fun route_ =>
           if String.eqb (route_id route_) routeId
           then {| route_id := route_id route_;
                   name := name route_;
                   images := images route_ ++
                             [ {| id := imageId;
                                  filename := filename_;
                                  points := points_;
                                  normalizedPoints := normalizePoints points_ |} ];
                   createdAt := createdAt route_ |}
           else route_) routes in
  ([SaveImage filename_; SaveRoutes updatedRoutes], updatedRoutes).

(** The loop of [deleteRoute] over the images of the route. *)
Fixpoint delete_images (imgs : list RouteImage) (cache : BlobUrlCache)
    : list Call * BlobUrlCache :=
  match imgs with
  | [] => ([], cache)
  | image :: rest =>
      let '(revoked, cache1) :=
        match cache_get cache (filename image) with
        | Some cachedUrl =>
            if truthy cachedUrl
            then ([RevokeObjectURL cachedUrl], cache_delete cache (filename image))
            else ([], cache)
        | None => ([], cache)
        end in
      let '(calls, cache2) := delete_images rest cache1 in
      (revoked ++ DeleteImage (filename image) :: calls, cache2)
  end.

Definition deleteRoute (routes : list Route) (cache : BlobUrlCache)
    (routeId : string) : list Call * list Route * BlobUrlCache :=
  match find (fun r => String.eqb (route_id r) routeId) routes with
  | None => ([], routes, cache)
  | Some route_ =>
      let '(calls, cache') := delete_images (images route_) cache in
      let updatedRoutes :=
        filter (fun r => negb (String.eqb (route_id r) routeId)) routes in
      (calls ++ [SaveRoutes updatedRoutes], updatedRoutes, cache')
  end.

End UseRoutes.

(** Every stored image carries the normalisation of its own points. *)
Definition normalized_image (image : RouteImage) : Prop :=
  normalizedPoints image = normalizePoints (points image).

Definition normalized_routes (routes : list Route) : Prop :=
  Forall (fun r => Forall normalized_image (images r)) routes.

(** The file names handed to [deleteImage]. *)
Definition deleted_files (calls : list UseRoutes.Call) : list string :=
  flat_map (fun c => match c with
                     | UseRoutes.DeleteImage f => [f]
                     | _ => []
                     end) calls.

(** The cache holds no usable URL for the file [f]. *)
Definition uncached (cache : UseRoutes.BlobUrlCache) (f : string) : Prop :=
  match UseRoutes.cache_get cache f with
  | Some url => UseRoutes.truthy url = false
  | None => True
  end.

Definition has_id (routeId : string) (r : Route) : bool :=
  String.eqb (route_id r) routeId.

(* ================================================================= *)
(** ** Showing a result ([src/components/RouteDetailModal.tsx]) *)

Module RouteDetail.

(** [matchedImage] of [RouteCard]:
    [route.images.find(img => img.id === matchedImageId) || route.images[0]] *)
Definition matchedImage (route_ : Route) (matchedImageId_ : string)
    : option RouteImage :=
  match find (fun img => String.eqb (id img) matchedImageId_) (images route_) with
  | Some img => Some img
  | None => nth_error (images route_) 0
  end.

(** [Array.prototype.findIndex], counting from [i]; [-1] when no
    element satisfies [f]. *)
Fixpoint findIndex_from (A : Type) (f : A -> bool) (l : list A) (i : Z) : Z :=
  match l with
  | [] => (-1)%Z
  | a :: l' => if f a then i else findIndex_from f l' (i + 1)%Z
  end.

(** The initial value of [currentImageIndex]; the property
    [matchedImageId] is optional, and an empty string is falsy. *)
Definition initialIndex (route_ : Route) (matchedImageId_ : option string) : Z :=
  match matchedImageId_ with
  | Some mid =>
      if UseRoutes.truthy mid
      then
        let index :=
          findIndex_from (fun img => String.eqb (id img) mid) (images route_) 0%Z in
        if (index =? -1)%Z then 0%Z else index
      else 0%Z
  | None => 0%Z
  end.

Definition handlePrev (route_ : Route) (prev : Z) : Z :=
  if (prev >? 0)%Z then (prev - 1)%Z
  else (Z.of_nat (length (images route_)) - 1)%Z.

Definition handleNext (route_ : Route) (prev : Z) : Z :=
  if (prev <? Z.of_nat (length (images route_)) - 1)%Z then (prev + 1)%Z
  else 0%Z.

(** [route.images[currentImageIndex]] *)
Definition currentImage (route_ : Route) (currentImageIndex : Z)
    : option RouteImage :=
  if (currentImageIndex <? 0)%Z then None
  else nth_error (images route_) (Z.to_nat currentImageIndex).

End RouteDetail.

(* ================================================================= *)
(** ** Marking a point ([src/components/ImageMarker.tsx]) *)

Module ImageMarker.

(** The bounding rectangle of the image on the screen. *)
Record Rect : Type := mkRect {
  rect_left : num;
  rect_top : num;
  rect_width : num;
  rect_height : num
}.

(** [handleClick]: [None] when the marker is read-only or has no
    [onPointsChange]; otherwise the list handed to [onPointsChange]. *)
Definition handleClick (readonly has_onPointsChange : bool) (rect : Rect)
    (clientX clientY : num) (points_ : list Point) : option (list Point) :=
  if readonly || negb has_onPointsChange then None
  else
    let x_ := div (sub clientX (rect_left rect)) (rect_width rect) in
    let y_ := div (sub clientY (rect_top rect)) (rect_height rect) in
    Some (points_ ++ [ {| x := x_; y := y_ |} ]).

End ImageMarker.

(* ================================================================= *)
(** ** The prototype of the order similarity ([scripts/test-algorithms.ts])

    The script has its own copies of [distance], [mean],
    [normalizePoints], [modifiedHausdorffDistance] and [dtwDistance],
    the same as the library's. *)

Module Script.

Definition getOrderedXSequence (points_ : list Point) : list num :=
  let sorted := sort by_y points_ in
  map x sorted.

(** The local function [normalizeSeq] of [relativeOrderSimilarity]. *)
Definition normalizeSeq (s : list num) : list num :=
  let min := Math_min s in
  let max := Math_max s in
  let range := sub max min in
  if strict_eq range (Fin 0) then map (fun _ => Fin (5 / 10)) s
  else map (fun v => div (sub v min) range) s.

Definition relativeOrderSimilarity (pointsA pointsB : list Point)
    : option num :=
  if (length pointsA <? 2)%nat || (length pointsB <? 2)%nat then Some (Fin 0)
  else
    let seqA := getOrderedXSequence pointsA in
    let seqB := getOrderedXSequence pointsB in
    let normA := normalizeSeq seqA in
    let normB := normalizeSeq seqB in
    dtwDist <- dtwDistance normA normB ;;
    Some (Math_round (mul (Math_max [Fin 0; sub (Fin 1) dtwDist]) (Fin 100))).

End Script.

(* ================================================================= *)
(** ** [normalizePoints] in binary64 arithmetic

    The exact arithmetic of the model above hides one thing that the
    code does: [mean] adds and divides in binary64, so the centroid
    of coinciding points need not be that point, and then the test
    [rms === 0] of [normalizePoints] fails.  This module embeds
    [mean] and [normalizePoints] once more, over the binary64 numbers
    of the kernel, operation by operation as the source writes them. *)

Module Binary64.

Import PrimFloat FloatOps SpecFloat QArith.
Local Open Scope float_scope.

Record Point : Type := mkPoint { x : float; y : float }.

(** [values.length] as a number. *)
Definition number_of_nat (n : nat) : float :=
  of_uint63 (Uint63.of_Z (Z.of_nat n)).

Definition mean (values : list float) : float :=
  match values with
  | [] => 0
  | _ => fold_left PrimFloat.add values 0 / number_of_nat (length values)
  end.

Definition normalizePoints (points_ : list Point) : list Point :=
  match points_ with
  | [] => []
  | [_] => [ {| x := 0; y := 0 |} ]
  | _ =>
      let centroid := {| x := mean (map x points_); y := mean (map y points_) |} in
      let centered :=
        map (fun p => {| x := x p - x centroid; y := y p - y centroid |}) points_ in
      let squaredDistances := map (fun p => x p * x p + y p * y p) centered in
      let rms := sqrt (mean squaredDistances) in
      if rms =? 0 then centered
      else map (fun p => {| x := x p / rms; y := y p / rms |}) centered
  end.

(** The rational number a finite binary64 number stands for. *)
Definition value (f : float) : option Q :=
  match Prim2SF f with
  | S754_zero _ => Some 0%Q
  | S754_finite s m e =>
      Some (inject_Z (if s then Z.neg m else Z.pos m) * Qpower 2 e)%Q
  | S754_infinity _ | S754_nan => None
  end.

(** The binary64 sum [a + b] is the sum of the rationals: nothing is
    rounded. *)
Definition exact_sum (a b : float) : bool :=
  match value a, value b, value (a + b) with
  | Some u, Some v, Some w => Qeq_bool (u + v) w
  | _, _, _ => false
  end.

(** The point set [P + t], computed in binary64. *)
Definition translate (t : Point) (P : list Point) : list Point :=
  map (fun p => {| x := x p + x t; y := y p + y t |}) P.

Definition exact_translation (t : Point) (P : list Point) : bool :=
  forallb (fun p => exact_sum (x p) (x t) && exact_sum (y p) (y t)) P.

(** The number 0.1 of a JavaScript program: the binary64 number
    nearest to 1/10. *)
Definition tenth : float := 0x1.999999999999ap-4.

End Binary64.

(* ================================================================= *)
(** ** The callbacks of [useRoutes] with a storage layer that can fail

    [saveImage], [deleteImage] and [saveRoutes] return promises that
    can reject ([deleteImage] swallows only [NotFoundError]).  A
    callback awaits each of them, so a rejection ends the callback
    there: the later calls are not made and [setRoutes] is not
    reached.  The storage layer is a function telling which calls
    resolve; [URL.revokeObjectURL] is not awaited and does not fail.
    Entries removed from [blobUrlCache] before a rejection stay
    removed. *)

Module Fallible.

Import UseRoutes.

Definition Storage : Type := Call -> bool.

(** What a callback leaves: the calls it made (a rejected one is the
    last), the state [routes], and the value its promise resolved
    with ([None] when it rejected). *)
Record Outcome (A : Type) : Type := mkOutcome {
  issued : list Call;
  state : list Route;
  result : option A
}.

Definition addRoute (storage : Storage) (routes : list Route)
    (routeId imageId now : string) (name_ : string) (points_ : list Point)
    : Outcome Route :=
  let filename_ := (imageId ++ ".jpg")%string in
  if storage (SaveImage filename_) then
    let newRoute :=
      {| route_id := routeId;
         name := name_;
         images := [ {| id := imageId;
                        filename := filename_;
                        points := points_;
                        normalizedPoints := normalizePoints points_ |} ];
         createdAt := now |} in
    let updatedRoutes := routes ++ [newRoute] in
    if storage (SaveRoutes updatedRoutes)
    then mkOutcome [SaveImage filename_; SaveRoutes updatedRoutes]
           updatedRoutes (Some newRoute)
    else mkOutcome [SaveImage filename_; SaveRoutes updatedRoutes] routes None
  else mkOutcome [SaveImage filename_] routes None.

Definition addImageToRoute (storage : Storage) (routes : list Route)
    (imageId : string) (routeId : string) (points_ : list Point)
    : Outcome unit :=
  let filename_ := (imageId ++ ".jpg")%string in
  if storage (SaveImage filename_) then
    let updatedRoutes :=
      map (fun route_ =>
             if String.eqb (route_id route_) routeId
             then {| route_id := route_id route_;
                     name := name route_;
                     images := images route_ ++
                               [ {| id := imageId;
                                    filename := filename_;
                                    points := points_;
                                    normalizedPoints := normalizePoints points_ |} ];
                     createdAt := createdAt route_ |}
             else route_) routes in
    if storage (SaveRoutes updatedRoutes)
    then mkOutcome [SaveImage filename_; SaveRoutes updatedRoutes]
           updatedRoutes (Some tt)
    else mkOutcome [SaveImage filename_; SaveRoutes updatedRoutes] routes None
  else mkOutcome [SaveImage filename_] routes None.

(** The loop of [deleteRoute]; the flag tells whether it ran to its
    end. *)
Fixpoint delete_images (storage : Storage) (imgs : list RouteImage)
    (cache : BlobUrlCache) : list Call * BlobUrlCache * bool :=
  match imgs with
  | [] => ([], cache, true)
  | image :: rest =>
      let '(revoked, cache1) :=
        match cache_get cache (filename image) with
        | Some cachedUrl =>
            if truthy cachedUrl
            then ([RevokeObjectURL cachedUrl], cache_delete cache (filename image))
            else ([], cache)
        | None => ([], cache)
        end in
      if storage (DeleteImage (filename image)) then
        let '(calls, cache2, completed) := delete_images storage rest cache1 in
        (revoked ++ DeleteImage (filename image) :: calls, cache2, completed)
      else (revoked ++ [DeleteImage (filename image)], cache1, false)
  end.

Definition deleteRoute (storage : Storage) (routes : list Route)
    (cache : BlobUrlCache) (routeId : string) : Outcome unit * BlobUrlCache :=
  match find (fun r => String.eqb (route_id r) routeId) routes with
  | None => (mkOutcome [] routes (Some tt), cache)
  | Some route_ =>
      let '(calls, cache', completed) :=
        delete_images storage (images route_) cache in
      if completed then
        let updatedRoutes :=
          filter (fun r => negb (String.eqb (route_id r) routeId)) routes in
        if storage (SaveRoutes updatedRoutes)
        then (mkOutcome (calls ++ [SaveRoutes updatedRoutes]) updatedRoutes (Some tt),
              cache')
        else (mkOutcome (calls ++ [SaveRoutes updatedRoutes]) routes None, cache')
      else (mkOutcome calls routes None, cache')
  end.

(** A storage layer on which every call resolves. *)
Definition reliable : Storage := fun _ => true.

End Fallible.

(* ================================================================= *)
(** ** Further sample inputs *)

Definition sample_marking : list (R * R) := [(0, 0); (1, 1)].

(** An image as [addRoute] and [addImageToRoute] store it. *)
Definition stored_image (imageId : string) (q : list (R * R)) : RouteImage :=
  {| id := imageId; filename := (imageId ++ ".jpg")%string;
     points := pts q; normalizedPoints := normalizePoints (pts q) |}.

(** A route with two images of the same marking. *)
Definition tied_route : Route :=
  {| route_id := "tied"; name := "tied";
     images := [stored_image "a" sample_marking; stored_image "b" sample_marking];
     createdAt := "t" |}.

(** A route with three images. *)
Definition gallery_route : Route :=
  {| route_id := "gallery"; name := "gallery";
     images := [stored_image "a" sample_marking;
                stored_image "b" [(0, 0); (1, 0); (0, 2)];
                stored_image "c" [(0, 0); (2, 1)]];
     createdAt := "t" |}.

(** A cache holding a URL for the first image of [tied_route]. *)
Definition sample_cache : UseRoutes.BlobUrlCache := [("a.jpg"%string, "blob:a"%string)].


(** A storage layer that cannot delete the file [b.jpg], and one that
    cannot save the list of routes. *)
Definition keeps_b : Fallible.Storage :=
  fun c => match c with
           | UseRoutes.DeleteImage f => negb (String.eqb f "b.jpg")
           | _ => true
           end.

Definition read_only_list : Fallible.Storage :=
  fun c => match c with
           | UseRoutes.SaveRoutes _ => false
           | _ => true
           end.

(* ================================================================= *)
(** * Properties *)

(** ** Arithmetic on finite numbers *)

Lemma fold_add_Fin (l : list R) (a : R) :
  fold_left (fun sum v => add sum v) (map Fin l) (Fin a) = Fin (a + sumR l).
Proof.
  revert a; induction l as [|b l IH]; intros a; simpl.
  - f_equal; lra.
  - rewrite IH; f_equal; lra.
Qed.

Lemma INR_length_cons_neq (A : Type) (a : A) (l : list A) :
  INR (length (a :: l)) <> 0.
Proof. apply not_0_INR; simpl; lia. Qed.

Lemma mean_Fin (l : list R) : mean (map Fin l) = Fin (meanR l).
Proof.
  destruct l as [|a l].
  - unfold meanR; simpl; f_equal; unfold Rdiv; lra.
  - unfold mean, meanR.
    change (map Fin (a :: l)) with (Fin a :: map Fin l) at 1.
    cbv iota beta.
    rewrite fold_add_Fin, length_map.
    unfold div.
    destruct (Req_dec_T (INR (length (a :: l))) 0) as [E|_].
    + now apply INR_length_cons_neq in E.
    + f_equal; f_equal; lra.
Qed.

Lemma map_x_pts (P : list (R * R)) : map x (pts P) = map Fin (map fst P).
Proof. unfold pts; rewrite !map_map; reflexivity. Qed.

Lemma map_y_pts (P : list (R * R)) : map y (pts P) = map Fin (map snd P).
Proof. unfold pts; rewrite !map_map; reflexivity. Qed.

Lemma sumR_nonneg (l : list R) : Forall (fun v => 0 <= v) l -> 0 <= sumR l.
Proof. induction 1; simpl; lra. Qed.

Lemma sumR_zero (l : list R) :
  Forall (fun v => 0 <= v) l -> sumR l = 0 -> Forall (fun v => v = 0) l.
Proof.
  induction 1 as [|a l Ha Hl IH]; simpl; intros E; constructor.
  - pose proof (sumR_nonneg Hl); lra.
  - apply IH. pose proof (sumR_nonneg Hl); lra.
Qed.

Lemma sqnorm_nonneg (p : R * R) : 0 <= sqnorm p.
Proof. unfold sqnorm; nra. Qed.

Lemma sqnorm_zero (p : R * R) : sqnorm p = 0 -> p = (0, 0).
Proof.
  destruct p as [a b]; unfold sqnorm; simpl; intros E.
  assert (a = 0) by nra. assert (b = 0) by nra. subst; reflexivity.
Qed.

Lemma meanR_nonneg (l : list R) : Forall (fun v => 0 <= v) l -> 0 <= meanR l.
Proof.
  intros H; unfold meanR, Rdiv.
  apply Rmult_le_pos; [now apply sumR_nonneg|].
  destruct l; simpl length.
  - simpl; rewrite Rinv_0; lra.
  - left; apply Rinv_0_lt_compat, lt_0_INR; lia.
Qed.

Lemma Forall_sqnorm_nonneg (P : list (R * R)) :
  Forall (fun v => 0 <= v) (map sqnorm P).
Proof. apply Forall_map, Forall_forall; intros; apply sqnorm_nonneg. Qed.

(** ** [normalizePoints] on finite points *)

Lemma sub_Fin (a b : R) : sub (Fin a) (Fin b) = Fin (a - b).
Proof. reflexivity. Qed.

Lemma div_Fin (a b : R) : b <> 0 -> div (Fin a) (Fin b) = Fin (a / b).
Proof.
  intros Hb; unfold div. destruct (Req_dec_T b 0); [contradiction|reflexivity].
Qed.

Lemma Math_sqrt_Fin (a : R) : 0 <= a -> Math_sqrt (Fin a) = Fin (sqrt a).
Proof.
  intros Ha; unfold Math_sqrt. destruct (Rlt_dec a 0); [lra|reflexivity].
Qed.

Lemma meanR_sqnorm_nonneg (P : list (R * R)) : 0 <= meanR (map sqnorm P).
Proof. apply meanR_nonneg, Forall_sqnorm_nonneg. Qed.

Lemma normalizePoints_unfold (a b : Point) (l : list Point) :
  normalizePoints (a :: b :: l) =
  let points := a :: b :: l in
  let centroid := {| x := mean (map x points); y := mean (map y points) |} in
  let centered :=
    map (fun p => {| x := sub (x p) (x centroid);
                     y := sub (y p) (y centroid) |}) points in
  let squaredDistances :=
    map (fun p => add (mul (x p) (x p)) (mul (y p) (y p))) centered in
  let rms := Math_sqrt (mean squaredDistances) in
  if strict_eq rms (Fin 0) then centered
  else map (fun p => {| x := div (x p) rms; y := div (y p) rms |}) centered.
Proof. reflexivity. Qed.

Lemma normalizePoints_pts (P : list (R * R)) :
  normalizePoints (pts P) = pts (normR P).
Proof.
  destruct P as [|p [|q P]]; try reflexivity.
  set (L := p :: q :: P).
  change (pts L) with (pt p :: pt q :: pts P) at 1.
  rewrite normalizePoints_unfold.
  change (pt p :: pt q :: pts P) with (pts L).
  cbv zeta. cbn [x y].
  rewrite map_x_pts, map_y_pts, !mean_Fin.
  assert (Hc : map (fun p0 : Point =>
                 {| x := sub (x p0) (Fin (meanR (map fst L)));
                    y := sub (y p0) (Fin (meanR (map snd L))) |}) (pts L)
               = pts (centeredR L)).
  { unfold pts, centeredR; rewrite !map_map; reflexivity. }
  rewrite Hc.
  assert (Hs : map (fun p0 : Point => add (mul (x p0) (x p0)) (mul (y p0) (y p0)))
                 (pts (centeredR L))
               = map Fin (map sqnorm (centeredR L))).
  { unfold pts; rewrite !map_map; reflexivity. }
  rewrite Hs, mean_Fin, Math_sqrt_Fin by apply meanR_sqnorm_nonneg.
  fold (rmsR L).
  replace (normR L)
    with (if Req_dec_T (rmsR L) 0 then centeredR L else scaledR L)
    by reflexivity.
  unfold strict_eq.
  destruct (Req_dec_T (rmsR L) 0) as [E|E]; [reflexivity|].
  unfold scaledR, pts; rewrite !map_map.
  apply map_ext; intros a; unfold pt; cbn [x y fst snd].
  now rewrite !div_Fin.
Qed.

(** ** Degenerate inputs of [normalizePoints] *)

Lemma sumR_const (l : list R) (c : R) :
  Forall (fun v => v = c) l -> sumR l = INR (length l) * c.
Proof.
  induction 1 as [|a l Ha Hl IH].
  - simpl; lra.
  - cbn [sumR]. rewrite IH, Ha.
    change (length (c :: l)) with (S (length l)); rewrite S_INR; lra.
Qed.

Lemma meanR_const (l : list R) (c : R) :
  l <> [] -> Forall (fun v => v = c) l -> meanR l = c.
Proof.
  intros Hne H; unfold meanR; rewrite (sumR_const H).
  destruct l as [|a l]; [congruence|].
  field. apply INR_length_cons_neq.
Qed.

Lemma centeredR_coincide (P : list (R * R)) (p : R * R) :
  P <> [] -> Forall (fun q => q = p) P ->
  centeredR P = map (fun _ => (0, 0)) P.
Proof.
  intros Hne H. unfold centeredR.
  assert (Hx : meanR (map fst P) = fst p).
  { apply meanR_const.
    - destruct P; [congruence|discriminate].
    - apply Forall_map; eapply Forall_impl; [|exact H].
      cbv beta; intros a ->; reflexivity. }
  assert (Hy : meanR (map snd P) = snd p).
  { apply meanR_const.
    - destruct P; [congruence|discriminate].
    - apply Forall_map; eapply Forall_impl; [|exact H].
      cbv beta; intros a ->; reflexivity. }
  rewrite Hx, Hy.
  apply map_ext_in; intros a Ha.
  rewrite Forall_forall in H. rewrite (H a Ha).
  f_equal; lra.
Qed.

Lemma rmsR_zero_of_centered (P : list (R * R)) :
  centeredR P = map (fun _ => (0, 0)) P -> rmsR P = 0.
Proof.
  intros E; unfold rmsR; rewrite E, map_map.
  assert (H0 : meanR (map (fun _ : R * R => sqnorm (0, 0)) P) = 0).
  { unfold meanR.
    rewrite (@sumR_const _ 0).
    - unfold Rdiv; lra.
    - apply Forall_map, Forall_forall; intros; unfold sqnorm; simpl; lra. }
  rewrite H0; apply sqrt_0.
Qed.

Lemma normalizePoints_length (P : list Point) :
  length (normalizePoints P) = length P.
Proof.
  destruct P as [|a [|b l]]; try reflexivity.
  rewrite normalizePoints_unfold; cbv zeta.
  match goal with |- context [if ?c then _ else _] => destruct c end;
    now rewrite ?length_map.
Qed.

(** In exact arithmetic [normalizePoints] maps the empty set to the
    empty set, any single point to the origin, and two or more
    coinciding points (RMS radius 0) to their centroid-translated,
    all-zero, unscaled images; its output always has the length of
    its input.  The first, second and last part do not depend on the
    arithmetic; for the third see
    [normalizePoints_coincident_binary64]. *)
Theorem normalizePoints_degenerate :
  normalizePoints [] = [] /\
  (forall p : Point, normalizePoints [p] = [ {| x := Fin 0; y := Fin 0 |} ]) /\
  (forall (P : list (R * R)) (p : R * R),
      (2 <= length P)%nat -> Forall (fun q => q = p) P ->
      rmsR P = 0 /\
      normalizePoints (pts P) = pts (centeredR P) /\
      centeredR P = map (fun _ => (0, 0)) P) /\
  (forall P : list Point, length (normalizePoints P) = length P).
Proof.
  split; [reflexivity|]. split; [reflexivity|]. split.
  - intros P p Hlen Hall.
    assert (Hne : P <> []) by (destruct P; simpl in Hlen; [lia|discriminate]).
    pose proof (centeredR_coincide Hne Hall) as Hc.
    pose proof (rmsR_zero_of_centered _ Hc) as Hr.
    repeat split; trivial.
    rewrite normalizePoints_pts.
    destruct P as [|a [|b P]]; simpl in Hlen; try lia.
    unfold normR. destruct (Req_dec_T _ 0); [reflexivity|contradiction].
  - apply normalizePoints_length.
Qed.

Lemma normalizePoints_degenerate_witness :
  normalizePoints (pts [(5, 5); (5, 5); (5, 5)]) = pts [(0, 0); (0, 0); (0, 0)].
Proof.
  destruct normalizePoints_degenerate as (_ & _ & H & _).
  destruct (H [(5, 5); (5, 5); (5, 5)] (5, 5)) as (_ & E1 & E2).
  - simpl; lia.
  - repeat constructor.
  - rewrite E1, E2; reflexivity.
Defined.

(** ** Translation and scale invariance of [normalizePoints] *)

Lemma sumR_affine (l : list R) (s c : R) :
  sumR (map (fun a => s * a + c) l) = s * sumR l + INR (length l) * c.
Proof.
  induction l as [|a l IH].
  - simpl; lra.
  - cbn [map sumR]. rewrite IH.
    change (length (a :: l)) with (S (length l)); rewrite S_INR; lra.
Qed.

Lemma meanR_affine (l : list R) (s c : R) :
  l <> [] -> meanR (map (fun a => s * a + c) l) = s * meanR l + c.
Proof.
  intros Hne; unfold meanR; rewrite sumR_affine, length_map.
  destruct l as [|a l]; [congruence|].
  field. apply INR_length_cons_neq.
Qed.

Lemma meanR_scale (l : list R) (k : R) :
  meanR (map (fun a => k * a) l) = k * meanR l.
Proof.
  destruct l as [|a l].
  - unfold meanR, Rdiv; simpl; lra.
  - rewrite (map_ext (fun a => k * a) (fun a => k * a + 0)) by (intros; lra).
    rewrite meanR_affine by discriminate. lra.
Qed.

Lemma centeredR_transform (s : R) (t : R * R) (P : list (R * R)) :
  P <> [] ->
  centeredR (transform s t P) = map (fun p => (s * fst p, s * snd p)) (centeredR P).
Proof.
  intros Hne. unfold centeredR, transform.
  rewrite !map_map. cbn [fst snd].
  rewrite <- (map_map fst (fun a => s * a + fst t)).
  rewrite <- (map_map snd (fun a => s * a + snd t)).
  rewrite !meanR_affine by (destruct P; [congruence|discriminate]).
  apply map_ext; intros a; cbn [fst snd]. f_equal; lra.
Qed.

Lemma rmsR_transform (s : R) (t : R * R) (P : list (R * R)) :
  0 < s -> P <> [] -> rmsR (transform s t P) = s * rmsR P.
Proof.
  intros Hs Hne. unfold rmsR. rewrite centeredR_transform by assumption.
  rewrite map_map.
  rewrite (map_ext (fun p => sqnorm (s * fst p, s * snd p))
                   (fun p => (s * s) * sqnorm p))
    by (intros a; unfold sqnorm; cbn [fst snd]; lra).
  rewrite <- (map_map sqnorm (fun v => s * s * v)).
  rewrite meanR_scale.
  rewrite sqrt_mult; [|nra|apply meanR_sqnorm_nonneg].
  rewrite sqrt_square by lra. reflexivity.
Qed.

Lemma centeredR_zero_of_rms (P : list (R * R)) :
  P <> [] -> rmsR P = 0 -> Forall (fun p => p = (0, 0)) (centeredR P).
Proof.
  intros Hne E. unfold rmsR in E.
  apply sqrt_eq_0 in E; [|apply meanR_sqnorm_nonneg].
  unfold meanR in E.
  assert (Hn : INR (length (map sqnorm (centeredR P))) <> 0).
  { unfold centeredR; rewrite !length_map.
    destruct P; [congruence|apply INR_length_cons_neq]. }
  assert (Hsum : sumR (map sqnorm (centeredR P)) = 0).
  { apply (Rmult_eq_compat_r (INR (length (map sqnorm (centeredR P))))) in E.
    unfold Rdiv in E. rewrite Rmult_assoc, Rinv_l in E by assumption. lra. }
  apply sumR_zero in Hsum; [|apply Forall_sqnorm_nonneg].
  rewrite Forall_map in Hsum.
  eapply Forall_impl; [|exact Hsum]. cbv beta; intros a; apply sqnorm_zero.
Qed.

Lemma normR_transform (s : R) (t : R * R) (P : list (R * R)) :
  0 < s -> normR (transform s t P) = normR P.
Proof.
  intros Hs. destruct P as [|p [|q P]]; try reflexivity.
  set (L := p :: q :: P).
  assert (Hne : L <> []) by discriminate.
  replace (normR L)
    with (if Req_dec_T (rmsR L) 0 then centeredR L else scaledR L)
    by reflexivity.
  replace (normR (transform s t L))
    with (if Req_dec_T (rmsR (transform s t L)) 0
          then centeredR (transform s t L) else scaledR (transform s t L))
    by reflexivity.
  rewrite (rmsR_transform t Hs Hne).
  destruct (Req_dec_T (rmsR L) 0) as [E|E];
    destruct (Req_dec_T (s * rmsR L) 0) as [E'|E']; try nra.
  - rewrite centeredR_transform by assumption.
    pose proof (centeredR_zero_of_rms Hne E) as Hz.
    rewrite <- (map_id (centeredR L)) at 2.
    apply map_ext_in; intros a Ha.
    rewrite Forall_forall in Hz; rewrite (Hz a Ha); cbn [fst snd].
    f_equal; lra.
  - unfold scaledR.
    rewrite (rmsR_transform t Hs Hne), centeredR_transform by assumption.
    rewrite map_map. apply map_ext; intros a; cbn [fst snd].
    f_equal; field; split; lra.
Qed.

(** In exact arithmetic [normalizePoints P] equals
    [normalizePoints (s·P + t)] for every finite point set [P], every
    translation [t] and every positive scale [s].  In binary64
    arithmetic this fails on coinciding points; see
    [normalizePoints_translation_binary64]. *)
Theorem normalizePoints_invariant (P : list (R * R)) (t : R * R) (s : R) :
  0 < s ->
  normalizePoints (pts P) = normalizePoints (pts (transform s t P)).
Proof.
  intros Hs. rewrite !normalizePoints_pts, normR_transform; trivial.
Qed.

Lemma normalizePoints_invariant_witness :
  normalizePoints (pts [(0, 0); (1, 0); (5 / 10, 1)]) =
  normalizePoints (pts (transform 10 (100, 200) [(0, 0); (1, 0); (5 / 10, 1)])).
Proof. apply normalizePoints_invariant; lra. Defined.

(** ** [normalizePoints] on coinciding points, in binary64 *)

Section Binary64_normalizePoints.

Import PrimFloat.
Local Open Scope float_scope.

(** C8: in the arithmetic of the code [normalizePoints] returns the
    empty set for the empty set, the origin for any single point and
    zeros for three copies of (5, 5), the input of the unit test;
    but for three copies of (0.1, 0.1) the mean of the coordinates
    is 0.10000000000000002, so the centred points are not zero, the
    RMS radius is not 0, and the result is three copies of
    (-0.7071067811865475, -0.7071067811865475) instead of zeros. *)
Theorem normalizePoints_coincident_binary64 :
  Binary64.normalizePoints [] = [] /\
  (forall p, Binary64.normalizePoints [p] = [Binary64.mkPoint 0 0]) /\
  (let p := Binary64.mkPoint 5 5 in
   Binary64.normalizePoints [p; p; p]
   = [Binary64.mkPoint 0 0; Binary64.mkPoint 0 0; Binary64.mkPoint 0 0]) /\
  (let p := Binary64.mkPoint Binary64.tenth Binary64.tenth in
   let q := Binary64.mkPoint (-0x1.6a09e667f3bccp-1) (-0x1.6a09e667f3bccp-1) in
   Binary64.mean [Binary64.tenth; Binary64.tenth; Binary64.tenth]
   = 0x1.999999999999bp-4 /\
   Binary64.normalizePoints [p; p; p] = [q; q; q]).
Proof.
  split; [reflexivity|]. split; [intros p; reflexivity|].
  split; [vm_compute; reflexivity|].
  split; vm_compute; reflexivity.
Qed.

(** C2: a translation that [normalizePoints] does not absorb.  Three
    copies of (0.125, 0.125), translated by t = 0.1 - 0.125 in each
    coordinate, are three copies of (0.1, 0.1), and no rounding
    takes place in the translation; [normalizePoints] maps the
    former to zeros and the latter to three copies of
    (-0.7071067811865475, -0.7071067811865475). *)
Theorem normalizePoints_translation_binary64 :
  let p := Binary64.mkPoint 0.125 0.125 in
  let t := Binary64.mkPoint (Binary64.tenth - 0.125) (Binary64.tenth - 0.125) in
  let p' := Binary64.mkPoint Binary64.tenth Binary64.tenth in
  let q := Binary64.mkPoint (-0x1.6a09e667f3bccp-1) (-0x1.6a09e667f3bccp-1) in
  Binary64.exact_translation t [p; p; p] = true /\
  Binary64.translate t [p; p; p] = [p'; p'; p'] /\
  Binary64.normalizePoints [p; p; p]
  = [Binary64.mkPoint 0 0; Binary64.mkPoint 0 0; Binary64.mkPoint 0 0] /\
  Binary64.normalizePoints (Binary64.translate t [p; p; p]) = [q; q; q].
Proof. repeat split; vm_compute; reflexivity. Qed.

End Binary64_normalizePoints.

(** ** The Modified Hausdorff Distance *)

Lemma min2_Fin (a b : R) : min2 (Fin a) (Fin b) = Fin (Rmin a b).
Proof.
  unfold min2, lt, Rmin.
  destruct (Rlt_dec b a), (Rle_dec a b); try reflexivity; try lra.
Qed.

Lemma max2_Fin (a b : R) : max2 (Fin a) (Fin b) = Fin (Rmax a b).
Proof.
  unfold max2, lt, Rmax.
  destruct (Rlt_dec a b), (Rle_dec a b); try reflexivity; try lra.
  f_equal; lra.
Qed.

Lemma fold_min2_Fin (l : list R) (a : R) :
  fold_left min2 (map Fin l) (Fin a) = Fin (fold_left Rmin l a).
Proof.
  revert a; induction l as [|b l IH]; intros a; [reflexivity|].
  cbn [map fold_left]. now rewrite min2_Fin, IH.
Qed.

Lemma Math_min_Fin (l : list R) :
  l <> [] -> Math_min (map Fin l) = Fin (minR l).
Proof.
  destruct l as [|a l]; [congruence|intros _].
  unfold Math_min, minR. cbn [map fold_left].
  change (min2 PInf (Fin a)) with (Fin a). apply fold_min2_Fin.
Qed.

Lemma Math_max_pair (a b : R) : Math_max [Fin a; Fin b] = Fin (Rmax a b).
Proof. unfold Math_max; cbn [fold_left]. apply max2_Fin. Qed.

Lemma distR_sym (a b : R * R) : distR a b = distR b a.
Proof. unfold distR; f_equal; ring. Qed.

Lemma distR_nonneg (a b : R * R) : 0 <= distR a b.
Proof. apply sqrt_pos. Qed.

Lemma distR_refl (a : R * R) : distR a a = 0.
Proof.
  unfold distR.
  replace ((fst a - fst a) * (fst a - fst a) + (snd a - snd a) * (snd a - snd a))
    with 0 by ring.
  apply sqrt_0.
Qed.

Lemma distance_pt (a b : R * R) : distance (pt a) (pt b) = Fin (distR a b).
Proof.
  unfold distance, pt; cbn [x y]. rewrite !sub_Fin. cbn [mul add].
  rewrite Math_sqrt_Fin; [reflexivity|].
  apply Rplus_le_le_0_compat; apply Rle_0_sqr.
Qed.

(** The minimum of a non-empty list is one of its elements and a
    lower bound of all of them. *)
Lemma fold_Rmin_le_init (l : list R) (d : R) : fold_left Rmin l d <= d.
Proof.
  revert d; induction l as [|e l IH]; intros d; cbn [fold_left]; [lra|].
  eapply Rle_trans; [apply IH|apply Rmin_l].
Qed.

Lemma fold_Rmin_le (l : list R) (d e : R) : In e l -> fold_left Rmin l d <= e.
Proof.
  revert d; induction l as [|f l IH]; intros d; [intros []|].
  intros [->|Hin]; cbn [fold_left].
  - eapply Rle_trans; [apply fold_Rmin_le_init|apply Rmin_r].
  - now apply IH.
Qed.

Lemma fold_Rmin_In (l : list R) (d : R) : In (fold_left Rmin l d) (d :: l).
Proof.
  revert d; induction l as [|e l IH]; intros d; cbn [fold_left]; [now left|].
  destruct (IH (Rmin d e)) as [E|Hin].
  - unfold Rmin in E at 1. destruct (Rle_dec d e).
    + left; exact E.
    + right; left; exact E.
  - right; right; exact Hin.
Qed.

Lemma minR_le (l : list R) (e : R) : In e l -> minR l <= e.
Proof.
  destruct l as [|d l]; [intros []|]. unfold minR.
  intros [<-|Hin]; [apply fold_Rmin_le_init|now apply fold_Rmin_le].
Qed.

Lemma minR_In (l : list R) : l <> [] -> In (minR l) l.
Proof.
  destruct l as [|d l]; [congruence|intros _]. apply fold_Rmin_In.
Qed.

Lemma minR_lower_bound (l : list R) (c : R) :
  l <> [] -> Forall (fun e => c <= e) l -> c <= minR l.
Proof.
  intros Hne H. rewrite Forall_forall in H. now apply H, minR_In.
Qed.

Lemma nearestR_attained (B : list (R * R)) (a : R * R) :
  B <> [] -> exists b, In b B /\ nearestR B a = distR a b.
Proof.
  intros Hne. unfold nearestR.
  assert (Hin : In (minR (map (fun b => distR a b) B)) (map (fun b => distR a b) B)).
  { apply minR_In. destruct B; [congruence|discriminate]. }
  apply in_map_iff in Hin. destruct Hin as (b & E & Hb).
  exists b; split; [assumption|now symmetry].
Qed.

Lemma nearestR_le (B : list (R * R)) (a b : R * R) :
  In b B -> nearestR B a <= distR a b.
Proof.
  intros Hin. unfold nearestR. apply minR_le.
  apply in_map_iff. now exists b.
Qed.

Lemma nearestR_nonneg (B : list (R * R)) (a : R * R) : 0 <= nearestR B a.
Proof.
  destruct B as [|b B].
  - unfold nearestR; simpl; lra.
  - destruct (@nearestR_attained (b :: B) a) as (c & _ & ->); [discriminate|].
    apply distR_nonneg.
Qed.

Lemma Math_min_distances (a : R * R) (B : list (R * R)) :
  B <> [] ->
  Math_min (map (fun b => distance (pt a) b) (pts B)) = Fin (nearestR B a).
Proof.
  intros Hne. unfold pts. rewrite map_map.
  rewrite (map_ext _ (fun b => Fin (distR a b))) by (intros; apply distance_pt).
  rewrite <- (map_map (fun b => distR a b) Fin).
  apply Math_min_Fin. destruct B; [congruence|discriminate].
Qed.

Lemma Math_min_distances_rev (b : R * R) (A : list (R * R)) :
  A <> [] ->
  Math_min (map (fun a => distance a (pt b)) (pts A)) = Fin (nearestR A b).
Proof.
  intros Hne. unfold pts. rewrite map_map.
  rewrite (map_ext _ (fun a => Fin (distR b a)))
    by (intros; rewrite distance_pt, distR_sym; reflexivity).
  rewrite <- (map_map (fun a => distR b a) Fin).
  apply Math_min_Fin. destruct A; [congruence|discriminate].
Qed.

Lemma modifiedHausdorffDistance_unfold (a b : Point) (A B : list Point) :
  modifiedHausdorffDistance (a :: A) (b :: B) =
  Math_max
    [ mean (map (fun a0 => Math_min (map (fun b0 => distance a0 b0) (b :: B))) (a :: A));
      mean (map (fun b0 => Math_min (map (fun a0 => distance a0 b0) (a :: A))) (b :: B)) ].
Proof. reflexivity. Qed.

Lemma modifiedHausdorffDistance_pts (A B : list (R * R)) :
  A <> [] -> B <> [] ->
  modifiedHausdorffDistance (pts A) (pts B) = Fin (mhdR A B).
Proof.
  intros HA HB.
  destruct A as [|a A]; [congruence|]. destruct B as [|b B]; [congruence|].
  set (LA := a :: A) in *. set (LB := b :: B) in *.
  change (pts LA) with (pt a :: pts A). change (pts LB) with (pt b :: pts B).
  rewrite modifiedHausdorffDistance_unfold.
  change (pt a :: pts A) with (pts LA). change (pt b :: pts B) with (pts LB).
  assert (Hf : map (fun a0 => Math_min (map (fun b0 => distance a0 b0) (pts LB))) (pts LA)
               = map Fin (map (nearestR LB) LA)).
  { unfold pts at 2. rewrite !map_map. apply map_ext; intros c.
    now apply Math_min_distances. }
  assert (Hr : map (fun b0 => Math_min (map (fun a0 => distance a0 b0) (pts LA))) (pts LB)
               = map Fin (map (nearestR LA) LB)).
  { unfold pts at 2. rewrite !map_map. apply map_ext; intros c.
    now apply Math_min_distances_rev. }
  rewrite Hf, Hr, !mean_Fin. apply Math_max_pair.
Qed.

Lemma modifiedHausdorffDistance_empty (A B : list Point) :
  A = [] \/ B = [] -> modifiedHausdorffDistance A B = PInf.
Proof. intros [-> | ->]; [reflexivity|]. destruct A; reflexivity. Qed.

Lemma directedR_self (A : list (R * R)) : directedR A A = 0.
Proof.
  unfold directedR, meanR.
  rewrite (@sumR_const _ 0); [unfold Rdiv; lra|].
  apply Forall_map, Forall_forall; intros a Ha.
  apply Rle_antisym; [|apply nearestR_nonneg].
  rewrite <- (distR_refl a). now apply nearestR_le.
Qed.

(** C3: the distance is [+Infinity] when either set is empty;
    otherwise it is the larger of the two mean nearest-neighbour
    Euclidean distances, where the nearest-neighbour distance is
    attained in the other set and is a lower bound of the distances
    to it.  Hence it is symmetric, and zero on an identical
    non-empty pair. *)
Theorem modifiedHausdorffDistance_spec :
  (forall A B : list Point,
      A = [] \/ B = [] -> modifiedHausdorffDistance A B = PInf) /\
  (forall A B : list (R * R),
      A <> [] -> B <> [] ->
      modifiedHausdorffDistance (pts A) (pts B)
      = Fin (Rmax (meanR (map (nearestR B) A)) (meanR (map (nearestR A) B)))) /\
  (forall (B : list (R * R)) (a : R * R),
      B <> [] ->
      (exists b, In b B /\ nearestR B a = distR a b) /\
      (forall b, In b B -> nearestR B a <= distR a b)) /\
  (forall A B : list (R * R),
      modifiedHausdorffDistance (pts A) (pts B)
      = modifiedHausdorffDistance (pts B) (pts A)) /\
  (forall A : list (R * R),
      A <> [] -> modifiedHausdorffDistance (pts A) (pts A) = Fin 0).
Proof.
  split; [apply modifiedHausdorffDistance_empty|].
  split; [apply modifiedHausdorffDistance_pts|].
  split; [|split].
  - intros B a HB; split; [now apply nearestR_attained|].
    intros b; apply nearestR_le.
  - intros A B.
    destruct A as [|a A], B as [|b B]; try reflexivity.
    rewrite !modifiedHausdorffDistance_pts by discriminate.
    unfold mhdR; now rewrite Rmax_comm.
  - intros A HA. rewrite modifiedHausdorffDistance_pts by assumption.
    unfold mhdR. rewrite directedR_self. f_equal. apply Rmax_left; lra.
Qed.

Lemma modifiedHausdorffDistance_spec_witness :
  modifiedHausdorffDistance (pts [(0, 0); (1, 0)]) (pts [(0, 0); (1, 0)]) = Fin 0.
Proof.
  destruct modifiedHausdorffDistance_spec as (_ & _ & _ & _ & H).
  apply H; discriminate.
Defined.

(** ** Moving one point of [B] away from [A] *)

Lemma sumR_app (l1 l2 : list R) : sumR (l1 ++ l2) = sumR l1 + sumR l2.
Proof. induction l1 as [|a l1 IH]; simpl; lra. Qed.

Lemma sumR_map_le (A : Type) (f g : A -> R) (l : list A) :
  (forall a, In a l -> f a <= g a) -> sumR (map f l) <= sumR (map g l).
Proof.
  induction l as [|a l IH]; intros H; simpl; [lra|].
  assert (f a <= g a) by (apply H; now left).
  assert (sumR (map f l) <= sumR (map g l)) by (apply IH; intros; apply H; now right).
  lra.
Qed.

Lemma meanR_map_le (A : Type) (f g : A -> R) (l : list A) :
  (forall a, In a l -> f a <= g a) -> meanR (map f l) <= meanR (map g l).
Proof.
  intros H. unfold meanR. rewrite !length_map.
  destruct l as [|a l]; [simpl; lra|].
  apply Rmult_le_compat_r; [|now apply sumR_map_le].
  left; apply Rinv_0_lt_compat, lt_0_INR; simpl; lia.
Qed.

Lemma directedR_moved_source (A B1 B2 : list (R * R)) (b b' : R * R) :
  nearestR A b < nearestR A b' ->
  directedR (B1 ++ b :: B2) A < directedR (B1 ++ b' :: B2) A.
Proof.
  intros H. unfold directedR, meanR.
  rewrite !map_app, !length_app. cbn [map length].
  rewrite !sumR_app. cbn [sumR].
  apply Rmult_lt_compat_r; [|lra].
  apply Rinv_0_lt_compat, lt_0_INR. rewrite length_map. lia.
Qed.

Lemma nearestR_moved_target (B1 B2 : list (R * R)) (b b' a : R * R) :
  distR a b <= distR a b' ->
  nearestR (B1 ++ b :: B2) a <= nearestR (B1 ++ b' :: B2) a.
Proof.
  intros H.
  destruct (@nearestR_attained (B1 ++ b' :: B2) a) as (c & Hc & ->).
  { destruct B1; discriminate. }
  apply in_app_or in Hc. destruct Hc as [Hc|[<-|Hc]].
  - apply nearestR_le, in_or_app; now left.
  - eapply Rle_trans; [|exact H].
    apply nearestR_le, in_or_app; right; now left.
  - apply nearestR_le, in_or_app; right; now right.
Qed.

Lemma directedR_moved_target (A B1 B2 : list (R * R)) (b b' : R * R) :
  (forall a, In a A -> distR a b <= distR a b') ->
  directedR A (B1 ++ b :: B2) <= directedR A (B1 ++ b' :: B2).
Proof.
  intros H. unfold directedR. apply meanR_map_le.
  intros a Ha. now apply nearestR_moved_target, H.
Qed.

Lemma distR_horizontal (a b c : R) : distR (a, c) (b, c) = Rabs (a - b).
Proof.
  unfold distR; cbn [fst snd].
  replace ((a - b) * (a - b) + (c - c) * (c - c)) with (Rsqr (a - b))
    by (unfold Rsqr; ring).
  apply sqrt_Rsqr_abs.
Qed.

Lemma mhdR_before_move : mhdR [(0, 0); (10, 0)] [(0, 0); (1, 0)] = 45 / 10.
Proof.
  unfold mhdR, directedR, nearestR, minR, meanR.
  cbn [map fold_left sumR length INR].
  rewrite !distR_horizontal. eval_reals.
Qed.

Lemma mhdR_after_move : mhdR [(0, 0); (10, 0)] [(0, 0); (8, 0)] = 1.
Proof.
  unfold mhdR, directedR, nearestR, minR, meanR.
  cbn [map fold_left sumR length INR].
  rewrite !distR_horizontal. eval_reals.
Qed.

(** C6, as stated, fails: with A = {(0,0), (10,0)} and
    B = {(0,0), (1,0)}, moving (1,0) to (8,0) takes it farther from
    its nearest neighbour (0,0), and farther from A as a whole, yet
    the distance drops from 4.5 to 1, because (10,0) gains a closer
    neighbour. *)
Lemma moved_point_counterexample :
  distR (1, 0) (0, 0) < distR (8, 0) (0, 0) /\
  nearestR [(0, 0); (10, 0)] (1, 0) < nearestR [(0, 0); (10, 0)] (8, 0) /\
  modifiedHausdorffDistance (pts [(0, 0); (10, 0)]) (pts ([(0, 0)] ++ (1, 0) :: []))
    = Fin (45 / 10) /\
  modifiedHausdorffDistance (pts [(0, 0); (10, 0)]) (pts ([(0, 0)] ++ (8, 0) :: []))
    = Fin 1 /\
  lt (modifiedHausdorffDistance (pts [(0, 0); (10, 0)]) (pts ([(0, 0)] ++ (8, 0) :: [])))
     (modifiedHausdorffDistance (pts [(0, 0); (10, 0)]) (pts ([(0, 0)] ++ (1, 0) :: [])))
    = true.
Proof.
  assert (E1 : modifiedHausdorffDistance (pts [(0, 0); (10, 0)])
                 (pts ([(0, 0)] ++ (1, 0) :: [])) = Fin (45 / 10)).
  { cbn [app]. rewrite modifiedHausdorffDistance_pts by discriminate.
    now rewrite mhdR_before_move. }
  assert (E2 : modifiedHausdorffDistance (pts [(0, 0); (10, 0)])
                 (pts ([(0, 0)] ++ (8, 0) :: [])) = Fin 1).
  { cbn [app]. rewrite modifiedHausdorffDistance_pts by discriminate.
    now rewrite mhdR_after_move. }
  split; [rewrite !distR_horizontal; eval_reals|].
  split.
  { unfold nearestR, minR. cbn [map fold_left].
    rewrite !distR_horizontal. eval_reals. }
  split; [exact E1|]. split; [exact E2|].
  rewrite E1, E2. unfold lt. destruct (Rlt_dec 1 (45 / 10)); [reflexivity|lra].
Qed.

(** C6, amended: moving one point of [B] so that its distance to
    the nearest point of [A] strictly grows (the nearest point after
    the move need not be the nearest one before it) never decreases
    the distance, provided that before the move the mean from [B] to
    [A] is the larger of the two directions, or that the moved point
    gets no closer to any point of [A]. *)
Theorem modifiedHausdorffDistance_moved_point
    (A B1 B2 : list (R * R)) (b b' : R * R) :
  A <> [] ->
  nearestR A b < nearestR A b' ->
  directedR A (B1 ++ b :: B2) <= directedR (B1 ++ b :: B2) A \/
  (forall a, In a A -> distR a b <= distR a b') ->
  exists d d',
    modifiedHausdorffDistance (pts A) (pts (B1 ++ b :: B2)) = Fin d /\
    modifiedHausdorffDistance (pts A) (pts (B1 ++ b' :: B2)) = Fin d' /\
    d <= d'.
Proof.
  intros HA Hfar Hcond.
  exists (mhdR A (B1 ++ b :: B2)), (mhdR A (B1 ++ b' :: B2)).
  split; [apply modifiedHausdorffDistance_pts; trivial; destruct B1; discriminate|].
  split; [apply modifiedHausdorffDistance_pts; trivial; destruct B1; discriminate|].
  pose proof (@directedR_moved_source A B1 B2 b b' Hfar) as Hrev.
  unfold mhdR. destruct Hcond as [Hdom|Hno].
  - rewrite (Rmax_right _ _ Hdom).
    eapply Rle_trans; [left; exact Hrev|apply Rmax_r].
  - pose proof (@directedR_moved_target A B1 B2 b b' Hno) as Hfwd.
    apply Rmax_lub.
    + eapply Rle_trans; [exact Hfwd|apply Rmax_l].
    + eapply Rle_trans; [left; exact Hrev|apply Rmax_r].
Qed.

Lemma modifiedHausdorffDistance_moved_point_witness :
  (exists d d',
      modifiedHausdorffDistance (pts [(0, 0); (10, 0)])
        (pts ([(30, 0)] ++ (1, 0) :: [])) = Fin d /\
      modifiedHausdorffDistance (pts [(0, 0); (10, 0)])
        (pts ([(30, 0)] ++ (5, 0) :: [])) = Fin d' /\
      d <= d') /\
  (exists d d',
      modifiedHausdorffDistance (pts [(0, 0); (2, 0)])
        (pts ([(0, 0)] ++ (3, 0) :: [])) = Fin d /\
      modifiedHausdorffDistance (pts [(0, 0); (2, 0)])
        (pts ([(0, 0)] ++ (6, 0) :: [])) = Fin d' /\
      d <= d').
Proof.
  split.
  - apply modifiedHausdorffDistance_moved_point.
    + discriminate.
    + unfold nearestR, minR. cbn [map fold_left].
      rewrite !distR_horizontal. eval_reals.
    + left. unfold directedR, nearestR, minR, meanR.
      cbn [app map fold_left sumR length INR].
      rewrite !distR_horizontal. eval_reals.
  - apply modifiedHausdorffDistance_moved_point.
    + discriminate.
    + unfold nearestR, minR. cbn [map fold_left].
      rewrite !distR_horizontal. eval_reals.
    + right. intros a [<-|[<-|[]]]; rewrite !distR_horizontal; eval_reals.
Defined.

(** ** Dynamic time warping *)

Lemma dtw_table_row0 (seqA seqB : list num) (j : nat) :
  dtw_table seqA seqB 0 j = match j with O => Fin 0 | S _ => PInf end.
Proof. reflexivity. Qed.

Lemma dtw_table_col0 (seqA seqB : list num) (i : nat) :
  dtw_table seqA seqB (S i) 0 = PInf.
Proof. reflexivity. Qed.

Lemma dtw_table_step (seqA seqB : list num) (i j : nat) :
  dtw_table seqA seqB (S i) (S j) =
  add (Math_abs (sub (element seqA i) (element seqB j)))
      (Math_min [dtw_table seqA seqB i (S j); dtw_table seqA seqB (S i) j;
                 dtw_table seqA seqB i j]).
Proof. reflexivity. Qed.

Lemma for_each_seq (St : Type) (Inv : nat -> St -> Prop)
    (body : nat -> St -> option St) (len start : nat) (s : St) :
  Inv start s ->
  (forall k s0, (start <= k < start + len)%nat -> Inv k s0 ->
                exists s1, body k s0 = Some s1 /\ Inv (S k) s1) ->
  exists s', for_each (seq start len) body s = Some s' /\ Inv (start + len)%nat s'.
Proof.
  revert start s; induction len as [|len IH]; intros start s H0 Hstep.
  - exists s; split; [reflexivity|]. now rewrite Nat.add_0_r.
  - destruct (Hstep start s) as (s1 & E1 & H1); [lia|assumption|].
    destruct (IH (S start) s1) as (s' & E' & H'); [assumption| |].
    + intros k s0 Hk; apply Hstep; lia.
    + exists s'; split.
      * cbn [seq for_each]. rewrite E1. exact E'.
      * now replace (start + S len)%nat with (S start + len)%nat by lia.
Qed.

Lemma length_set_element (row : list num) (j : nat) (v : num) :
  (j < length row)%nat -> length (set_element row j v) = length row.
Proof.
  revert j; induction row as [|c row IH]; intros j Hj; simpl in Hj; [lia|].
  destruct j; cbn [set_element length]; [reflexivity|].
  rewrite IH; [reflexivity|lia].
Qed.

Lemma element_set_element (row : list num) (j c : nat) (v : num) :
  (j < length row)%nat ->
  element (set_element row j v) c = if (c =? j)%nat then v else element row c.
Proof.
  unfold element. revert j c; induction row as [|d row IH]; intros j c Hj;
    simpl in Hj; [lia|].
  destruct j, c; cbn [set_element nth Nat.eqb]; try reflexivity.
  apply IH; lia.
Qed.

Lemma length_set_row (t : table) (i : nat) (row : list num) :
  length (set_row t i row) = length t.
Proof.
  revert i; induction t as [|r t IH]; intros i; [reflexivity|].
  destruct i; cbn [set_row length]; [reflexivity|now rewrite IH].
Qed.

Lemma nth_error_set_row (t : table) (i k : nat) (row : list num) :
  (i < length t)%nat ->
  nth_error (set_row t i row) k = if (k =? i)%nat then Some row else nth_error t k.
Proof.
  revert i k; induction t as [|r t IH]; intros i k Hi; simpl in Hi; [lia|].
  destruct i, k; cbn [set_row nth_error Nat.eqb]; try reflexivity.
  apply IH; lia.
Qed.

Lemma represents_ext (n m : nat) (t : table) (f g : nat -> nat -> num) :
  (forall i j, (i <= n)%nat -> (j <= m)%nat -> f i j = g i j) ->
  represents n m t f -> represents n m t g.
Proof.
  intros E (Hl & Hr & Hc). repeat split; trivial.
  intros i j Hi Hj. rewrite <- E by assumption. now apply Hc.
Qed.

Lemma represents_row (n m : nat) (t : table) (f : nat -> nat -> num) (i : nat) :
  represents n m t f -> (i <= n)%nat ->
  exists row, nth_error t i = Some row /\ length row = S m.
Proof.
  intros (Hl & Hr & _) Hi.
  destruct (nth_error t i) as [row|] eqn:E.
  - exists row; split; [reflexivity|]. eapply Hr; eassumption.
  - apply nth_error_None in E. lia.
Qed.

Lemma represents_set_cell (n m : nat) (t : table) (f : nat -> nat -> num)
    (i j : nat) (v : num) :
  represents n m t f -> (i <= n)%nat -> (j <= m)%nat ->
  exists t', set_cell t i j v = Some t' /\
             represents n m t'
               (fun k c => if (k =? i)%nat && (c =? j)%nat then v else f k c).
Proof.
  intros H Hi Hj.
  destruct (represents_row H Hi) as (row & Erow & Hlen).
  destruct H as (Hl & Hr & Hc).
  exists (set_row t i (set_element row j v)). split.
  - unfold set_cell, bind. now rewrite Erow.
  - split; [now rewrite length_set_row|]. split.
    + intros k r. rewrite nth_error_set_row by lia.
      destruct (k =? i)%nat eqn:Ek.
      * intros [= <-]. rewrite length_set_element; lia.
      * apply Hr.
    + intros k c Hk Hc'. unfold get_cell, bind.
      rewrite nth_error_set_row by lia.
      destruct (k =? i)%nat eqn:Ek; cbn [andb].
      * apply Nat.eqb_eq in Ek; subst k.
        rewrite element_set_element by lia.
        destruct (c =? j)%nat; [reflexivity|].
        specialize (Hc i c Hi Hc'). unfold get_cell, bind in Hc.
        now rewrite Erow in Hc.
      * specialize (Hc k c Hk Hc'). unfold get_cell, bind in Hc. exact Hc.
Qed.

Lemma nth_error_repeat (A : Type) (a : A) (n i : nat) :
  (i < n)%nat -> nth_error (repeat a n) i = Some a.
Proof.
  revert i; induction n as [|n IH]; intros i Hi; [lia|].
  destruct i; cbn [repeat nth_error]; [reflexivity|apply IH; lia].
Qed.

Lemma represents_initial (n m : nat) :
  represents n m (repeat (repeat PInf (m + 1)) (n + 1)) (fun _ _ => PInf).
Proof.
  split; [rewrite repeat_length; lia|]. split.
  - intros i row E.
    apply nth_error_In, repeat_spec in E. subst row.
    rewrite repeat_length; lia.
  - intros i j Hi Hj. unfold get_cell, bind.
    rewrite nth_error_repeat by lia.
    unfold element. f_equal.
    apply (repeat_spec (m + 1)), nth_In.
    rewrite repeat_length; lia.
Qed.

Lemma represents_get (n m : nat) (t : table) (f : nat -> nat -> num) (i j : nat) :
  represents n m t f -> (i <= n)%nat -> (j <= m)%nat ->
  get_cell t i j = Some (f i j).
Proof. intros (_ & _ & H); apply H. Qed.

Lemma filled_done (seqA seqB : list num) (i j k c : nat) :
  (k < i)%nat \/ (k = i /\ c <= j)%nat ->
  filled seqA seqB i j k c = dtw_table seqA seqB k c.
Proof. intros H; unfold filled. nat_cases. Qed.

Lemma dtw_body_filled (seqA seqB : list num) (n m i j : nat) (t : table) :
  (1 <= i <= n)%nat -> (1 <= j <= m)%nat ->
  represents n m t (filled seqA seqB i (j - 1)) ->
  exists t', dtw_body seqA seqB i j t = Some t' /\
             represents n m t' (filled seqA seqB i j).
Proof.
  intros Hi Hj H.
  destruct i as [|i]; [lia|]. destruct j as [|j]; [lia|].
  replace (S j - 1)%nat with j in H by lia.
  destruct (@represents_row _ _ _ _ (S i) H) as (row & Erow & _); [lia|].
  set (v := dtw_table seqA seqB (S i) (S j)).
  destruct (@represents_set_cell _ _ _ _ (S i) (S j) v H) as (t' & Eset & H');
    [lia|lia|].
  exists t'; split.
  - unfold dtw_body.
    replace (S i - 1)%nat with i by lia. replace (S j - 1)%nat with j by lia.
    rewrite Erow. cbn [bind].
    rewrite (@represents_get _ _ _ _ i (S j) H) by lia.
    rewrite (@represents_get _ _ _ _ (S i) j H) by lia.
    rewrite (@represents_get _ _ _ _ i j H) by lia.
    cbn [bind].
    rewrite !filled_done by lia.
    rewrite <- dtw_table_step. exact Eset.
  - revert H'. apply represents_ext.
    intros k c Hk Hc. unfold filled, v.
    destruct (Nat.eqb_spec k (S i)) as [->|Hne];
      destruct (Nat.eqb_spec c (S j)) as [->|Hne']; cbn [andb]; nat_cases.
Qed.

Lemma dtw_inner_filled (seqA seqB : list num) (n m i : nat) (t : table) :
  (1 <= i <= n)%nat ->
  represents n m t (filled seqA seqB i 0) ->
  exists t',
    for_each (seq 1 m) (fun j dtw => dtw_body seqA seqB i j dtw) t = Some t' /\
    represents n m t' (filled seqA seqB i m).
Proof.
  intros Hi H.
  destruct (@for_each_seq table
              (fun j t0 => represents n m t0 (filled seqA seqB i (j - 1)))
              (fun j dtw => dtw_body seqA seqB i j dtw) m 1 t)
    as (t' & E & H').
  - exact H.
  - intros k s0 Hk Hinv.
    destruct (@dtw_body_filled seqA seqB n m i k s0) as (s1 & E1 & H1);
      [lia|lia|exact Hinv|].
    exists s1; split; [exact E1|].
    now replace (S k - 1)%nat with k by lia.
  - exists t'; split; [exact E|].
    now replace (1 + m - 1)%nat with m in H' by lia.
Qed.

Lemma filled_next_row (seqA seqB : list num) (m i k c : nat) :
  (c <= m)%nat ->
  filled seqA seqB i m k c = filled seqA seqB (S i) 0 k c.
Proof.
  intros Hc. unfold filled. nat_cases.
  - subst k. assert (c = 0)%nat by lia. subst c. reflexivity.
Qed.

Lemma dtw_fill_filled (seqA seqB : list num) (n m : nat) (t : table) :
  represents n m t (filled seqA seqB 0 m) ->
  exists t', dtw_fill seqA seqB n m t = Some t' /\
             represents n m t' (filled seqA seqB n m).
Proof.
  intros H. unfold dtw_fill.
  destruct (@for_each_seq table
              (fun i t0 => represents n m t0 (filled seqA seqB (i - 1) m))
              (fun i dtw =>
                 for_each (seq 1 m) (fun j dtw0 => dtw_body seqA seqB i j dtw0) dtw)
              n 1 t)
    as (t' & E & H').
  - exact H.
  - intros k s0 Hk Hinv.
    destruct (@dtw_inner_filled seqA seqB n m k s0) as (s1 & E1 & H1); [lia| |].
    + revert Hinv. apply represents_ext. intros a c Ha Hc.
      replace k with (S (k - 1)) at 2 by lia. now apply filled_next_row.
    + exists s1; split; [exact E1|].
      now replace (S k - 1)%nat with k by lia.
  - exists t'; split; [exact E|].
    now replace (1 + n - 1)%nat with n in H' by lia.
Qed.

Lemma dtwDistance_nonempty (seqA seqB : list num) :
  seqA <> [] -> seqB <> [] ->
  dtwDistance seqA seqB =
  Some (div (dtw_table seqA seqB (length seqA) (length seqB))
            (Fin (INR (Nat.max (length seqA) (length seqB))))).
Proof.
  intros HA HB. unfold dtwDistance.
  set (n := length seqA). set (m := length seqB).
  assert (Hn : (n =? 0)%nat = false).
  { apply Nat.eqb_neq. subst n. destruct seqA; [congruence|discriminate]. }
  assert (Hm : (m =? 0)%nat = false).
  { apply Nat.eqb_neq. subst m. destruct seqB; [congruence|discriminate]. }
  rewrite Hn, Hm. cbn [orb].
  destruct (@represents_set_cell n m _ _ 0%nat 0%nat (Fin 0) (represents_initial n m))
    as (t1 & E1 & H1); [lia|lia|].
  rewrite E1. cbn [bind].
  destruct (@dtw_fill_filled seqA seqB n m t1) as (t2 & E2 & H2).
  { revert H1. apply represents_ext. intros k c Hk Hc. unfold filled.
    destruct k as [|k]; destruct c as [|c]; cbn [Nat.eqb andb]; nat_cases. }
  rewrite E2. cbn [bind].
  rewrite (@represents_get _ _ _ _ n m H2) by lia. cbn [bind].
  rewrite filled_done by lia. reflexivity.
Qed.

(** C4: [dtwDistance] is [+Infinity] when either sequence is empty;
    otherwise the loops over the mutable table compute the table of
    the DTW recurrence, and the result is its last cell divided by
    the length of the longer sequence.  The table of the recurrence
    has [table[0][0] = 0], [+Infinity] in the rest of row 0 and of
    column 0, and
    [table[i][j] = |seqA[i-1] - seqB[j-1]| +
                   min(table[i-1][j], table[i][j-1], table[i-1][j-1])]. *)
Theorem dtwDistance_reference :
  (forall seqA seqB : list num,
      dtwDistance seqA seqB = Some (dtw_reference seqA seqB)) /\
  (forall seqA seqB : list num,
      seqA = [] \/ seqB = [] -> dtw_reference seqA seqB = PInf) /\
  (forall (a b : num) (seqA seqB : list num),
      dtw_reference (a :: seqA) (b :: seqB) =
      div (dtw_table (a :: seqA) (b :: seqB) (length (a :: seqA)) (length (b :: seqB)))
          (Fin (INR (Nat.max (length (a :: seqA)) (length (b :: seqB)))))) /\
  (forall seqA seqB : list num, dtw_table seqA seqB 0 0 = Fin 0) /\
  (forall (seqA seqB : list num) (i j : nat),
      dtw_table seqA seqB 0 (S j) = PInf /\ dtw_table seqA seqB (S i) 0 = PInf) /\
  (forall (seqA seqB : list num) (i j : nat),
      dtw_table seqA seqB (S i) (S j) =
      add (Math_abs (sub (element seqA i) (element seqB j)))
          (Math_min [dtw_table seqA seqB i (S j); dtw_table seqA seqB (S i) j;
                     dtw_table seqA seqB i j])).
Proof.
  split; [|split; [|split; [|split; [|split]]]]; try reflexivity.
  - intros seqA seqB.
    destruct seqA as [|a seqA]; [reflexivity|].
    destruct seqB as [|b seqB]; [reflexivity|].
    now rewrite dtwDistance_nonempty by discriminate.
  - intros seqA seqB [-> | ->]; [reflexivity|]. destruct seqA; reflexivity.
  - intros; split; reflexivity.
Qed.

Lemma dtwDistance_reference_witness :
  dtw_reference [Fin 1; Fin 2] [] = PInf.
Proof.
  destruct dtwDistance_reference as (_ & H & _). apply H. now right.
Defined.

(** ** The stable sort *)

Section SortFacts.
Variable A : Type.
Variable comparefn : A -> A -> num.

Lemma insert_perm (a : A) (l : list A) :
  Permutation (insert comparefn a l) (a :: l).
Proof.
  induction l as [|b l IH]; cbn [insert]; [reflexivity|].
  destruct (lt (comparefn b a) (Fin 0)); [|reflexivity].
  rewrite IH. apply perm_swap.
Qed.

Lemma sort_perm (l : list A) : Permutation (sort comparefn l) l.
Proof.
  induction l as [|a l IH]; cbn [sort]; [reflexivity|].
  rewrite insert_perm. now constructor.
Qed.

Lemma sort_length (l : list A) : length (sort comparefn l) = length l.
Proof. apply Permutation_length, sort_perm. Qed.

(** The comparison function orders by a real key. *)
Variable key : A -> R.
Hypothesis comparefn_key :
  forall a b, lt (comparefn b a) (Fin 0) = true <-> key b < key a.

Lemma insert_sorted (a : A) (l : list A) :
  StronglySorted (fun u v => key u <= key v) l ->
  StronglySorted (fun u v => key u <= key v) (insert comparefn a l).
Proof.
  induction 1 as [|b l Hs IH Hb]; cbn [insert].
  - repeat constructor.
  - destruct (lt (comparefn b a) (Fin 0)) eqn:E.
    + apply comparefn_key in E. constructor; [exact IH|].
      rewrite Forall_forall in *. intros c Hc.
      apply (Permutation_in _ (insert_perm a l)) in Hc.
      destruct Hc as [<-|Hc]; [lra|now apply Hb].
    + assert (Hab : key a <= key b).
      { destruct (Rle_dec (key a) (key b)) as [|Hn]; [assumption|].
        assert (Hlt : key b < key a) by lra.
        apply comparefn_key in Hlt. congruence. }
      constructor; [now constructor|].
      constructor; [exact Hab|].
      rewrite Forall_forall in *. intros c Hc. specialize (Hb c Hc). lra.
Qed.

Lemma sort_sorted (l : list A) :
  StronglySorted (fun u v => key u <= key v) (sort comparefn l).
Proof.
  induction l as [|a l IH]; cbn [sort]; [constructor|].
  now apply insert_sorted.
Qed.

(** Stability: the elements of any one key keep their order. *)
Lemma insert_stable (k : R) (a : A) (l : list A) :
  filter (has_key key k) (insert comparefn a l) = filter (has_key key k) (a :: l).
Proof.
  induction l as [|b l IH]; cbn [insert]; [reflexivity|].
  destruct (lt (comparefn b a) (Fin 0)) eqn:E; [|reflexivity].
  apply comparefn_key in E.
  cbn [filter] in *. rewrite IH.
  unfold has_key.
  destruct (Req_dec_T (key a) k), (Req_dec_T (key b) k); try reflexivity.
  lra.
Qed.

Lemma sort_stable (k : R) (l : list A) :
  filter (has_key key k) (sort comparefn l) = filter (has_key key k) l.
Proof.
  induction l as [|a l IH]; cbn [sort]; [reflexivity|].
  rewrite insert_stable. cbn [filter]. now rewrite IH.
Qed.
End SortFacts.

Lemma sort_map (A B : Type) (f : A -> B) (cmpA : A -> A -> num)
    (cmpB : B -> B -> num) (l : list A) :
  (forall a b, cmpB (f a) (f b) = cmpA a b) ->
  sort cmpB (map f l) = map f (sort cmpA l).
Proof.
  intros H. induction l as [|a l IH]; [reflexivity|].
  cbn [map sort]. rewrite IH. generalize (sort cmpA l) as s.
  induction s as [|b s IHs]; [reflexivity|].
  cbn [map insert]. rewrite H.
  destruct (lt (cmpA b a) (Fin 0)); cbn [map]; [now rewrite IHs|reflexivity].
Qed.

Lemma lt_Fin_0 (r : R) : lt (Fin r) (Fin 0) = true <-> r < 0.
Proof. unfold lt. destruct (Rlt_dec r 0); split; trivial; [discriminate|lra]. Qed.

Lemma sort_by_y_pts (P : list (R * R)) :
  sort by_y (pts P) = pts (sort_by_y P).
Proof. unfold pts, sort_by_y. apply sort_map. reflexivity. Qed.

Lemma sort_by_y_perm (P : list (R * R)) : Permutation (sort_by_y P) P.
Proof. apply sort_perm. Qed.

Lemma sort_by_y_sorted (P : list (R * R)) :
  StronglySorted (fun a b => snd a <= snd b) (sort_by_y P).
Proof.
  apply sort_sorted. intros a b. rewrite lt_Fin_0. lra.
Qed.

Lemma sort_by_y_stable (k : R) (P : list (R * R)) :
  filter (has_key snd k) (sort_by_y P) = filter (has_key snd k) P.
Proof.
  apply sort_stable. intros a b. rewrite lt_Fin_0. lra.
Qed.

(** ** Min-max normalisation *)

Lemma fold_max2_Fin (l : list R) (a : R) :
  fold_left max2 (map Fin l) (Fin a) = Fin (fold_left Rmax l a).
Proof.
  revert a; induction l as [|b l IH]; intros a; [reflexivity|].
  cbn [map fold_left]. now rewrite max2_Fin, IH.
Qed.

Lemma Math_max_Fin (l : list R) :
  l <> [] -> Math_max (map Fin l) = Fin (maxR l).
Proof.
  destruct l as [|a l]; [congruence|intros _].
  unfold Math_max, maxR. cbn [map fold_left].
  change (max2 NInf (Fin a)) with (Fin a). apply fold_max2_Fin.
Qed.

Lemma fold_Rmax_ge_init (l : list R) (d : R) : d <= fold_left Rmax l d.
Proof.
  revert d; induction l as [|e l IH]; intros d; cbn [fold_left]; [lra|].
  eapply Rle_trans; [apply Rmax_l|apply IH].
Qed.

Lemma fold_Rmax_ge (l : list R) (d e : R) : In e l -> e <= fold_left Rmax l d.
Proof.
  revert d; induction l as [|f l IH]; intros d; [intros []|].
  intros [->|Hin]; cbn [fold_left].
  - eapply Rle_trans; [apply Rmax_r|apply fold_Rmax_ge_init].
  - now apply IH.
Qed.

Lemma maxR_ge (l : list R) (e : R) : In e l -> e <= maxR l.
Proof.
  destruct l as [|d l]; [intros []|]. unfold maxR.
  intros [<-|Hin]; [apply fold_Rmax_ge_init|now apply fold_Rmax_ge].
Qed.

Lemma normalize_Fin (l : list R) : normalize (map Fin l) = map Fin (minmaxR l).
Proof.
  destruct l as [|a l].
  { unfold minmaxR. destruct (Req_dec_T _ _); reflexivity. }
  set (L := a :: l). unfold normalize, minmaxR.
  rewrite Math_min_Fin, Math_max_Fin by discriminate.
  unfold strict_eq.
  destruct (Req_dec_T (maxR L) (minR L)) as [E|E]; rewrite !map_map.
  - reflexivity.
  - apply map_ext; intros v. rewrite !sub_Fin, div_Fin; [reflexivity|lra].
Qed.

Lemma minmaxR_length (l : list R) : length (minmaxR l) = length l.
Proof. unfold minmaxR. destruct (Req_dec_T _ _); apply length_map. Qed.

Lemma minmaxR_range (l : list R) : Forall (fun v => 0 <= v <= 1) (minmaxR l).
Proof.
  unfold minmaxR.
  destruct (Req_dec_T (maxR l) (minR l)) as [E|E];
    apply Forall_map, Forall_forall; intros v Hv; [lra|].
  pose proof (minR_le _ _ Hv). pose proof (maxR_ge _ _ Hv).
  assert (0 < maxR l - minR l) by lra.
  split.
  - apply Rmult_le_pos; [lra|]. left; now apply Rinv_0_lt_compat.
  - apply (Rmult_le_reg_r (maxR l - minR l)); [assumption|].
    unfold Rdiv. rewrite Rmult_assoc, Rinv_l by lra. lra.
Qed.

Lemma minmaxR_constant (l : list R) (c : R) :
  Forall (fun v => v = c) l -> minmaxR l = map (fun _ => 5 / 10) l.
Proof.
  intros H. unfold minmaxR.
  destruct (Req_dec_T (maxR l) (minR l)) as [E|E]; [reflexivity|].
  destruct l as [|a l]; [reflexivity|]. exfalso; apply E.
  rewrite Forall_forall in H.
  assert (Hmin : minR (a :: l) = c).
  { apply H, minR_In. discriminate. }
  assert (Hmax : maxR (a :: l) <= c).
  { unfold maxR. clear E Hmin.
    assert (Ha : a <= c) by (right; apply H; now left).
    assert (Hl : forall e, In e l -> e <= c) by (intros e He; right; apply H; now right).
    clear H. revert a Ha. induction l as [|e l IH]; intros a Ha; cbn [fold_left].
    - exact Ha.
    - apply IH.
      + intros f Hf; apply Hl; now right.
      + apply Rmax_lub; [assumption|apply Hl; now left]. }
  assert (c <= maxR (a :: l)).
  { rewrite <- (H a) by now left. apply maxR_ge. now left. }
  lra.
Qed.

(** ** DTW on finite sequences *)

Lemma element_Fin (l : list R) (i : nat) :
  (i < length l)%nat -> element (map Fin l) i = Fin (nth i l 0).
Proof.
  intros Hi. unfold element.
  rewrite (nth_indep _ NaN (Fin 0)) by now rewrite length_map.
  apply map_nth.
Qed.

Lemma nonneg_fin_or_inf (v : num) : nonneg_fin v -> nonneg_or_inf v.
Proof. intros H; now right. Qed.

Lemma min2_PInf_l (v : num) : nonneg_or_inf v -> min2 PInf v = v.
Proof. intros [->|(r & -> & _)]; reflexivity. Qed.

Lemma min2_nonneg_or_inf (u v : num) :
  nonneg_or_inf u -> nonneg_or_inf v -> nonneg_or_inf (min2 u v).
Proof.
  intros [->|(r & -> & Hr)] [->|(s & -> & Hs)].
  - now left.
  - right; exists s; split; [reflexivity|assumption].
  - right; exists r; split; [reflexivity|assumption].
  - right; exists (Rmin r s); split; [apply min2_Fin|].
    apply Rmin_glb; assumption.
Qed.

Lemma min2_nonneg_fin_l (u v : num) :
  nonneg_fin u -> nonneg_or_inf v -> nonneg_fin (min2 u v).
Proof.
  intros (r & -> & Hr) [->|(s & -> & Hs)].
  - exists r; split; [reflexivity|assumption].
  - exists (Rmin r s); split; [apply min2_Fin|]. apply Rmin_glb; assumption.
Qed.

Lemma min2_nonneg_fin_r (u v : num) :
  nonneg_or_inf u -> nonneg_fin v -> nonneg_fin (min2 u v).
Proof.
  intros [->|(r & -> & Hr)] (s & -> & Hs).
  - exists s; split; [reflexivity|assumption].
  - exists (Rmin r s); split; [apply min2_Fin|]. apply Rmin_glb; assumption.
Qed.

Lemma Math_min3_nonneg_fin (u v w : num) :
  nonneg_or_inf u -> nonneg_or_inf v -> nonneg_or_inf w ->
  nonneg_fin u \/ nonneg_fin v \/ nonneg_fin w ->
  nonneg_fin (Math_min [u; v; w]).
Proof.
  intros Hu Hv Hw H. unfold Math_min. cbn [fold_left].
  rewrite (min2_PInf_l Hu).
  destruct H as [H|[H|H]].
  - apply min2_nonneg_fin_l; [|assumption]. now apply min2_nonneg_fin_l.
  - apply min2_nonneg_fin_l; [|assumption]. now apply min2_nonneg_fin_r.
  - apply min2_nonneg_fin_r; [|assumption]. now apply min2_nonneg_or_inf.
Qed.

Lemma cell_class_nonneg_or_inf (i j : nat) (v : num) :
  cell_class i j v -> nonneg_or_inf v.
Proof.
  destruct i, j; cbn [cell_class]; intros H.
  - right; exists 0; split; [assumption|lra].
  - now left.
  - now left.
  - now right.
Qed.

Lemma dtw_table_class (a b : list R) (i j : nat) :
  (i <= length a)%nat -> (j <= length b)%nat ->
  cell_class i j (dtw_table (map Fin a) (map Fin b) i j).
Proof.
  revert j. induction i as [|i IHi]; intros j Hi Hj.
  - destruct j; reflexivity.
  - induction j as [|j IHj]; [reflexivity|].
    cbn [cell_class]. rewrite dtw_table_step.
    rewrite !element_Fin by lia. rewrite sub_Fin. cbn [Math_abs].
    pose proof (IHi (S j) ltac:(lia) Hj) as Hu.
    pose proof (IHj ltac:(lia)) as Hv.
    pose proof (IHi j ltac:(lia) ltac:(lia)) as Hw.
    destruct (@Math_min3_nonneg_fin
                (dtw_table (map Fin a) (map Fin b) i (S j))
                (dtw_table (map Fin a) (map Fin b) (S i) j)
                (dtw_table (map Fin a) (map Fin b) i j))
      as (r & -> & Hr).
    + eapply cell_class_nonneg_or_inf; eassumption.
    + eapply cell_class_nonneg_or_inf; eassumption.
    + eapply cell_class_nonneg_or_inf; eassumption.
    + destruct i as [|i].
      * destruct j as [|j].
        -- right; right. exists 0; split; [exact Hw|lra].
        -- right; left. exact Hv.
      * left. exact Hu.
    + eexists; split; [reflexivity|].
      pose proof (Rabs_pos (nth i a 0 - nth j b 0)). lra.
Qed.

Lemma dtw_reference_finite (a b : list R) :
  a <> [] -> b <> [] ->
  nonneg_fin (dtw_reference (map Fin a) (map Fin b)).
Proof.
  intros Ha Hb.
  destruct a as [|a0 a]; [congruence|]. destruct b as [|b0 b]; [congruence|].
  set (LA := a0 :: a). set (LB := b0 :: b).
  change (map Fin LA) with (Fin a0 :: map Fin a) at 1.
  change (map Fin LB) with (Fin b0 :: map Fin b) at 1.
  unfold dtw_reference.
  change (Fin a0 :: map Fin a) with (map Fin LA).
  change (Fin b0 :: map Fin b) with (map Fin LB).
  rewrite !length_map.
  pose proof (@dtw_table_class LA LB (length LA) (length LB) (le_n _) (le_n _)) as H.
  cbn [LA LB length cell_class] in H. destruct H as (r & E & Hr).
  cbn [LA LB length]. rewrite E.
  assert (Hpos : 0 < INR (Nat.max (S (length a)) (S (length b)))).
  { apply lt_0_INR. lia. }
  rewrite div_Fin by lra.
  eexists; split; [reflexivity|].
  apply Rmult_le_pos; [assumption|]. left; now apply Rinv_0_lt_compat.
Qed.

Lemma dtwDistance_is_reference (seqA seqB : list num) :
  dtwDistance seqA seqB = Some (dtw_reference seqA seqB).
Proof.
  destruct seqA as [|a seqA]; [reflexivity|].
  destruct seqB as [|b seqB]; [reflexivity|].
  now rewrite dtwDistance_nonempty by discriminate.
Qed.

(** ** Rounding *)

Lemma round_half_up_IZR (z : Z) : round_half_up (IZR z) = z.
Proof. unfold round_half_up. apply Zfloor_eq. lra. Qed.

Lemma round_half_up_le (r s : R) :
  r <= s -> (round_half_up r <= round_half_up s)%Z.
Proof. intros H; unfold round_half_up. apply Zfloor_le. lra. Qed.

Lemma round_half_up_range (r : R) (lo hi : Z) :
  IZR lo <= r <= IZR hi -> (lo <= round_half_up r <= hi)%Z.
Proof.
  intros [Hlo Hhi]. split.
  - rewrite <- (round_half_up_IZR lo). now apply round_half_up_le.
  - rewrite <- (round_half_up_IZR hi). now apply round_half_up_le.
Qed.

Lemma round_half_up_0 : round_half_up 0 = 0%Z.
Proof. apply (round_half_up_IZR 0). Qed.

(** ** [relativeOrderSimilarity] *)

Lemma similarity_of_distance_Fin (d : R) :
  similarity_of_distance (Fin d) = Fin (IZR (round_half_up (100 * Rmax 0 (1 - d)))).
Proof.
  unfold similarity_of_distance. rewrite sub_Fin, Math_max_pair. reflexivity.
Qed.

Lemma order_conversion (d : R) :
  (if ge (Fin d) (Fin 1) then Some (Fin 0)
   else Some (Math_round (mul (sub (Fin 1) (div (Fin d) (Fin 1))) (Fin 100))))
  = Some (similarity_of_distance (Fin d)).
Proof.
  rewrite similarity_of_distance_Fin. unfold ge.
  destruct (Rle_dec 1 d) as [H|H].
  - rewrite Rmax_left by lra. rewrite Rmult_0_r, round_half_up_0. reflexivity.
  - rewrite Rmax_right by lra. rewrite div_Fin by lra. rewrite sub_Fin.
    cbn [mul Math_round]. do 4 f_equal. field.
Qed.

Lemma length_pts (P : list (R * R)) : length (pts P) = length P.
Proof. apply length_map. Qed.

Lemma orderedProjection_length (P : list (R * R)) :
  length (orderedProjection P) = length P.
Proof. unfold orderedProjection, sort_by_y. now rewrite length_map, sort_length. Qed.

Lemma normalized_projection (P : list (R * R)) :
  normalize (map x (sort by_y (pts P))) = map Fin (minmaxR (orderedProjection P)).
Proof. now rewrite sort_by_y_pts, map_x_pts, normalize_Fin. Qed.

Lemma nonempty_length (A : Type) (l : list A) : l <> [] <-> length l <> 0%nat.
Proof. destruct l; simpl; split; congruence. Qed.

Lemma minmax_projection_nonempty (P : list (R * R)) :
  P <> [] -> minmaxR (orderedProjection P) <> [].
Proof.
  rewrite !nonempty_length, minmaxR_length, orderedProjection_length. trivial.
Qed.

Lemma relativeOrderSimilarity_general (A B : list (R * R)) :
  A <> [] -> B <> [] -> ~ (length A = 1%nat /\ length B = 1%nat) ->
  relativeOrderSimilarity (pts A) (pts B) =
  Some (similarity_of_distance
          (dtw_reference (map Fin (minmaxR (orderedProjection A)))
                         (map Fin (minmaxR (orderedProjection B))))).
Proof.
  intros HA HB Hone. unfold relativeOrderSimilarity.
  rewrite !length_pts.
  apply nonempty_length in HA as HA'. apply nonempty_length in HB as HB'.
  apply Nat.eqb_neq in HA', HB'. rewrite HA', HB'. cbn [orb].
  assert (E1 : ((length A =? 1)%nat && (length B =? 1)%nat) = false).
  { apply andb_false_iff.
    destruct (Nat.eqb_spec (length A) 1); [|now left].
    destruct (Nat.eqb_spec (length B) 1); [|now right].
    exfalso; apply Hone; now split. }
  rewrite E1. cbv zeta.
  rewrite !normalized_projection, dtwDistance_is_reference. cbn [bind].
  destruct (@dtw_reference_finite (minmaxR (orderedProjection A))
              (minmaxR (orderedProjection B))) as (d & -> & Hd);
    [now apply minmax_projection_nonempty..|].
  apply order_conversion.
Qed.

Lemma relativeOrderSimilarity_pts (A B : list (R * R)) :
  relativeOrderSimilarity (pts A) (pts B) = Some (orderSimilarity_spec A B).
Proof.
  destruct A as [|a [|a' A]], B as [|b [|b' B]]; try reflexivity;
    (rewrite relativeOrderSimilarity_general;
     [reflexivity|discriminate|discriminate|cbn [length]; lia]).
Qed.

Lemma orderSimilarity_spec_range (A B : list (R * R)) :
  exists k : Z, orderSimilarity_spec A B = Fin (IZR k) /\ (0 <= k <= 100)%Z.
Proof.
  assert (H0 : exists k : Z, Fin 0 = Fin (IZR k) /\ (0 <= k <= 100)%Z)
    by (exists 0%Z; split; [reflexivity|lia]).
  assert (H100 : exists k : Z, Fin 100 = Fin (IZR k) /\ (0 <= k <= 100)%Z)
    by (exists 100%Z; split; [reflexivity|lia]).
  assert (Hgen : forall A B : list (R * R), A <> [] -> B <> [] ->
            exists k : Z,
              similarity_of_distance
                (dtw_reference (map Fin (minmaxR (orderedProjection A)))
                               (map Fin (minmaxR (orderedProjection B))))
              = Fin (IZR k) /\ (0 <= k <= 100)%Z).
  { intros A0 B0 HA HB.
    destruct (@dtw_reference_finite (minmaxR (orderedProjection A0))
                (minmaxR (orderedProjection B0))) as (d & -> & Hd);
      [now apply minmax_projection_nonempty..|].
    rewrite similarity_of_distance_Fin. eexists; split; [reflexivity|].
    apply round_half_up_range.
    unfold Rmax; destruct (Rle_dec 0 (1 - d)); lra. }
  destruct A as [|a [|a' A]], B as [|b [|b' B]];
    try exact H0; try exact H100; apply Hgen; discriminate.
Qed.

(** C5: [relativeOrderSimilarity] is 0 when either set is empty and
    100 when both have exactly one point; otherwise each set is
    sorted by y ascending, its x-coordinates are min-max normalised
    into [0,1] (a constant sequence is mapped to 0.5 everywhere),
    and the result is [round(100 · max(0, 1 − distance))] for the DTW
    distance of the two normalised sequences. *)
Theorem relativeOrderSimilarity_spec :
  (forall A B : list (R * R),
      relativeOrderSimilarity (pts A) (pts B) = Some (orderSimilarity_spec A B)) /\
  (forall A B : list (R * R),
      A = [] \/ B = [] -> orderSimilarity_spec A B = Fin 0) /\
  (forall a b : R * R, orderSimilarity_spec [a] [b] = Fin 100) /\
  (forall A B : list (R * R),
      A <> [] -> B <> [] -> ~ (length A = 1%nat /\ length B = 1%nat) ->
      orderSimilarity_spec A B =
      Math_round (mul (Fin 100) (Math_max [Fin 0; sub (Fin 1)
        (dtw_reference (map Fin (minmaxR (map fst (sort_by_y A))))
                       (map Fin (minmaxR (map fst (sort_by_y B)))))]))) /\
  (forall P : list (R * R),
      Permutation (sort_by_y P) P /\
      StronglySorted (fun a b => snd a <= snd b) (sort_by_y P)) /\
  (forall l : list R, Forall (fun v => 0 <= v <= 1) (minmaxR l)) /\
  (forall (l : list R) (c : R),
      Forall (fun v => v = c) l -> minmaxR l = map (fun _ => 5 / 10) l) /\
  (forall (l : list R),
      maxR l <> minR l ->
      minmaxR l = map (fun v => (v - minR l) / (maxR l - minR l)) l).
Proof.
  split; [apply relativeOrderSimilarity_pts|].
  split; [intros A B [-> | ->]; [reflexivity|destruct A as [|a [|a' A]]; reflexivity]|].
  split; [reflexivity|].
  split.
  { intros A B HA HB Hone.
    destruct A as [|a [|a' A]], B as [|b [|b' B]]; try congruence; try reflexivity.
    exfalso; apply Hone; split; reflexivity. }
  split; [intros P; split; [apply sort_by_y_perm|apply sort_by_y_sorted]|].
  split; [apply minmaxR_range|].
  split; [apply minmaxR_constant|].
  intros l H. unfold minmaxR. destruct (Req_dec_T _ _); [contradiction|reflexivity].
Qed.

Lemma relativeOrderSimilarity_spec_witness :
  orderSimilarity_spec [] [(0, 0)] = Fin 0 /\
  minmaxR [3; 3] = map (fun _ => 5 / 10) [3; 3].
Proof.
  destruct relativeOrderSimilarity_spec as (_ & H0 & _ & _ & _ & _ & Hc & _).
  split; [apply H0; now left|].
  apply (Hc [3; 3] 3). repeat constructor.
Defined.

(** ** [distanceToSimilarity] and [combinedSimilarity] *)

Lemma distanceToSimilarity_PInf (m : R) :
  distanceToSimilarity PInf (Some (Fin m)) = Fin 0.
Proof. reflexivity. Qed.

Lemma distanceToSimilarity_far (d m : R) :
  m <= d -> distanceToSimilarity (Fin d) (Some (Fin m)) = Fin 0.
Proof.
  intros H. unfold distanceToSimilarity, ge.
  destruct (Rle_dec m d); [reflexivity|contradiction].
Qed.

Lemma distanceToSimilarity_near (d m : R) :
  0 <= d < m ->
  distanceToSimilarity (Fin d) (Some (Fin m)) =
  Fin (IZR (round_half_up ((1 - d / m) * 100))).
Proof.
  intros [Hd Hm]. unfold distanceToSimilarity, ge.
  destruct (Rle_dec m d); [lra|].
  rewrite div_Fin by lra. rewrite sub_Fin, Math_max_pair.
  assert (0 <= d / m) by (apply Rmult_le_pos; [lra|left; apply Rinv_0_lt_compat; lra]).
  assert (d / m < 1).
  { apply (Rmult_lt_reg_r m); [lra|].
    unfold Rdiv. rewrite Rmult_assoc, Rinv_l by lra. lra. }
  rewrite Rmax_right by lra. reflexivity.
Qed.

Lemma distanceToSimilarity_range (v : num) (m : R) :
  nonneg_or_inf v ->
  exists k : Z,
    distanceToSimilarity v (Some (Fin m)) = Fin (IZR k) /\ (0 <= k <= 100)%Z.
Proof.
  intros [->|(d & -> & Hd)].
  - exists 0%Z; split; [reflexivity|lia].
  - destruct (Rle_dec m d) as [H|H].
    + exists 0%Z; split; [now apply distanceToSimilarity_far|lia].
    + rewrite distanceToSimilarity_near by lra.
      eexists; split; [reflexivity|].
      apply round_half_up_range.
      assert (0 <= d / m) by (apply Rmult_le_pos; [lra|left; apply Rinv_0_lt_compat; lra]).
      assert (d / m < 1).
      { apply (Rmult_lt_reg_r m); [lra|].
        unfold Rdiv. rewrite Rmult_assoc, Rinv_l by lra. lra. }
      lra.
Qed.

Lemma combinedSimilarity_Fin (s o w1 w2 : R) :
  combinedSimilarity (Fin s) (Fin o) (Some {| mhd := Fin w1; order := Fin w2 |})
  = Fin (IZR (round_half_up (w1 * s + w2 * o))).
Proof. reflexivity. Qed.

(** C7, as stated, fails: the weights are not validated, and with
    the weight pair (1, 1) the similarities 100 and 100 combine to
    200, outside 0..100. *)
Lemma combinedSimilarity_range_counterexample :
  combinedSimilarity (Fin 100) (Fin 100) (Some {| mhd := Fin 1; order := Fin 1 |})
    = Fin 200 /\
  ~ (exists k : Z,
        combinedSimilarity (Fin 100) (Fin 100)
          (Some {| mhd := Fin 1; order := Fin 1 |}) = Fin (IZR k) /\
        (0 <= k <= 100)%Z).
Proof.
  assert (E : combinedSimilarity (Fin 100) (Fin 100)
                (Some {| mhd := Fin 1; order := Fin 1 |}) = Fin 200).
  { rewrite combinedSimilarity_Fin.
    replace (1 * 100 + 1 * 100) with (IZR 200) by lra.
    now rewrite round_half_up_IZR. }
  split; [exact E|].
  intros (k & Ek & Hk). rewrite E in Ek.
  injection Ek as Ek. apply eq_IZR in Ek. lia.
Qed.

(** C7, amended: for similarities in 0..100 and any finite weight
    pair, [combinedSimilarity] returns
    [round(w1·setSimilarity + w2·orderSimilarity)], an integer; the
    value lies in 0..100 when the weights are non-negative and sum
    to at most 1, as the default weights 0.6 and 0.4 do. *)
Theorem combinedSimilarity_spec (s o w1 w2 : R) :
  0 <= s <= 100 -> 0 <= o <= 100 ->
  combinedSimilarity (Fin s) (Fin o) (Some {| mhd := Fin w1; order := Fin w2 |})
    = Fin (IZR (round_half_up (w1 * s + w2 * o))) /\
  combinedSimilarity (Fin s) (Fin o) None
    = Fin (IZR (round_half_up (6 / 10 * s + 4 / 10 * o))) /\
  (0 <= round_half_up (6 / 10 * s + 4 / 10 * o) <= 100)%Z /\
  (0 <= w1 -> 0 <= w2 -> w1 + w2 <= 1 ->
   (0 <= round_half_up (w1 * s + w2 * o) <= 100)%Z).
Proof.
  intros Hs Ho.
  split; [reflexivity|]. split; [reflexivity|]. split.
  - apply round_half_up_range. lra.
  - intros H1 H2 H12. apply round_half_up_range. nra.
Qed.

Lemma combinedSimilarity_spec_witness :
  combinedSimilarity (Fin 100) (Fin 0) (Some {| mhd := Fin (7 / 10); order := Fin (3 / 10) |})
    = Fin (IZR (round_half_up (7 / 10 * 100 + 3 / 10 * 0))) /\
  (0 <= round_half_up (7 / 10 * 100 + 3 / 10 * 0) <= 100)%Z.
Proof.
  destruct (@combinedSimilarity_spec 100 0 (7 / 10) (3 / 10)) as (E & _ & _ & H);
    [lra|lra|].
  split; [exact E|]. apply H; lra.
Defined.

(** ** The search *)

Lemma finite_points_pts (P : list Point) :
  Forall finite_point P -> exists P', P = pts P'.
Proof.
  induction 1 as [|p P Hp HP (P' & ->)].
  - now exists [].
  - destruct p as [a b]. destruct Hp as ((r & Hr) & (s & Hs)). cbn [x y] in *.
    subst. now exists ((r, s) :: P').
Qed.

Lemma modifiedHausdorffDistance_class (A B : list (R * R)) :
  nonneg_or_inf (modifiedHausdorffDistance (pts A) (pts B)).
Proof.
  destruct A as [|a A]; [now left|].
  destruct B as [|b B]; [now left|].
  right. rewrite modifiedHausdorffDistance_pts by discriminate.
  eexists; split; [reflexivity|].
  unfold mhdR. eapply Rle_trans; [|apply Rmax_l].
  unfold directedR. apply meanR_nonneg, Forall_map, Forall_forall.
  intros c _. apply nearestR_nonneg.
Qed.

Lemma image_similarity_finite (q : list (R * R)) (opts : RequiredOptions)
    (image : RouteImage) :
  finite_required opts -> finite_image image ->
  exists k : Z,
    image_similarity (pts q) (normalizePoints (pts q)) opts image
    = Some (Fin (IZR k)).
Proof.
  intros ((m & Hm) & (w1 & Hw1) & (w2 & Hw2)) (Hp & Hn).
  apply finite_points_pts in Hp, Hn.
  destruct Hp as (P & HP), Hn as (N & HN).
  unfold image_similarity. rewrite HP, HN, Hm, Hw1, Hw2.
  rewrite normalizePoints_pts, relativeOrderSimilarity_pts. cbn [bind].
  destruct (@distanceToSimilarity_range
              (modifiedHausdorffDistance (pts (normR q)) (pts N)) m)
    as (k1 & -> & _); [apply modifiedHausdorffDistance_class|].
  destruct (orderSimilarity_spec_range q P) as (k2 & -> & _).
  rewrite combinedSimilarity_Fin. eexists; reflexivity.
Qed.

Lemma image_similarity_score (q : list (R * R)) (opts : RequiredOptions)
    (image : RouteImage) :
  finite_required opts -> finite_image image ->
  image_similarity (pts q) (normalizePoints (pts q)) opts image
  = Some (Fin (image_score (pts q) opts image)).
Proof.
  intros Ho Hi. unfold image_score.
  destruct (image_similarity_finite q Ho Hi) as (k & ->). reflexivity.
Qed.

Lemma gt_Fin (a b : R) : gt (Fin a) (Fin b) = if Rlt_dec b a then true else false.
Proof. reflexivity. Qed.

Lemma best_image_spec (q : list (R * R)) (opts : RequiredOptions)
    (imgs : list RouteImage) (b : R) (s : string) :
  finite_required opts -> Forall finite_image imgs ->
  best_image (pts q) (normalizePoints (pts q)) opts imgs (Fin b, s) =
  Some (Fin (fold_left Rmax (map (image_score (pts q) opts) imgs) b),
        if Rlt_dec b (fold_left Rmax (map (image_score (pts q) opts) imgs) b)
        then earliest_with (image_score (pts q) opts)
               (fold_left Rmax (map (image_score (pts q) opts) imgs) b) imgs
        else s).
Proof.
  intros Ho Hi. revert b s.
  induction Hi as [|image rest Him Hrest IH]; intros b s.
  - cbn [best_image map fold_left]. destruct (Rlt_dec b b); [lra|reflexivity].
  - cbn [best_image map fold_left earliest_with].
    rewrite (image_similarity_score q Ho Him). cbn [bind fst].
    set (v := image_score (pts q) opts image).
    rewrite gt_Fin. destruct (Rlt_dec b v) as [Hbv|Hbv].
    + rewrite IH. rewrite (Rmax_right b v) by lra.
      set (M := fold_left Rmax (map (image_score (pts q) opts) rest) v).
      pose proof (fold_Rmax_ge_init (map (image_score (pts q) opts) rest) v) as HM.
      fold M in HM.
      f_equal. f_equal.
      destruct (Rlt_dec v M), (Rlt_dec b M), (Req_dec_T v M); try lra; reflexivity.
    + rewrite IH. rewrite (Rmax_left b v) by lra.
      set (M := fold_left Rmax (map (image_score (pts q) opts) rest) b).
      pose proof (fold_Rmax_ge_init (map (image_score (pts q) opts) rest) b) as HM.
      fold M in HM.
      f_equal. f_equal.
      destruct (Rlt_dec b M), (Req_dec_T v M); try lra; reflexivity.
Qed.

Lemma score_routes_spec (q : list (R * R)) (opts : RequiredOptions)
    (routes : list Route) (results : list SearchResult) :
  finite_required opts -> Forall finite_route routes ->
  score_routes (pts q) (normalizePoints (pts q)) opts routes results =
  Some (results ++ map (route_entry (pts q) opts) routes).
Proof.
  intros Ho Hr. revert results.
  induction Hr as [|r rest Hfr Hrest IH]; intros results.
  - cbn [score_routes map]. now rewrite app_nil_r.
  - cbn [score_routes map].
    rewrite (best_image_spec q 0 EmptyString Ho Hfr). cbn [bind fst snd].
    rewrite IH, <- app_assoc. reflexivity.
Qed.

Lemma the_options_finite (options : option MatchingOptions) :
  match options with Some o => finite_options o | None => True end ->
  finite_required (the_options options).
Proof.
  assert (D : forall r, is_finite (Fin r)) by (intros r; now exists r).
  destruct options as [[[a|] [b|] [c|]]|]; cbn;
    unfold finite_options, finite_required; cbn; intuition auto.
Qed.

Lemma searchRoutes_ranking (q : list (R * R)) (routes : list Route)
    (maxResults : option Z) (options : option MatchingOptions) :
  match options with Some o => finite_options o | None => True end ->
  Forall finite_route routes ->
  searchRoutes (pts q) routes maxResults options =
  Some (slice0 (map (route_entry (pts q) (the_options options))
                    (rank_routes (pts q) (the_options options) routes))
               (the_limit maxResults)).
Proof.
  intros Ho Hr. unfold searchRoutes. fold (the_options options).
  fold (the_limit maxResults).
  rewrite (score_routes_spec q [] (the_options_finite _ Ho) Hr).
  cbn [bind app]. f_equal. f_equal.
  unfold rank_routes. apply sort_map. reflexivity.
Qed.

Lemma slice0_firstn (A : Type) (l : list A) (k : Z) :
  (0 <= k)%Z -> slice0 l k = firstn (Z.to_nat k) l.
Proof.
  intros Hk. unfold slice0.
  destruct (Z.ltb_spec k 0) as [|_]; [lia|].
  destruct (Z.le_gt_cases k (Z.of_nat (length l))) as [H|H].
  - now rewrite Z.min_l by assumption.
  - rewrite Z.min_r by lia. rewrite Nat2Z.id, firstn_all.
    symmetry. apply firstn_all2. lia.
Qed.

Lemma slice0_all (A : Type) (l : list A) (k : Z) :
  (Z.of_nat (length l) <= k)%Z -> slice0 l k = l.
Proof.
  intros H. rewrite slice0_firstn by lia. apply firstn_all2. lia.
Qed.

Lemma In_firstn (A : Type) (n : nat) (l : list A) (a : A) :
  In a (firstn n l) -> In a l.
Proof.
  intros H. rewrite <- (firstn_skipn n l). apply in_or_app. now left.
Qed.

Lemma In_slice0 (A : Type) (l : list A) (k : Z) (a : A) :
  In a (slice0 l k) -> In a l.
Proof. unfold slice0. apply In_firstn. Qed.

Lemma StronglySorted_impl (A : Type) (P Q : A -> A -> Prop) (l : list A) :
  (forall a b, P a b -> Q a b) -> StronglySorted P l -> StronglySorted Q l.
Proof.
  intros H. induction 1 as [|a l Hs IH Ha]; constructor; [assumption|].
  eapply Forall_impl; [|exact Ha]. apply H.
Qed.

Section Ranking.
Variable queryPoints : list Point.
Variable opts : RequiredOptions.

Let best := best_score queryPoints opts.
Let score := image_score queryPoints opts.

Lemma rank_routes_key (a b : Route) :
  lt (Fin (best a - best b)) (Fin 0) = true <-> - best b < - best a.
Proof. rewrite lt_Fin_0. lra. Qed.

Lemma rank_routes_perm (routes : list Route) :
  Permutation (rank_routes queryPoints opts routes) routes.
Proof. apply sort_perm. Qed.

Lemma rank_routes_sorted (routes : list Route) :
  StronglySorted (fun a b => best b <= best a)
    (rank_routes queryPoints opts routes).
Proof.
  apply StronglySorted_impl with (P := fun a b => - best a <= - best b).
  - intros a b; lra.
  - apply sort_sorted. intros a b. apply rank_routes_key.
Qed.

Lemma rank_routes_stable (s : R) (routes : list Route) :
  filter (has_key best s) (rank_routes queryPoints opts routes)
  = filter (has_key best s) routes.
Proof.
  assert (E : forall l, filter (has_key best s) l
                        = filter (has_key (fun r => - best r) (- s)) l).
  { intros l. apply filter_ext. intros r. unfold has_key.
    destruct (Req_dec_T (best r) s), (Req_dec_T (- best r) (- s));
      try reflexivity; lra. }
  rewrite !E. apply sort_stable. intros a b. apply rank_routes_key.
Qed.

(** The best score is the largest of 0 and the image scores. *)
Lemma best_score_nonneg (r : Route) : 0 <= best r.
Proof. apply fold_Rmax_ge_init. Qed.

Lemma best_score_upper (r : Route) (image : RouteImage) :
  In image (images r) -> score image <= best r.
Proof. intros H. apply fold_Rmax_ge. now apply in_map. Qed.

Lemma fold_Rmax_In (l : list R) (d : R) : In (fold_left Rmax l d) (d :: l).
Proof.
  revert d; induction l as [|e l IH]; intros d; cbn [fold_left]; [now left|].
  destruct (IH (Rmax d e)) as [E|Hin].
  - unfold Rmax in E at 1. destruct (Rle_dec d e).
    + right; left; exact E.
    + left; exact E.
  - right; right; exact Hin.
Qed.

Lemma best_score_attained (r : Route) :
  best r = 0 \/ exists image, In image (images r) /\ score image = best r.
Proof.
  destruct (fold_Rmax_In (map score (images r)) 0) as [E|Hin].
  - left. symmetry. exact E.
  - right. apply in_map_iff in Hin. destruct Hin as (image & E & Hin).
    now exists image.
Qed.

Lemma best_score_is_maximum (r : Route) :
  (exists image, In image (images r) /\ 0 <= score image) ->
  exists image, In image (images r) /\ score image = best r.
Proof.
  intros (im & Him & Hpos).
  destruct (best_score_attained r) as [E|H]; [|exact H].
  exists im; split; [assumption|].
  pose proof (best_score_upper r im Him). lra.
Qed.

Lemma route_entry_zero (r : Route) :
  (forall image, In image (images r) -> score image <= 0) ->
  route_entry queryPoints opts r =
  {| route := r; similarity := Fin 0; matchedImageId := EmptyString |}.
Proof.
  intros H.
  assert (E : best r = 0).
  { destruct (best_score_attained r) as [E|(im & Him & E)]; [exact E|].
    pose proof (H im Him). pose proof (best_score_nonneg r). lra. }
  unfold route_entry, best_image_id. fold best. rewrite E.
  destruct (Rlt_dec 0 0); [lra|reflexivity].
Qed.

Lemma earliest_with_split (m : R) (pre post : list RouteImage)
    (image : RouteImage) :
  score image = m ->
  (forall i, In i pre -> score i < m) ->
  earliest_with score m (pre ++ image :: post) = id image.
Proof.
  intros E Hpre. induction pre as [|i pre IH]; cbn [app earliest_with].
  - destruct (Req_dec_T (score image) m); [reflexivity|contradiction].
  - destruct (Req_dec_T (score i) m) as [Ei|_].
    + pose proof (Hpre i (or_introl eq_refl)). lra.
    + apply IH. intros j Hj. apply Hpre. now right.
Qed.

Lemma route_entry_earliest (r : Route) (pre post : list RouteImage)
    (image : RouteImage) :
  images r = pre ++ image :: post ->
  0 < score image ->
  (forall i, In i pre -> score i < score image) ->
  (forall i, In i post -> score i <= score image) ->
  route_entry queryPoints opts r =
  {| route := r; similarity := Fin (score image); matchedImageId := id image |}.
Proof.
  intros Himg Hpos Hpre Hpost.
  assert (E : best r = score image).
  { apply Rle_antisym.
    - destruct (best_score_attained r) as [E|(i & Hi & E)]; [lra|].
      rewrite <- E. rewrite Himg in Hi. apply in_app_or in Hi.
      destruct Hi as [Hi|[<-|Hi]]; [left; now apply Hpre|lra|now apply Hpost].
    - apply best_score_upper. rewrite Himg. apply in_or_app. right; now left. }
  unfold route_entry, best_image_id. fold best. rewrite E.
  destruct (Rlt_dec 0 (score image)); [|lra].
  fold score. rewrite Himg, earliest_with_split; trivial.
Qed.
End Ranking.

(** ** Concrete searches *)

Lemma sample_image_similarity :
  image_similarity (pts [(0, 0)]) (normalizePoints (pts [(0, 0)]))
    (the_options (Some negative_weight_options)) sample_image
  = Some (Fin (-100)).
Proof.
  unfold image_similarity, sample_image. cbn [normalizedPoints points].
  change (normalizePoints (pts [(0, 0)])) with (pts [(0, 0)]).
  rewrite modifiedHausdorffDistance_pts by discriminate.
  unfold mhdR. rewrite directedR_self, Rmax_left by lra.
  change (r_maxDistance (the_options (Some negative_weight_options)))
    with (Fin (6 / 10)).
  rewrite distanceToSimilarity_near by lra.
  replace ((1 - 0 / (6 / 10)) * 100) with (IZR 100) by (field; lra).
  rewrite round_half_up_IZR.
  change (relativeOrderSimilarity (pts [(0, 0)]) (pts [(0, 0)]))
    with (Some (Fin 100)).
  cbn [bind].
  change (r_mhdWeight (the_options (Some negative_weight_options))) with (Fin (-1)).
  change (r_orderWeight (the_options (Some negative_weight_options))) with (Fin 0).
  rewrite combinedSimilarity_Fin.
  replace (-1 * 100 + 0 * 100) with (IZR (-100)) by lra.
  now rewrite round_half_up_IZR.
Qed.

Lemma sample_route_finite : Forall finite_route [sample_route].
Proof.
  assert (F : finite_point (pt (0, 0))) by (split; eexists; reflexivity).
  constructor; [|constructor].
  constructor; [|constructor].
  split; (constructor; [exact F|constructor]).
Qed.

Lemma bare_routes_finite : Forall finite_route [bare_route_1; bare_route_2].
Proof. repeat constructor. Qed.

Lemma negative_weight_options_finite : finite_options negative_weight_options.
Proof. repeat split; cbn; trivial; eexists; reflexivity. Qed.

Lemma bare_routes_ranking (q : list Point) (opts : RequiredOptions) :
  map (route_entry q opts) (rank_routes q opts [bare_route_1; bare_route_2]) =
  [ {| route := bare_route_1; similarity := Fin 0; matchedImageId := EmptyString |};
    {| route := bare_route_2; similarity := Fin 0; matchedImageId := EmptyString |} ].
Proof.
  unfold rank_routes. cbn [sort insert].
  change (best_score q opts bare_route_1) with 0.
  change (best_score q opts bare_route_2) with 0.
  unfold lt. destruct (Rlt_dec (0 - 0) 0) as [H|_]; [lra|].
  cbn [map]. rewrite !route_entry_zero by (intros image []). reflexivity.
Qed.

(** C1, as stated, fails in two corners.  With a negative weight
    the only image of a route scores -100, yet the route is reported
    with score 0 and no image: the tracked best starts from 0.  With
    a negative [maxResults], [slice] counts from the end: one of two
    entries is returned for [maxResults = -1]. *)
Lemma searchRoutes_counterexample :
  image_similarity (pts [(0, 0)]) (normalizePoints (pts [(0, 0)]))
    (the_options (Some negative_weight_options)) sample_image
  = Some (Fin (-100)) /\
  searchRoutes (pts [(0, 0)]) [sample_route] None (Some negative_weight_options)
  = Some [ {| route := sample_route; similarity := Fin 0;
              matchedImageId := EmptyString |} ] /\
  searchRoutes (pts [(0, 0)]) [bare_route_1; bare_route_2] (Some (-1)%Z) None
  = Some [ {| route := bare_route_1; similarity := Fin 0;
              matchedImageId := EmptyString |} ].
Proof.
  split; [exact sample_image_similarity|]. split.
  - rewrite (@searchRoutes_ranking [(0, 0)] [sample_route] None
               (Some negative_weight_options)
               negative_weight_options_finite sample_route_finite).
    unfold rank_routes. cbn [sort insert map].
    rewrite route_entry_zero; [reflexivity|].
    intros image [<-|[]]. unfold image_score.
    rewrite sample_image_similarity. cbn [value real_of]. lra.
  - rewrite (@searchRoutes_ranking [(0, 0)] [bare_route_1; bare_route_2]
               (Some (-1)%Z) None I bare_routes_finite).
    rewrite bare_routes_ranking. reflexivity.
Qed.

(** C1, amended: for finite inputs and a non-negative [maxResults]
    (default 10), [searchRoutes] returns the first [maxResults]
    entries of the ranking that has one entry per route, scored with
    the largest of 0 and the combined scores of the route's images
    (the maximum combined score as soon as one image scores at least
    0), in descending order of score, ties in input order. *)
Theorem searchRoutes_spec (q : list (R * R)) (routes : list Route)
    (maxResults : option Z) (options : option MatchingOptions) :
  match options with Some o => finite_options o | None => True end ->
  Forall finite_route routes ->
  (0 <= the_limit maxResults)%Z ->
  searchRoutes (pts q) routes maxResults options =
    Some (firstn (Z.to_nat (the_limit maxResults))
            (map (route_entry (pts q) (the_options options))
                 (rank_routes (pts q) (the_options options) routes))) /\
  the_limit None = 10%Z /\
  Permutation (rank_routes (pts q) (the_options options) routes) routes /\
  StronglySorted
    (fun a b => best_score (pts q) (the_options options) b
                <= best_score (pts q) (the_options options) a)
    (rank_routes (pts q) (the_options options) routes) /\
  (forall s : R,
      filter (has_key (best_score (pts q) (the_options options)) s)
             (rank_routes (pts q) (the_options options) routes)
      = filter (has_key (best_score (pts q) (the_options options)) s) routes) /\
  (forall (r : Route) (image : RouteImage),
      In r routes -> In image (images r) ->
      image_similarity (pts q) (normalizePoints (pts q)) (the_options options) image
      = Some (Fin (image_score (pts q) (the_options options) image))) /\
  (forall r : Route,
      similarity (route_entry (pts q) (the_options options) r)
        = Fin (best_score (pts q) (the_options options) r) /\
      0 <= best_score (pts q) (the_options options) r /\
      (forall image, In image (images r) ->
         image_score (pts q) (the_options options) image
         <= best_score (pts q) (the_options options) r) /\
      (best_score (pts q) (the_options options) r = 0 \/
       exists image, In image (images r) /\
         image_score (pts q) (the_options options) image
         = best_score (pts q) (the_options options) r) /\
      ((exists image, In image (images r) /\
          0 <= image_score (pts q) (the_options options) image) ->
       exists image, In image (images r) /\
         image_score (pts q) (the_options options) image
         = best_score (pts q) (the_options options) r)).
Proof.
  intros Ho Hr Hk.
  split.
  { rewrite (searchRoutes_ranking q maxResults options Ho Hr).
    now rewrite slice0_firstn. }
  split; [reflexivity|].
  split; [apply rank_routes_perm|].
  split; [apply rank_routes_sorted|].
  split; [intros s; apply rank_routes_stable|].
  split.
  { intros r image Hin Himg.
    apply image_similarity_score; [now apply the_options_finite|].
    rewrite Forall_forall in Hr. specialize (Hr r Hin).
    unfold finite_route in Hr. rewrite Forall_forall in Hr. now apply Hr. }
  intros r. split; [reflexivity|].
  split; [apply best_score_nonneg|].
  split; [apply best_score_upper|].
  split; [apply best_score_attained|apply best_score_is_maximum].
Qed.

Lemma searchRoutes_spec_witness :
  searchRoutes (pts [(0, 0)]) [bare_route_1; bare_route_2] (Some 1%Z) None =
  Some (firstn (Z.to_nat (the_limit (Some 1%Z)))
          (map (route_entry (pts [(0, 0)]) (the_options None))
               (rank_routes (pts [(0, 0)]) (the_options None)
                  [bare_route_1; bare_route_2]))).
Proof.
  apply (@searchRoutes_spec [(0, 0)] [bare_route_1; bare_route_2] (Some 1%Z) None).
  - exact I.
  - repeat constructor.
  - simpl. lia.
Defined.

(** C10, as stated, fails: the entry of a route whose best score is
    0 is built but need not be returned.  Of two routes without
    images, [maxResults = 1] returns the entry of the first only. *)
Lemma truncated_entry_counterexample :
  searchRoutes (pts [(0, 0)]) [bare_route_1; bare_route_2] (Some 1%Z) None
  = Some [ {| route := bare_route_1; similarity := Fin 0;
              matchedImageId := EmptyString |} ] /\
  ~ (exists results,
        searchRoutes (pts [(0, 0)]) [bare_route_1; bare_route_2] (Some 1%Z) None
        = Some results /\
        exists entry, In entry results /\ route entry = bare_route_2).
Proof.
  assert (E : searchRoutes (pts [(0, 0)]) [bare_route_1; bare_route_2]
                (Some 1%Z) None
              = Some [ {| route := bare_route_1; similarity := Fin 0;
                          matchedImageId := EmptyString |} ]).
  { rewrite (@searchRoutes_ranking [(0, 0)] [bare_route_1; bare_route_2]
               (Some 1%Z) None I bare_routes_finite).
    rewrite bare_routes_ranking. reflexivity. }
  split; [exact E|].
  intros (results & Er & entry & Hin & Hroute).
  rewrite E in Er. injection Er as <-.
  destruct Hin as [<-|[]]. discriminate Hroute.
Qed.

(** C10, amended: the ranking [searchRoutes] builds before it
    truncates holds an entry for every route, so the entry is
    returned whenever [maxResults] is at least the number of routes.
    When no image of the route scores above 0 (no images, or every
    image scoring 0) the entry has similarity 0 and the empty string
    as [matchedImageId]; when several images tie for the best
    positive score the earliest of them is reported. *)
Theorem searchRoutes_zero_score (q : list (R * R)) (routes : list Route)
    (maxResults : option Z) (options : option MatchingOptions) (r : Route) :
  match options with Some o => finite_options o | None => True end ->
  Forall finite_route routes ->
  In r routes ->
  (exists ranking,
      searchRoutes (pts q) routes maxResults options
        = Some (slice0 ranking (the_limit maxResults)) /\
      In (route_entry (pts q) (the_options options) r) ranking /\
      length ranking = length routes) /\
  ((Z.of_nat (length routes) <= the_limit maxResults)%Z ->
   exists results,
     searchRoutes (pts q) routes maxResults options = Some results /\
     In (route_entry (pts q) (the_options options) r) results) /\
  ((forall image, In image (images r) ->
      image_score (pts q) (the_options options) image <= 0) ->
   route_entry (pts q) (the_options options) r =
   {| route := r; similarity := Fin 0; matchedImageId := EmptyString |}) /\
  (forall (pre post : list RouteImage) (image : RouteImage),
      images r = pre ++ image :: post ->
      0 < image_score (pts q) (the_options options) image ->
      (forall i, In i pre ->
         image_score (pts q) (the_options options) i
         < image_score (pts q) (the_options options) image) ->
      (forall i, In i post ->
         image_score (pts q) (the_options options) i
         <= image_score (pts q) (the_options options) image) ->
      route_entry (pts q) (the_options options) r =
      {| route := r;
         similarity := Fin (image_score (pts q) (the_options options) image);
         matchedImageId := id image |}).
Proof.
  intros Ho Hr Hin.
  pose proof (searchRoutes_ranking q maxResults options Ho Hr) as E.
  set (ranking := map (route_entry (pts q) (the_options options))
                      (rank_routes (pts q) (the_options options) routes)) in *.
  assert (Hentry : In (route_entry (pts q) (the_options options) r) ranking).
  { apply in_map.
    apply (Permutation_in _ (Permutation_sym (rank_routes_perm _ _ routes))).
    exact Hin. }
  assert (Hlen : length ranking = length routes).
  { unfold ranking. rewrite length_map. apply Permutation_length, rank_routes_perm. }
  split; [exists ranking; now repeat split|].
  split.
  { intros Hk. exists ranking. split; [|exact Hentry].
    rewrite E. f_equal. apply slice0_all. now rewrite Hlen. }
  split; [apply route_entry_zero|].
  intros pre post image. apply route_entry_earliest.
Qed.

(** ** Totality *)

Lemma distanceToSimilarity_defined (d : num) (m : option num) :
  is_finite d \/ d = PInf -> finite_opt m ->
  distanceToSimilarity d m <> NaN.
Proof.
  intros Hd Hm.
  assert (Hm' : exists b, match m with Some v => v | None => Fin (6 / 10) end = Fin b).
  { destruct m as [v|]; [exact Hm|eexists; reflexivity]. }
  destruct Hm' as (b & Eb).
  unfold distanceToSimilarity. rewrite Eb.
  destruct Hd as [(a & ->)| ->]; [|discriminate].
  unfold ge. destruct (Rle_dec b a) as [H|H]; [discriminate|].
  unfold div. destruct (Req_dec_T b 0) as [Hb|Hb].
  - destruct (Req_dec_T a 0); [lra|]. destruct (Rlt_dec 0 a); [lra|].
    cbn. unfold inf_times.
    destruct (Req_dec_T 100 0); [lra|]. destruct (Rlt_dec 0 100); [|lra].
    discriminate.
  - rewrite sub_Fin, Math_max_pair. discriminate.
Qed.

Lemma dtwDistance_finite_inputs (a b : list R) :
  exists v, dtwDistance (map Fin a) (map Fin b) = Some v /\ nonneg_or_inf v.
Proof.
  rewrite dtwDistance_is_reference. eexists; split; [reflexivity|].
  destruct a as [|a0 a]; [now left|]. destruct b as [|b0 b]; [now left|].
  apply nonneg_fin_or_inf.
  apply (@dtw_reference_finite (a0 :: a) (b0 :: b)); discriminate.
Qed.

Lemma combinedSimilarity_finite (s o : R) (w : option Weights) :
  finite_weights w -> is_finite (combinedSimilarity (Fin s) (Fin o) w).
Proof.
  destruct w as [[w1 w2]|]; cbn.
  - intros ((a & ->) & (b & ->)). eexists; reflexivity.
  - intros _. eexists; reflexivity.
Qed.

Lemma searchRoutes_total (q : list (R * R)) (routes : list Route)
    (maxResults : option Z) (options : option MatchingOptions) :
  match options with Some o => finite_options o | None => True end ->
  Forall finite_route routes ->
  exists results,
    searchRoutes (pts q) routes maxResults options = Some results /\
    Forall (fun entry => is_finite (similarity entry)) results.
Proof.
  intros Ho Hr. rewrite (searchRoutes_ranking q maxResults options Ho Hr).
  eexists; split; [reflexivity|].
  apply Forall_forall. intros entry Hin.
  apply In_slice0, in_map_iff in Hin. destruct Hin as (r & <- & _).
  eexists; reflexivity.
Qed.

(** C9: on finite numbers no core function throws and every one
    returns a defined value: the mean and the normalised points are
    finite, the two distances are non-negative reals or
    [+Infinity], the min-max normalised sequences are finite, the
    similarities are finite (integers in 0..100 for the order
    similarity), the result of [distanceToSimilarity] is never
    [NaN], and the search returns a list of entries with finite
    scores. *)
Theorem core_functions_total :
  (forall l : list R, mean (map Fin l) = Fin (meanR l)) /\
  (forall P : list (R * R),
      exists P', normalizePoints (pts P) = pts P' /\ length P' = length P) /\
  (forall A B : list (R * R),
      nonneg_or_inf (modifiedHausdorffDistance (pts A) (pts B))) /\
  (forall (d : num) (m : option num),
      is_finite d \/ d = PInf -> finite_opt m ->
      distanceToSimilarity d m <> NaN) /\
  (forall (d : num) (m : R),
      nonneg_or_inf d ->
      exists k : Z,
        distanceToSimilarity d (Some (Fin m)) = Fin (IZR k) /\ (0 <= k <= 100)%Z) /\
  (forall l : list R, normalize (map Fin l) = map Fin (minmaxR l)) /\
  (forall seqA seqB : list num, exists v, dtwDistance seqA seqB = Some v) /\
  (forall a b : list R,
      exists v, dtwDistance (map Fin a) (map Fin b) = Some v /\ nonneg_or_inf v) /\
  (forall A B : list (R * R),
      exists k : Z,
        relativeOrderSimilarity (pts A) (pts B) = Some (Fin (IZR k)) /\
        (0 <= k <= 100)%Z) /\
  (forall (s o : R) (w : option Weights),
      finite_weights w -> is_finite (combinedSimilarity (Fin s) (Fin o) w)) /\
  (forall (q : list (R * R)) (routes : list Route) (maxResults : option Z)
          (options : option MatchingOptions),
      match options with Some o => finite_options o | None => True end ->
      Forall finite_route routes ->
      exists results,
        searchRoutes (pts q) routes maxResults options = Some results /\
        Forall (fun entry => is_finite (similarity entry)) results).
Proof.
  split; [apply mean_Fin|].
  split.
  { intros P. exists (normR P). split; [apply normalizePoints_pts|].
    rewrite <- (length_pts (normR P)), <- normalizePoints_pts.
    rewrite normalizePoints_length. apply length_pts. }
  split; [apply modifiedHausdorffDistance_class|].
  split; [apply distanceToSimilarity_defined|].
  split; [intros d m; apply distanceToSimilarity_range|].
  split; [apply normalize_Fin|].
  split; [intros seqA seqB; eexists; apply dtwDistance_is_reference|].
  split; [apply dtwDistance_finite_inputs|].
  split.
  { intros A B. rewrite relativeOrderSimilarity_pts.
    destruct (orderSimilarity_spec_range A B) as (k & -> & Hk).
    exists k; now split. }
  split; [apply combinedSimilarity_finite|].
  apply searchRoutes_total.
Qed.

Lemma core_functions_total_witness :
  distanceToSimilarity (Fin (3 / 10)) (Some (Fin (6 / 10))) <> NaN /\
  exists results,
    searchRoutes (pts [(0, 0)]) [sample_route] None (Some negative_weight_options)
      = Some results /\
    Forall (fun entry => is_finite (similarity entry)) results.
Proof.
  destruct core_functions_total as (_ & _ & _ & Hd & _ & _ & _ & _ & _ & _ & Hs).
  split.
  - apply Hd; [left; eexists; reflexivity|eexists; reflexivity].
  - apply Hs; [exact negative_weight_options_finite|exact sample_route_finite].
Defined.

(** ** The unit tests of [matching.test.ts], replayed on the model *)

Example test_normalize_empty : normalizePoints [] = [].
Proof. reflexivity. Qed.

Example test_normalize_single :
  normalizePoints (pts [(5, 10)]) = pts [(0, 0)].
Proof. reflexivity. Qed.

Example test_mhd_empty :
  modifiedHausdorffDistance [] [] = PInf /\
  modifiedHausdorffDistance (pts [(0, 0)]) [] = PInf /\
  modifiedHausdorffDistance [] (pts [(0, 0)]) = PInf.
Proof. repeat split. Qed.

Example test_mhd_increases :
  modifiedHausdorffDistance (pts [(0, 0)]) (pts [(1 / 10, 0)]) = Fin (1 / 10) /\
  modifiedHausdorffDistance (pts [(0, 0)]) (pts [(5 / 10, 0)]) = Fin (5 / 10).
Proof.
  rewrite !modifiedHausdorffDistance_pts by discriminate.
  unfold mhdR, directedR, nearestR, minR, meanR.
  cbn [map fold_left sumR length INR].
  rewrite !distR_horizontal.
  split; f_equal; eval_reals.
Qed.

Example test_similarity_zero_distance :
  distanceToSimilarity (Fin 0) None = Fin 100.
Proof.
  change (distanceToSimilarity (Fin 0) None)
    with (distanceToSimilarity (Fin 0) (Some (Fin (6 / 10)))).
  rewrite distanceToSimilarity_near by lra. now round_to 100%Z.
Qed.

Example test_similarity_beyond_max :
  distanceToSimilarity (Fin (6 / 10)) None = Fin 0 /\
  distanceToSimilarity (Fin 1) None = Fin 0 /\
  distanceToSimilarity (Fin 10) None = Fin 0.
Proof.
  repeat split;
    match goal with
    | |- distanceToSimilarity ?d None = _ =>
        change (distanceToSimilarity d None)
          with (distanceToSimilarity d (Some (Fin (6 / 10))))
    end;
    apply distanceToSimilarity_far; lra.
Qed.

Example test_similarity_half :
  distanceToSimilarity (Fin (3 / 10)) (Some (Fin (6 / 10))) = Fin 50 /\
  distanceToSimilarity (Fin (25 / 100)) (Some (Fin 1)) = Fin 75.
Proof.
  split; rewrite distanceToSimilarity_near by lra.
  - now round_to 50%Z.
  - now round_to 75%Z.
Qed.

Example test_dtw_empty :
  dtwDistance [] [] = Some PInf /\
  dtwDistance [Fin 1; Fin 2; Fin 3] [] = Some PInf /\
  dtwDistance [] [Fin 1; Fin 2; Fin 3] = Some PInf.
Proof. repeat split. Qed.

Example test_dtw_identical_single :
  dtwDistance [Fin (5 / 10)] [Fin (5 / 10)] = Some (Fin 0).
Proof.
  rewrite dtwDistance_is_reference. unfold dtw_reference.
  cbn [length dtw_table element nth Nat.max INR].
  rewrite sub_Fin. cbn [Math_abs Math_min fold_left min2 lt add].
  rewrite div_Fin by lra. do 2 f_equal.
  replace (5 / 10 - 5 / 10) with 0 by lra. rewrite Rabs_R0. lra.
Qed.

Example test_order_degenerate :
  relativeOrderSimilarity [] [] = Some (Fin 0) /\
  relativeOrderSimilarity (pts [(0, 0)]) [] = Some (Fin 0) /\
  relativeOrderSimilarity (pts [(5 / 10, 5 / 10)]) (pts [(3 / 10, 7 / 10)])
    = Some (Fin 100).
Proof. repeat split. Qed.

Example test_combined_default_weights :
  combinedSimilarity (Fin 100) (Fin 100) None = Fin 100 /\
  combinedSimilarity (Fin 0) (Fin 0) None = Fin 0 /\
  combinedSimilarity (Fin 100) (Fin 0) None = Fin 60 /\
  combinedSimilarity (Fin 0) (Fin 100) None = Fin 40.
Proof.
  unfold combinedSimilarity. cbn [mhd order mul add Math_round].
  repeat split.
  - now round_to 100%Z.
  - now round_to 0%Z.
  - now round_to 60%Z.
  - now round_to 40%Z.
Qed.

Example test_combined_custom_weights :
  combinedSimilarity (Fin 100) (Fin 0)
    (Some {| mhd := Fin (7 / 10); order := Fin (3 / 10) |}) = Fin 70 /\
  combinedSimilarity (Fin 50) (Fin 50)
    (Some {| mhd := Fin (5 / 10); order := Fin (5 / 10) |}) = Fin 50.
Proof.
  rewrite !combinedSimilarity_Fin. split.
  - now round_to 70%Z.
  - now round_to 50%Z.
Qed.

Example test_search_no_routes :
  searchRoutes (pts [(5 / 10, 5 / 10)]) [] None None = Some [].
Proof. reflexivity. Qed.

(* ================================================================= *)
(** * Further properties of the engine *)

(** ** [normalizePoints]: centroid, radius, idempotence *)

Lemma normR_long (P : list (R * R)) :
  (2 <= length P)%nat ->
  normR P = if Req_dec_T (rmsR P) 0 then centeredR P else scaledR P.
Proof.
  destruct P as [|p [|q P]]; cbn [length]; intros H; try lia. reflexivity.
Qed.

Lemma normR_length (P : list (R * R)) : length (normR P) = length P.
Proof.
  rewrite <- (length_pts (normR P)), <- normalizePoints_pts.
  rewrite normalizePoints_length. apply length_pts.
Qed.










Lemma rmsR_zero_coincident (P : list (R * R)) :
  P <> [] -> rmsR P = 0 -> coincident P.
Proof.
  intros Hne E.
  pose proof (centeredR_zero_of_rms Hne E) as Hz.
  exists (meanR (map fst P), meanR (map snd P)).
  unfold centeredR in Hz. rewrite Forall_map in Hz.
  eapply Forall_impl; [|exact Hz]. cbv beta.
  intros [a b]; cbn [fst snd]. intros [= Ha Hb]. f_equal; lra.
Qed.

Lemma mean_sqnorm_centered (P : list (R * R)) :
  meanR (map sqnorm (centeredR P)) = rmsR P * rmsR P.
Proof.
  unfold rmsR. rewrite sqrt_sqrt; [reflexivity|apply meanR_sqnorm_nonneg].
Qed.

Lemma mean_sqnorm_scaled (P : list (R * R)) :
  rmsR P <> 0 -> meanR (map sqnorm (scaledR P)) = 1.
Proof.
  intros Hr. unfold scaledR. rewrite map_map.
  rewrite (map_ext (fun p => sqnorm (fst p / rmsR P, snd p / rmsR P))
                   (fun p => / (rmsR P * rmsR P) * sqnorm p))
    by (intros a; unfold sqnorm; cbn [fst snd]; field; assumption).
  rewrite <- (map_map sqnorm (fun v => / (rmsR P * rmsR P) * v)).
  rewrite meanR_scale, mean_sqnorm_centered. field. assumption.
Qed.

Lemma rms_about_origin_pts (P : list (R * R)) :
  rms_about_origin (pts P) = Fin (sqrt (meanR (map sqnorm P))).
Proof.
  unfold rms_about_origin.
  assert (E : map (fun p : Point => add (mul (x p) (x p)) (mul (y p) (y p))) (pts P)
              = map Fin (map sqnorm P)).
  { unfold pts; rewrite !map_map; reflexivity. }
  rewrite E, mean_Fin. apply Math_sqrt_Fin, meanR_sqnorm_nonneg.
Qed.

(** X2: unless all the points coincide, the normalised points have
    RMS radius 1 about the origin. *)
Theorem normalizePoints_unit_rms (P : list (R * R)) :
  ~ coincident P ->
  rms_about_origin (normalizePoints (pts P)) = Fin 1.
Proof.
  intros Hnc.
  assert (Hlen : (2 <= length P)%nat).
  { destruct P as [|p [|q P]]; cbn [length]; try lia; exfalso; apply Hnc.
    - exists (0, 0). constructor.
    - exists p. repeat constructor. }
  assert (Hr : rmsR P <> 0).
  { intros E. apply Hnc, rmsR_zero_coincident; [|exact E].
    destruct P; [simpl in Hlen; lia|discriminate]. }
  rewrite normalizePoints_pts, rms_about_origin_pts, normR_long by assumption.
  destruct (Req_dec_T (rmsR P) 0); [contradiction|].
  rewrite mean_sqnorm_scaled by assumption. now rewrite sqrt_1.
Qed.

Lemma normalizePoints_unit_rms_witness :
  rms_about_origin (normalizePoints (pts [(0, 0); (4, 0); (2, 2)])) = Fin 1.
Proof.
  apply normalizePoints_unit_rms.
  intros (p & H). inversion H as [|a l Ha Hl]; subst.
  inversion Hl as [|b l' Hb Hl']; subst.
  injection Hb as Hb. lra.
Defined.





(** ** [modifiedHausdorffDistance]: when it vanishes *)

Lemma distR_zero (a b : R * R) : distR a b = 0 -> a = b.
Proof.
  unfold distR. intros E.
  apply sqrt_eq_0 in E; [|apply Rplus_le_le_0_compat; apply Rle_0_sqr].
  destruct a as [a1 a2], b as [b1 b2]; cbn [fst snd] in E.
  destruct (Rplus_sqr_eq_0 (a1 - b1) (a2 - b2) E) as [H1 H2].
  f_equal; lra.
Qed.

Lemma nearestR_zero_iff (B : list (R * R)) (a : R * R) :
  B <> [] -> (nearestR B a = 0 <-> In a B).
Proof.
  intros HB. split.
  - intros E. destruct (nearestR_attained a HB) as (b & Hb & Eb).
    rewrite E in Eb. symmetry in Eb. apply distR_zero in Eb. now subst.
  - intros Hin. apply Rle_antisym; [|apply nearestR_nonneg].
    rewrite <- (distR_refl a). now apply nearestR_le.
Qed.

Lemma meanR_zero_iff (l : list R) :
  Forall (fun v => 0 <= v) l -> (meanR l = 0 <-> Forall (fun v => v = 0) l).
Proof.
  intros Hpos. split.
  - intros E. apply sumR_zero; [assumption|].
    destruct l as [|a l]; [reflexivity|].
    unfold meanR in E.
    apply (Rmult_eq_compat_r (INR (length (a :: l)))) in E.
    unfold Rdiv in E.
    rewrite Rmult_assoc, Rinv_l in E by apply INR_length_cons_neq. lra.
  - intros H. unfold meanR. rewrite (sumR_const H). unfold Rdiv. ring.
Qed.

Lemma directedR_nonneg (A B : list (R * R)) : 0 <= directedR A B.
Proof.
  unfold directedR. apply meanR_nonneg, Forall_map, Forall_forall.
  intros a _. apply nearestR_nonneg.
Qed.

Lemma directedR_zero_iff (A B : list (R * R)) :
  B <> [] -> (directedR A B = 0 <-> forall a, In a A -> In a B).
Proof.
  intros HB. unfold directedR.
  rewrite meanR_zero_iff
    by (apply Forall_map, Forall_forall; intros a _; apply nearestR_nonneg).
  rewrite Forall_map, Forall_forall.
  split; intros H a Ha; apply (nearestR_zero_iff a HB); now apply H.
Qed.

(** X4: on non-empty finite sets the distance is a non-negative real,
    and it is 0 exactly when every point of each set also occurs in
    the other. *)
Theorem modifiedHausdorffDistance_zero_iff (A B : list (R * R)) :
  A <> [] -> B <> [] ->
  (exists d, modifiedHausdorffDistance (pts A) (pts B) = Fin d /\ 0 <= d) /\
  (modifiedHausdorffDistance (pts A) (pts B) = Fin 0 <->
   (forall a, In a A -> In a B) /\ (forall b, In b B -> In b A)).
Proof.
  intros HA HB. rewrite modifiedHausdorffDistance_pts by assumption.
  pose proof (directedR_nonneg A B) as H1.
  pose proof (directedR_nonneg B A) as H2.
  split.
  - eexists; split; [reflexivity|].
    unfold mhdR. eapply Rle_trans; [exact H1|apply Rmax_l].
  - rewrite <- (directedR_zero_iff A HB), <- (directedR_zero_iff B HA).
    unfold mhdR. split.
    + intros [= E].
      pose proof (Rmax_l (directedR A B) (directedR B A)).
      pose proof (Rmax_r (directedR A B) (directedR B A)).
      split; lra.
    + intros [E1 E2]. rewrite E1, E2. f_equal. apply Rmax_left; lra.
Qed.

Lemma modifiedHausdorffDistance_zero_iff_witness :
  modifiedHausdorffDistance (pts [(0, 0); (1, 0)]) (pts [(1, 0); (0, 0); (1, 0)])
  = Fin 0.
Proof.
  apply modifiedHausdorffDistance_zero_iff; try discriminate.
  split; intros a; cbn [In]; intuition.
Defined.

(** ** [distanceToSimilarity]: anchor values and monotonicity *)

Lemma div_lt_1 (d m : R) : 0 <= d < m -> 0 <= d / m < 1.
Proof.
  intros [Hd Hm]. split.
  - apply Rmult_le_pos; [lra|left; apply Rinv_0_lt_compat; lra].
  - apply (Rmult_lt_reg_r m); [lra|].
    unfold Rdiv. rewrite Rmult_assoc, Rinv_l by lra. lra.
Qed.

(** X5: for a positive threshold, distance 0 gives 100, half the
    threshold gives 50, and any distance at or beyond the threshold
    (also [+Infinity]) gives 0. *)
Theorem distanceToSimilarity_anchors (m : R) :
  0 < m ->
  distanceToSimilarity (Fin 0) (Some (Fin m)) = Fin 100 /\
  distanceToSimilarity (Fin (m / 2)) (Some (Fin m)) = Fin 50 /\
  (forall d, m <= d -> distanceToSimilarity (Fin d) (Some (Fin m)) = Fin 0) /\
  distanceToSimilarity PInf (Some (Fin m)) = Fin 0.
Proof.
  intros Hm. split; [|split; [|split]].
  - rewrite distanceToSimilarity_near by lra.
    replace ((1 - 0 / m) * 100) with (IZR 100) by (field; lra).
    now rewrite round_half_up_IZR.
  - rewrite distanceToSimilarity_near by lra.
    replace ((1 - m / 2 / m) * 100) with (IZR 50) by (field; lra).
    now rewrite round_half_up_IZR.
  - intros d Hd. now apply distanceToSimilarity_far.
  - reflexivity.
Qed.

Lemma distanceToSimilarity_anchors_witness :
  distanceToSimilarity (Fin (6 / 10 / 2)) (Some (Fin (6 / 10))) = Fin 50.
Proof.
  destruct (@distanceToSimilarity_anchors (6 / 10)) as (_ & H & _); [lra|exact H].
Defined.

Lemma distanceToSimilarity_value (d m : R) :
  0 <= d ->
  distanceToSimilarity (Fin d) (Some (Fin m)) =
  Fin (IZR (if Rle_dec m d then 0%Z else round_half_up ((1 - d / m) * 100))).
Proof.
  intros Hd. destruct (Rle_dec m d) as [H|H].
  - now apply distanceToSimilarity_far.
  - apply distanceToSimilarity_near. lra.
Qed.

(** X6: for a fixed threshold the similarity never increases with
    the distance. *)
Theorem distanceToSimilarity_monotone (d1 d2 m : R) :
  0 <= d1 <= d2 ->
  exists k1 k2 : Z,
    distanceToSimilarity (Fin d1) (Some (Fin m)) = Fin (IZR k1) /\
    distanceToSimilarity (Fin d2) (Some (Fin m)) = Fin (IZR k2) /\
    (0 <= k2 <= k1)%Z /\ (k1 <= 100)%Z.
Proof.
  intros [H1 H12].
  rewrite !distanceToSimilarity_value by lra.
  do 2 eexists. split; [reflexivity|]. split; [reflexivity|].
  destruct (Rle_dec m d1) as [Hm1|Hm1], (Rle_dec m d2) as [Hm2|Hm2]; try lra.
  - lia.
  - pose proof (@div_lt_1 d1 m ltac:(lra)).
    pose proof (@round_half_up_range ((1 - d1 / m) * 100) 0 100 ltac:(lra)). lia.
  - pose proof (@div_lt_1 d1 m ltac:(lra)) as B1.
    pose proof (@div_lt_1 d2 m ltac:(lra)) as B2.
    assert (Hdiv : d1 / m <= d2 / m).
    { apply Rmult_le_compat_r; [|lra]. left; apply Rinv_0_lt_compat; lra. }
    pose proof (@round_half_up_range ((1 - d1 / m) * 100) 0 100 ltac:(lra)).
    pose proof (@round_half_up_range ((1 - d2 / m) * 100) 0 100 ltac:(lra)).
    pose proof (@round_half_up_le ((1 - d2 / m) * 100) ((1 - d1 / m) * 100) ltac:(lra)).
    lia.
Qed.

Lemma distanceToSimilarity_monotone_witness :
  exists k1 k2 : Z,
    distanceToSimilarity (Fin (1 / 10)) (Some (Fin (6 / 10))) = Fin (IZR k1) /\
    distanceToSimilarity (Fin (5 / 10)) (Some (Fin (6 / 10))) = Fin (IZR k2) /\
    (0 <= k2 <= k1)%Z /\ (k1 <= 100)%Z.
Proof. apply distanceToSimilarity_monotone. lra. Defined.

(** ** [dtwDistance]: symmetry, identical sequences, bounded costs *)

Lemma min2_comm_class (u v : num) :
  nonneg_or_inf u -> nonneg_or_inf v -> min2 u v = min2 v u.
Proof.
  intros [->|(r & -> & _)] [->|(s & -> & _)]; try reflexivity.
  rewrite !min2_Fin. f_equal. apply Rmin_comm.
Qed.

Lemma Math_min3_swap (u v w : num) :
  nonneg_or_inf u -> nonneg_or_inf v ->
  Math_min [u; v; w] = Math_min [v; u; w].
Proof.
  intros Hu Hv. unfold Math_min. cbn [fold_left].
  rewrite (min2_PInf_l Hu), (min2_PInf_l Hv).
  now rewrite (min2_comm_class Hu Hv).
Qed.

Lemma dtw_table_nonneg_or_inf (a b : list R) (i j : nat) :
  (i <= length a)%nat -> (j <= length b)%nat ->
  nonneg_or_inf (dtw_table (map Fin a) (map Fin b) i j).
Proof.
  intros Hi Hj. eapply cell_class_nonneg_or_inf. now apply dtw_table_class.
Qed.

Lemma dtw_table_sym (a b : list R) (i j : nat) :
  (i <= length a)%nat -> (j <= length b)%nat ->
  dtw_table (map Fin a) (map Fin b) i j = dtw_table (map Fin b) (map Fin a) j i.
Proof.
  revert j. induction i as [|i IHi]; intros j Hi Hj.
  - destruct j; reflexivity.
  - induction j as [|j IHj]; [reflexivity|].
    rewrite !dtw_table_step.
    rewrite !element_Fin by lia. rewrite !sub_Fin. cbn [Math_abs].
    rewrite (Rabs_minus_sym (nth i a 0) (nth j b 0)).
    rewrite (IHi (S j)) by lia. rewrite IHj by lia. rewrite (IHi j) by lia.
    f_equal. apply Math_min3_swap; apply dtw_table_nonneg_or_inf; lia.
Qed.

Lemma dtw_reference_sym (a b : list R) :
  dtw_reference (map Fin a) (map Fin b) = dtw_reference (map Fin b) (map Fin a).
Proof.
  destruct a as [|a0 a], b as [|b0 b]; try reflexivity.
  set (LA := a0 :: a). set (LB := b0 :: b).
  change (dtw_reference (map Fin LA) (map Fin LB))
    with (div (dtw_table (map Fin LA) (map Fin LB)
                 (length (map Fin LA)) (length (map Fin LB)))
              (Fin (INR (Nat.max (length (map Fin LA)) (length (map Fin LB)))))).
  change (dtw_reference (map Fin LB) (map Fin LA))
    with (div (dtw_table (map Fin LB) (map Fin LA)
                 (length (map Fin LB)) (length (map Fin LA)))
              (Fin (INR (Nat.max (length (map Fin LB)) (length (map Fin LA)))))).
  rewrite !length_map, dtw_table_sym by lia.
  now rewrite Nat.max_comm.
Qed.

(** X7: the DTW distance of finite sequences is symmetric. *)
Theorem dtwDistance_symmetric (a b : list R) :
  dtwDistance (map Fin a) (map Fin b) = dtwDistance (map Fin b) (map Fin a).
Proof. now rewrite !dtwDistance_is_reference, dtw_reference_sym. Qed.

Lemma Math_min3_zero (u v : num) :
  nonneg_or_inf u -> nonneg_or_inf v -> Math_min [u; v; Fin 0] = Fin 0.
Proof.
  intros Hu Hv. unfold Math_min. cbn [fold_left].
  rewrite (min2_PInf_l Hu).
  destruct (min2_nonneg_or_inf Hu Hv) as [->|(r & -> & Hr)]; [reflexivity|].
  rewrite min2_Fin. f_equal. apply Rmin_right. exact Hr.
Qed.

Lemma dtw_table_diagonal (a : list R) (i : nat) :
  (i <= length a)%nat -> dtw_table (map Fin a) (map Fin a) i i = Fin 0.
Proof.
  induction i as [|i IH]; intros Hi; [reflexivity|].
  rewrite dtw_table_step, IH by lia.
  rewrite Math_min3_zero by (apply dtw_table_nonneg_or_inf; lia).
  rewrite !element_Fin by lia. rewrite sub_Fin. cbn [Math_abs add].
  f_equal. rewrite Rminus_diag, Rabs_R0. lra.
Qed.

Lemma dtw_reference_identical (a : list R) :
  a <> [] -> dtw_reference (map Fin a) (map Fin a) = Fin 0.
Proof.
  destruct a as [|a0 a]; [congruence|intros _].
  set (L := a0 :: a).
  change (dtw_reference (map Fin L) (map Fin L))
    with (div (dtw_table (map Fin L) (map Fin L)
                 (length (map Fin L)) (length (map Fin L)))
              (Fin (INR (Nat.max (length (map Fin L)) (length (map Fin L)))))).
  rewrite !length_map, dtw_table_diagonal by lia.
  rewrite div_Fin.
  - f_equal. unfold Rdiv. ring.
  - apply not_0_INR. subst L. cbn [length]. lia.
Qed.

(** X8: the DTW distance of a non-empty finite sequence to itself
    is 0. *)
Theorem dtwDistance_identical (a : list R) :
  a <> [] -> dtwDistance (map Fin a) (map Fin a) = Some (Fin 0).
Proof.
  intros Ha. now rewrite dtwDistance_is_reference, dtw_reference_identical.
Qed.

Lemma dtwDistance_identical_witness :
  dtwDistance (map Fin [1; 2; 3]) (map Fin [1; 2; 3]) = Some (Fin 0).
Proof. apply dtwDistance_identical. discriminate. Defined.

Lemma min2_fin_le_l (B : R) (u v : num) :
  fin_le B u -> nonneg_or_inf v -> fin_le B (min2 u v).
Proof.
  intros (r & -> & Hr) [->|(s & -> & Hs)].
  - exists r; split; [reflexivity|assumption].
  - exists (Rmin r s); split; [apply min2_Fin|]. split.
    + apply Rmin_glb; lra.
    + eapply Rle_trans; [apply Rmin_l|lra].
Qed.

Lemma min2_fin_le_r (B : R) (u v : num) :
  nonneg_or_inf u -> fin_le B v -> fin_le B (min2 u v).
Proof.
  intros [->|(r & -> & Hr)] (s & -> & Hs).
  - exists s; split; [reflexivity|assumption].
  - exists (Rmin r s); split; [apply min2_Fin|]. split.
    + apply Rmin_glb; lra.
    + eapply Rle_trans; [apply Rmin_r|lra].
Qed.

Lemma fin_le_nonneg_or_inf (B : R) (v : num) : fin_le B v -> nonneg_or_inf v.
Proof. intros (r & -> & Hr). right. exists r; split; [reflexivity|lra]. Qed.

Lemma Math_min3_fin_le (B : R) (u v w : num) :
  nonneg_or_inf u -> nonneg_or_inf v -> nonneg_or_inf w ->
  fin_le B u \/ fin_le B v \/ fin_le B w ->
  fin_le B (Math_min [u; v; w]).
Proof.
  intros Hu Hv Hw H. unfold Math_min. cbn [fold_left].
  rewrite (min2_PInf_l Hu).
  destruct H as [H|[H|H]].
  - apply min2_fin_le_l; [|assumption]. now apply min2_fin_le_l.
  - apply min2_fin_le_l; [|assumption]. now apply min2_fin_le_r.
  - apply min2_fin_le_r; [|assumption]. now apply min2_nonneg_or_inf.
Qed.

Lemma unit_interval_gap (a b : list R) (i j : nat) :
  Forall (fun v => 0 <= v <= 1) a -> Forall (fun v => 0 <= v <= 1) b ->
  (i < length a)%nat -> (j < length b)%nat ->
  0 <= Rabs (nth i a 0 - nth j b 0) <= 1.
Proof.
  intros Ha Hb Hi Hj. rewrite Forall_forall in Ha, Hb.
  pose proof (Ha _ (nth_In a 0 Hi)). pose proof (Hb _ (nth_In b 0 Hj)).
  split; [apply Rabs_pos|]. apply Rabs_le. lra.
Qed.

Lemma dtw_table_bounded (a b : list R) :
  Forall (fun v => 0 <= v <= 1) a -> Forall (fun v => 0 <= v <= 1) b ->
  forall i j : nat,
    (S i <= length a)%nat -> (S j <= length b)%nat ->
    fin_le (INR (Nat.max (S i) (S j)))
           (dtw_table (map Fin a) (map Fin b) (S i) (S j)).
Proof.
  intros Ha Hb. induction i as [|i IHi]; induction j as [|j IHj]; intros Hi Hj;
    rewrite dtw_table_step, !element_Fin, sub_Fin by lia; cbn [Math_abs];
    pose proof (@unit_interval_gap a b _ _ Ha Hb Hi Hj) as Hc.
  - change (Math_min [PInf; PInf; Fin 0]) with (Fin 0). cbn [add].
    eexists; split; [reflexivity|]. cbn [Nat.max INR]. lra.
  - destruct (@Math_min3_fin_le (INR (S j))
                (dtw_table (map Fin a) (map Fin b) 0 (S (S j)))
                (dtw_table (map Fin a) (map Fin b) 1 (S j))
                (dtw_table (map Fin a) (map Fin b) 0 (S j)))
      as (r & -> & Hr); try (apply dtw_table_nonneg_or_inf; lia).
    { right; left. specialize (IHj ltac:(lia) ltac:(lia)).
      now replace (Nat.max 1 (S j)) with (S j) in IHj by lia. }
    cbn [add]. eexists; split; [reflexivity|].
    replace (Nat.max 1 (S (S j))) with (S (S j)) by lia.
    rewrite (S_INR (S j)). lra.
  - destruct (@Math_min3_fin_le (INR (S i))
                (dtw_table (map Fin a) (map Fin b) (S i) 1)
                (dtw_table (map Fin a) (map Fin b) (S (S i)) 0)
                (dtw_table (map Fin a) (map Fin b) (S i) 0))
      as (r & -> & Hr); try (apply dtw_table_nonneg_or_inf; lia).
    { left. specialize (IHi 0%nat ltac:(lia) ltac:(lia)).
      now replace (Nat.max (S i) 1) with (S i) in IHi by lia. }
    cbn [add]. eexists; split; [reflexivity|].
    replace (Nat.max (S (S i)) 1) with (S (S i)) by lia.
    rewrite (S_INR (S i)). lra.
  - destruct (@Math_min3_fin_le (INR (Nat.max (S i) (S j)))
                (dtw_table (map Fin a) (map Fin b) (S i) (S (S j)))
                (dtw_table (map Fin a) (map Fin b) (S (S i)) (S j))
                (dtw_table (map Fin a) (map Fin b) (S i) (S j)))
      as (r & -> & Hr); try (apply dtw_table_nonneg_or_inf; lia).
    { right; right. apply IHi; lia. }
    cbn [add]. eexists; split; [reflexivity|].
    replace (Nat.max (S (S i)) (S (S j))) with (S (Nat.max (S i) (S j))) by lia.
    rewrite (S_INR (Nat.max (S i) (S j))). lra.
Qed.

(** X9: when the values of two non-empty sequences lie in [0,1], as
    min-max normalised values do, their DTW distance lies in [0,1]. *)
Theorem dtwDistance_unit_interval (a b : list R) :
  a <> [] -> b <> [] ->
  Forall (fun v => 0 <= v <= 1) a -> Forall (fun v => 0 <= v <= 1) b ->
  exists d, dtwDistance (map Fin a) (map Fin b) = Some (Fin d) /\ 0 <= d <= 1.
Proof.
  intros HA HB Ha Hb. rewrite dtwDistance_is_reference.
  destruct a as [|a0 a]; [congruence|]. destruct b as [|b0 b]; [congruence|].
  set (LA := a0 :: a) in *. set (LB := b0 :: b) in *.
  change (dtw_reference (map Fin LA) (map Fin LB))
    with (div (dtw_table (map Fin LA) (map Fin LB)
                 (length (map Fin LA)) (length (map Fin LB)))
              (Fin (INR (Nat.max (length (map Fin LA)) (length (map Fin LB)))))).
  rewrite !length_map.
  destruct (@dtw_table_bounded LA LB Ha Hb (length a) (length b))
    as (r & E & Hr); [subst LA; cbn [length]; lia|subst LB; cbn [length]; lia|].
  change (length LA) with (S (length a)). change (length LB) with (S (length b)).
  rewrite E.
  assert (Hpos : 0 < INR (Nat.max (S (length a)) (S (length b))))
    by (apply lt_0_INR; lia).
  rewrite div_Fin by lra. eexists; split; [reflexivity|]. split.
  - apply Rmult_le_pos; [lra|]. left; now apply Rinv_0_lt_compat.
  - apply (Rmult_le_reg_r (INR (Nat.max (S (length a)) (S (length b))))); [assumption|].
    unfold Rdiv. rewrite Rmult_assoc, Rinv_l by lra. lra.
Qed.

Lemma dtwDistance_unit_interval_witness :
  exists d,
    dtwDistance (map Fin [0; 1]) (map Fin [0; 5 / 10; 1]) = Some (Fin d) /\
    0 <= d <= 1.
Proof.
  apply dtwDistance_unit_interval; try discriminate;
    repeat constructor; lra.
Defined.

(** ** [relativeOrderSimilarity]: identical sets, symmetry, invariance *)

Lemma similarity_of_distance_zero : similarity_of_distance (Fin 0) = Fin 100.
Proof.
  rewrite similarity_of_distance_Fin.
  rewrite Rmax_right by lra.
  replace (100 * (1 - 0)) with (IZR 100) by lra.
  now rewrite round_half_up_IZR.
Qed.

Lemma orderSimilarity_spec_identical (P : list (R * R)) :
  P <> [] -> orderSimilarity_spec P P = Fin 100.
Proof.
  intros HP. destruct P as [|p [|q P]]; [congruence|reflexivity|].
  change (orderSimilarity_spec (p :: q :: P) (p :: q :: P))
    with (similarity_of_distance
            (dtw_reference
               (map Fin (minmaxR (orderedProjection (p :: q :: P))))
               (map Fin (minmaxR (orderedProjection (p :: q :: P)))))).
  rewrite dtw_reference_identical; [apply similarity_of_distance_zero|].
  now apply minmax_projection_nonempty.
Qed.

Lemma orderSimilarity_spec_sym (A B : list (R * R)) :
  orderSimilarity_spec A B = orderSimilarity_spec B A.
Proof.
  destruct A as [|a [|a' A]], B as [|b [|b' B]]; try reflexivity;
    cbv beta iota delta [orderSimilarity_spec]; now rewrite dtw_reference_sym.
Qed.

(** X10: a non-empty finite point set has order similarity 100 with
    itself, and the order similarity is symmetric. *)
Theorem relativeOrderSimilarity_identical_symmetric :
  (forall P : list (R * R),
      P <> [] -> relativeOrderSimilarity (pts P) (pts P) = Some (Fin 100)) /\
  (forall A B : list (R * R),
      relativeOrderSimilarity (pts A) (pts B) = relativeOrderSimilarity (pts B) (pts A)).
Proof.
  split.
  - intros P HP. now rewrite relativeOrderSimilarity_pts, orderSimilarity_spec_identical.
  - intros A B. now rewrite !relativeOrderSimilarity_pts, orderSimilarity_spec_sym.
Qed.

Lemma relativeOrderSimilarity_identical_symmetric_witness :
  relativeOrderSimilarity (pts [(1 / 10, 2 / 10); (5 / 10, 1 / 10)])
                          (pts [(1 / 10, 2 / 10); (5 / 10, 1 / 10)])
  = Some (Fin 100).
Proof.
  destruct relativeOrderSimilarity_identical_symmetric as [H _].
  apply H. discriminate.
Defined.

Lemma sort_map_sign (A B : Type) (f : A -> B) (cmpA : A -> A -> num)
    (cmpB : B -> B -> num) (l : list A) :
  (forall a b, lt (cmpB (f a) (f b)) (Fin 0) = lt (cmpA a b) (Fin 0)) ->
  sort cmpB (map f l) = map f (sort cmpA l).
Proof.
  intros H. induction l as [|a l IH]; [reflexivity|].
  cbn [map sort]. rewrite IH. generalize (sort cmpA l) as s.
  induction s as [|b s IHs]; [reflexivity|].
  cbn [map insert]. rewrite H.
  destruct (lt (cmpA b a) (Fin 0)); cbn [map]; [now rewrite IHs|reflexivity].
Qed.

Lemma sort_by_y_transform (s : R) (t : R * R) (P : list (R * R)) :
  0 < s -> sort_by_y (transform s t P) = transform s t (sort_by_y P).
Proof.
  intros Hs. unfold sort_by_y, transform. apply sort_map_sign.
  intros a b. cbn [snd]. unfold lt.
  destruct (Rlt_dec (s * snd a + snd t - (s * snd b + snd t)) 0),
           (Rlt_dec (snd a - snd b) 0); try reflexivity; nra.
Qed.

Lemma fold_Rmin_affine (s t : R) (l : list R) (d : R) :
  0 < s ->
  fold_left Rmin (map (fun v => s * v + t) l) (s * d + t)
  = s * fold_left Rmin l d + t.
Proof.
  intros Hs. revert d. induction l as [|e l IH]; intros d; [reflexivity|].
  cbn [map fold_left].
  replace (Rmin (s * d + t) (s * e + t)) with (s * Rmin d e + t); [apply IH|].
  unfold Rmin. destruct (Rle_dec d e), (Rle_dec (s * d + t) (s * e + t));
    try reflexivity; nra.
Qed.

Lemma fold_Rmax_affine (s t : R) (l : list R) (d : R) :
  0 < s ->
  fold_left Rmax (map (fun v => s * v + t) l) (s * d + t)
  = s * fold_left Rmax l d + t.
Proof.
  intros Hs. revert d. induction l as [|e l IH]; intros d; [reflexivity|].
  cbn [map fold_left].
  replace (Rmax (s * d + t) (s * e + t)) with (s * Rmax d e + t); [apply IH|].
  unfold Rmax. destruct (Rle_dec d e), (Rle_dec (s * d + t) (s * e + t));
    try reflexivity; nra.
Qed.

Lemma minmaxR_affine (s t : R) (l : list R) :
  0 < s -> minmaxR (map (fun v => s * v + t) l) = minmaxR l.
Proof.
  intros Hs. destruct l as [|d l].
  { unfold minmaxR. cbn [map]. destruct (Req_dec_T _ _); reflexivity. }
  assert (Emin : minR (map (fun v => s * v + t) (d :: l)) = s * minR (d :: l) + t)
    by (cbn [map minR]; now apply fold_Rmin_affine).
  assert (Emax : maxR (map (fun v => s * v + t) (d :: l)) = s * maxR (d :: l) + t)
    by (cbn [map maxR]; now apply fold_Rmax_affine).
  unfold minmaxR. rewrite Emin, Emax.
  destruct (Req_dec_T (s * maxR (d :: l) + t) (s * minR (d :: l) + t)) as [E|E],
           (Req_dec_T (maxR (d :: l)) (minR (d :: l))) as [E'|E']; try nra.
  - now rewrite map_map.
  - rewrite map_map. apply map_ext. intros v. field. split; lra.
Qed.

Lemma orderedProjection_transform (s : R) (t : R * R) (P : list (R * R)) :
  0 < s ->
  orderedProjection (transform s t P)
  = map (fun v => s * v + fst t) (orderedProjection P).
Proof.
  intros Hs. unfold orderedProjection.
  rewrite sort_by_y_transform by assumption.
  unfold transform. now rewrite !map_map.
Qed.

Lemma orderSimilarity_spec_general (A B : list (R * R)) :
  A <> [] -> B <> [] -> ~ (length A = 1%nat /\ length B = 1%nat) ->
  orderSimilarity_spec A B =
  similarity_of_distance
    (dtw_reference (map Fin (minmaxR (orderedProjection A)))
                   (map Fin (minmaxR (orderedProjection B)))).
Proof.
  intros HA HB Hone.
  destruct A as [|a [|a' A]], B as [|b [|b' B]]; try congruence; try reflexivity.
  exfalso; apply Hone; split; reflexivity.
Qed.

Lemma transform_length (s : R) (t : R * R) (P : list (R * R)) :
  length (transform s t P) = length P.
Proof. apply length_map. Qed.

Lemma orderSimilarity_spec_transform (s : R) (t : R * R) (A B : list (R * R)) :
  0 < s -> orderSimilarity_spec (transform s t A) B = orderSimilarity_spec A B.
Proof.
  intros Hs.
  destruct A as [|a A]; [reflexivity|].
  destruct B as [|b B]; [destruct A; reflexivity|].
  destruct A as [|a' A], B as [|b' B]; try reflexivity;
    (rewrite !orderSimilarity_spec_general;
     [now rewrite orderedProjection_transform, minmaxR_affine
     |discriminate|discriminate|cbn [length]; lia
     |discriminate|discriminate|cbn [transform map length]; lia]).
Qed.

(** X11: the order similarity does not change when either point set
    is translated and scaled by a positive factor: the function
    normalises its inputs itself. *)
Theorem relativeOrderSimilarity_invariant (s : R) (t : R * R) (A B : list (R * R)) :
  0 < s ->
  relativeOrderSimilarity (pts (transform s t A)) (pts B)
    = relativeOrderSimilarity (pts A) (pts B) /\
  relativeOrderSimilarity (pts A) (pts (transform s t B))
    = relativeOrderSimilarity (pts A) (pts B).
Proof.
  intros Hs. rewrite !relativeOrderSimilarity_pts. split; f_equal.
  - now apply orderSimilarity_spec_transform.
  - rewrite (orderSimilarity_spec_sym A (transform s t B)).
    rewrite orderSimilarity_spec_transform by assumption.
    apply orderSimilarity_spec_sym.
Qed.

Lemma relativeOrderSimilarity_invariant_witness :
  relativeOrderSimilarity (pts (transform 2 (1, 3) [(0, 0); (1, 1); (0, 2)]))
                          (pts [(0, 0); (1, 2)])
  = relativeOrderSimilarity (pts [(0, 0); (1, 1); (0, 2)]) (pts [(0, 0); (1, 2)]).
Proof. apply relativeOrderSimilarity_invariant. lra. Defined.

(** ** [searchRoutes]: invariance, exact matches, sizes, empty queries *)







Lemma distanceToSimilarity_zero (m : R) :
  0 < m -> distanceToSimilarity (Fin 0) (Some (Fin m)) = Fin 100.
Proof.
  intros Hm. rewrite distanceToSimilarity_near by lra.
  replace ((1 - 0 / m) * 100) with (IZR 100) by (field; lra).
  now rewrite round_half_up_IZR.
Qed.

Lemma mhdR_self (A : list (R * R)) : mhdR A A = 0.
Proof. unfold mhdR. rewrite directedR_self. apply Rmax_left; lra. Qed.

Lemma normR_nonempty (q : list (R * R)) : q <> [] -> normR q <> [].
Proof. rewrite !nonempty_length, normR_length. trivial. Qed.

Lemma stored_image_similarity (q : list (R * R)) (image : RouteImage) :
  q <> [] -> stored_for q image ->
  image_similarity (pts q) (normalizePoints (pts q)) (the_options None) image
  = Some (Fin 100).
Proof.
  intros Hq [Hp Hn]. unfold image_similarity. rewrite Hp, Hn.
  rewrite normalizePoints_pts.
  rewrite modifiedHausdorffDistance_pts by now apply normR_nonempty.
  rewrite mhdR_self.
  change (r_maxDistance (the_options None)) with (Fin (6 / 10)).
  rewrite distanceToSimilarity_zero by lra.
  rewrite relativeOrderSimilarity_pts, orderSimilarity_spec_identical by assumption.
  cbn [bind].
  change (r_mhdWeight (the_options None)) with (Fin (6 / 10)).
  change (r_orderWeight (the_options None)) with (Fin (4 / 10)).
  rewrite combinedSimilarity_Fin.
  replace (6 / 10 * 100 + 4 / 10 * 100) with (IZR 100) by lra.
  now rewrite round_half_up_IZR.
Qed.

Lemma image_score_default_range (q : list (R * R)) (image : RouteImage) :
  finite_image image ->
  0 <= image_score (pts q) (the_options None) image <= 100.
Proof.
  intros (Hp & Hn). apply finite_points_pts in Hp, Hn.
  destruct Hp as (P & HP), Hn as (N & HN).
  unfold image_score, image_similarity. rewrite HP, HN.
  rewrite normalizePoints_pts, relativeOrderSimilarity_pts. cbn [bind].
  change (r_maxDistance (the_options None)) with (Fin (6 / 10)).
  change (r_mhdWeight (the_options None)) with (Fin (6 / 10)).
  change (r_orderWeight (the_options None)) with (Fin (4 / 10)).
  destruct (@distanceToSimilarity_range
              (modifiedHausdorffDistance (pts (normR q)) (pts N)) (6 / 10))
    as (k1 & -> & Hk1); [apply modifiedHausdorffDistance_class|].
  destruct (orderSimilarity_spec_range q P) as (k2 & -> & Hk2).
  rewrite combinedSimilarity_Fin. cbn [value real_of].
  assert (B1 : 0 <= IZR k1 <= 100) by (split; apply IZR_le; lia).
  assert (B2 : 0 <= IZR k2 <= 100) by (split; apply IZR_le; lia).
  pose proof (@round_half_up_range (6 / 10 * IZR k1 + 4 / 10 * IZR k2) 0 100
                ltac:(lra)) as [H0 H100].
  split; apply IZR_le; assumption.
Qed.

Lemma fold_Rmax_lub (l : list R) (d c : R) :
  d <= c -> Forall (fun v => v <= c) l -> fold_left Rmax l d <= c.
Proof.
  intros Hd H. revert d Hd. induction H as [|e l He Hl IH]; intros d Hd;
    cbn [fold_left]; [assumption|].
  apply IH. now apply Rmax_lub.
Qed.

Lemma best_score_default_le (q : list (R * R)) (r : Route) :
  finite_route r -> best_score (pts q) (the_options None) r <= 100.
Proof.
  intros Hr. unfold best_score. apply fold_Rmax_lub; [lra|].
  apply Forall_map. eapply Forall_impl; [|exact Hr].
  intros image Hi. now apply image_score_default_range.
Qed.

Lemma best_score_stored (q : list (R * R)) (r : Route) :
  q <> [] -> finite_route r ->
  (exists image, In image (images r) /\ stored_for q image) ->
  best_score (pts q) (the_options None) r = 100.
Proof.
  intros Hq Hr (image & Hin & Hst). apply Rle_antisym.
  - now apply best_score_default_le.
  - replace 100 with (image_score (pts q) (the_options None) image).
    + now apply best_score_upper.
    + unfold image_score. now rewrite stored_image_similarity.
Qed.

Lemma StronglySorted_head (A : Type) (P : A -> A -> Prop) (a b : A) (l : list A) :
  StronglySorted P (a :: l) -> In b (a :: l) -> b = a \/ P a b.
Proof.
  intros Hs [<-|Hin]; [now left|right].
  apply StronglySorted_inv in Hs. destruct Hs as [_ Hall].
  rewrite Forall_forall in Hall. now apply Hall.
Qed.

(** X13: with the default options every score of a finite image
    lies in 0..100, and a route holding an image stored for the
    very marking that is searched has score 100; the first result
    then has score 100. *)
Theorem searchRoutes_exact_match (q : list (R * R)) (routes : list Route)
    (maxResults : option Z) (r : Route) :
  q <> [] -> Forall finite_route routes -> In r routes ->
  (exists image, In image (images r) /\ stored_for q image) ->
  (1 <= the_limit maxResults)%Z ->
  route_entry (pts q) (the_options None) r
    = {| route := r; similarity := Fin 100;
         matchedImageId := best_image_id (pts q) (the_options None) r |} /\
  (forall r', In r' routes -> best_score (pts q) (the_options None) r' <= 100) /\
  exists first rest,
    searchRoutes (pts q) routes maxResults None = Some (first :: rest) /\
    similarity first = Fin 100.
Proof.
  intros Hq Hr Hin Hst Hk.
  rewrite Forall_forall in Hr.
  pose proof (best_score_stored Hq (Hr r Hin) Hst) as Hbest.
  split; [unfold route_entry; now rewrite Hbest|].
  split; [intros r' Hr'; now apply best_score_default_le, Hr|].
  rewrite (@searchRoutes_ranking q routes maxResults None I)
    by now apply Forall_forall.
  pose proof (rank_routes_perm (pts q) (the_options None) routes) as Hperm.
  pose proof (rank_routes_sorted (pts q) (the_options None) routes) as Hsort.
  assert (Hin' : In r (rank_routes (pts q) (the_options None) routes))
    by (apply (Permutation_in _ (Permutation_sym Hperm)); exact Hin).
  destruct (rank_routes (pts q) (the_options None) routes) as [|h ranked]; [destruct Hin'|].
  assert (Hh : best_score (pts q) (the_options None) h = 100).
  { apply Rle_antisym.
    - apply best_score_default_le, Hr.
      apply (Permutation_in _ Hperm). now left.
    - destruct (StronglySorted_head Hsort Hin') as [->|Hle]; [lra|].
      cbv beta in Hle. lra. }
  rewrite slice0_firstn by lia.
  destruct (Z.to_nat (the_limit maxResults)) as [|n] eqn:En; [lia|].
  cbn [map firstn]. do 2 eexists. split; [reflexivity|].
  cbn [route_entry similarity]. now rewrite Hh.
Qed.

Lemma sample_image_stored : stored_for [(0, 0)] sample_image.
Proof. split; reflexivity. Qed.

Lemma searchRoutes_exact_match_witness :
  exists first rest,
    searchRoutes (pts [(0, 0)]) [sample_route] None None = Some (first :: rest) /\
    similarity first = Fin 100.
Proof.
  apply (@searchRoutes_exact_match [(0, 0)] [sample_route] None sample_route).
  - discriminate.
  - exact sample_route_finite.
  - now left.
  - exists sample_image. split; [now left|exact sample_image_stored].
  - simpl. lia.
Defined.

Lemma relativeOrderSimilarity_returns (A B : list Point) :
  exists v, relativeOrderSimilarity A B = Some v.
Proof.
  unfold relativeOrderSimilarity.
  destruct ((length A =? 0)%nat || (length B =? 0)%nat); [eexists; reflexivity|].
  destruct ((length A =? 1)%nat && (length B =? 1)%nat); [eexists; reflexivity|].
  cbv zeta. rewrite dtwDistance_is_reference. cbn [bind].
  match goal with |- context [if ?c then _ else _] => destruct c end;
    eexists; reflexivity.
Qed.

Lemma image_similarity_returns (qp nq : list Point) (opts : RequiredOptions)
    (image : RouteImage) :
  exists v, image_similarity qp nq opts image = Some v.
Proof.
  unfold image_similarity.
  destruct (relativeOrderSimilarity_returns qp (points image)) as (v & ->).
  cbn [bind]. eexists; reflexivity.
Qed.

Lemma best_image_returns (qp nq : list Point) (opts : RequiredOptions)
    (imgs : list RouteImage) :
  forall best, exists b, best_image qp nq opts imgs best = Some b.
Proof.
  induction imgs as [|image rest IH]; intros best; [eexists; reflexivity|].
  cbn [best_image].
  destruct (image_similarity_returns qp nq opts image) as (v & ->). cbn [bind].
  apply IH.
Qed.

Lemma score_routes_returns (qp nq : list Point) (opts : RequiredOptions)
    (routes : list Route) :
  forall results,
  exists out,
    score_routes qp nq opts routes results = Some out /\
    map route out = map route results ++ routes.
Proof.
  induction routes as [|r rest IH]; intros results.
  - exists results. split; [reflexivity|]. now rewrite app_nil_r.
  - cbn [score_routes].
    destruct (best_image_returns qp nq opts (images r) (Fin 0, EmptyString))
      as (b & ->).
    cbn [bind].
    destruct (IH (results ++ [ {| route := r; similarity := fst b;
                                  matchedImageId := snd b |} ]))
      as (out & E & Hout).
    exists out. split; [exact E|].
    rewrite Hout, map_app, <- app_assoc. reflexivity.
Qed.

Lemma slice0_length (A : Type) (l : list A) (k : Z) :
  length (slice0 l k) =
  if (k <? 0)%Z then (length l - Z.to_nat (- k))%nat
  else Nat.min (Z.to_nat k) (length l).
Proof.
  unfold slice0. rewrite length_firstn.
  destruct (Z.ltb_spec k 0); lia.
Qed.

(** X14: on every input, finite or not, [searchRoutes] returns
    without throwing; each result belongs to one of the given
    routes; and the number of results is the smaller of
    [maxResults] and the number of routes (for a negative
    [maxResults], that many routes fewer). *)
Theorem searchRoutes_size (queryPoints : list Point) (routes : list Route)
    (maxResults : option Z) (options : option MatchingOptions) :
  exists results,
    searchRoutes queryPoints routes maxResults options = Some results /\
    (forall entry, In entry results -> In (route entry) routes) /\
    length results =
      if (the_limit maxResults <? 0)%Z
      then (length routes - Z.to_nat (- the_limit maxResults))%nat
      else Nat.min (Z.to_nat (the_limit maxResults)) (length routes).
Proof.
  unfold searchRoutes. fold (the_limit maxResults).
  match goal with
  | |- context [score_routes ?qp ?nq ?o routes []] =>
      destruct (score_routes_returns qp nq o routes []) as (out & -> & Hout)
  end.
  cbn [bind map app] in *.
  eexists. split; [reflexivity|].
  pose proof (sort_perm by_similarity_desc out) as Hperm.
  split.
  - intros entry Hin. apply In_slice0 in Hin.
    apply (Permutation_in _ Hperm) in Hin.
    rewrite <- Hout. now apply in_map.
  - rewrite slice0_length.
    rewrite (Permutation_length Hperm), <- (length_map route out), Hout.
    reflexivity.
Qed.

Lemma sort_constant (routes : list Route) :
  sort by_similarity_desc (map no_match routes) = map no_match routes.
Proof.
  induction routes as [|r rest IH]; [reflexivity|].
  cbn [map sort]. rewrite IH.
  destruct rest as [|r' rest]; [reflexivity|].
  cbn [map insert]. unfold by_similarity_desc, no_match at 1 2.
  cbn [similarity]. rewrite sub_Fin. unfold lt.
  destruct (Rlt_dec (0 - 0) 0); [lra|reflexivity].
Qed.

Lemma empty_query_similarity (opts : RequiredOptions) (image : RouteImage) :
  finite_required opts ->
  image_similarity [] (normalizePoints []) opts image = Some (Fin 0).
Proof.
  intros ((m & Hm) & (w1 & Hw1) & (w2 & Hw2)).
  unfold image_similarity. rewrite Hm, Hw1, Hw2.
  change (normalizePoints []) with (@nil Point).
  change (modifiedHausdorffDistance [] (normalizedPoints image)) with PInf.
  change (relativeOrderSimilarity [] (points image)) with (Some (Fin 0)).
  cbn [bind]. rewrite distanceToSimilarity_PInf, combinedSimilarity_Fin.
  replace (w1 * 0 + w2 * 0) with 0 by ring. now rewrite round_half_up_0.
Qed.

Lemma empty_query_best_image (opts : RequiredOptions) (imgs : list RouteImage) :
  finite_required opts ->
  best_image [] (normalizePoints []) opts imgs (Fin 0, EmptyString)
  = Some (Fin 0, EmptyString).
Proof.
  intros Ho. induction imgs as [|image rest IH]; [reflexivity|].
  cbn [best_image]. rewrite empty_query_similarity by assumption.
  cbn [bind fst]. rewrite gt_Fin.
  destruct (Rlt_dec 0 0); [lra|exact IH].
Qed.

Lemma empty_query_score_routes (opts : RequiredOptions) (routes : list Route) :
  finite_required opts ->
  forall results,
    score_routes [] (normalizePoints []) opts routes results
    = Some (results ++ map no_match routes).
Proof.
  intros Ho. induction routes as [|r rest IH]; intros results.
  - cbn [score_routes map]. now rewrite app_nil_r.
  - cbn [score_routes]. rewrite empty_query_best_image by assumption.
    cbn [bind fst snd]. rewrite IH, <- app_assoc. reflexivity.
Qed.

(** X15: a search with no marked point gives every route score 0
    and no matched image, in the order the routes were given, cut to
    [maxResults].  [App] shows nothing in that case, and otherwise
    shows exactly what [searchRoutes] returns with its defaults. *)
Theorem searchRoutes_empty_query (routes : list Route) (maxResults : option Z)
    (options : option MatchingOptions) :
  match options with Some o => finite_options o | None => True end ->
  searchRoutes [] routes maxResults options
    = Some (slice0 (map no_match routes) (the_limit maxResults)) /\
  App_searchResults [] routes = Some [] /\
  (forall points_ : list Point,
      points_ <> [] ->
      App_searchResults points_ routes = searchRoutes points_ routes None None).
Proof.
  intros Ho. split; [|split].
  - unfold searchRoutes. fold (the_options options). fold (the_limit maxResults).
    rewrite empty_query_score_routes by now apply the_options_finite.
    cbn [bind app]. now rewrite sort_constant.
  - reflexivity.
  - intros points_ Hne. unfold App_searchResults.
    apply nonempty_length, Nat.eqb_neq in Hne. rewrite Hne. cbn [orb].
    destruct routes as [|r rest]; reflexivity.
Qed.

Lemma searchRoutes_empty_query_witness :
  searchRoutes [] [bare_route_1; bare_route_2] None (Some negative_weight_options)
  = Some (slice0 (map no_match [bare_route_1; bare_route_2]) (the_limit None)).
Proof.
  apply (@searchRoutes_empty_query [bare_route_1; bare_route_2] None
           (Some negative_weight_options)).
  exact negative_weight_options_finite.
Defined.

(** ** The earlier [searchRoutes] *)

Lemma legacy_image_similarity (q : list (R * R)) (image : RouteImage) :
  finite_image image ->
  image_similarity (pts q) (normalizePoints (pts q))
    (the_options (Some mhd_only_options)) image
  = Some (Legacy.distanceToSimilarity
            (modifiedHausdorffDistance (normalizePoints (pts q))
               (normalizedPoints image)) None).
Proof.
  intros (Hp & Hn). apply finite_points_pts in Hp, Hn.
  destruct Hp as (P & HP), Hn as (N & HN).
  unfold image_similarity. rewrite HP, HN.
  rewrite normalizePoints_pts, relativeOrderSimilarity_pts. cbn [bind].
  change (r_maxDistance (the_options (Some mhd_only_options))) with (Fin (5 / 10)).
  change (r_mhdWeight (the_options (Some mhd_only_options))) with (Fin 1).
  change (r_orderWeight (the_options (Some mhd_only_options))) with (Fin 0).
  change (Legacy.distanceToSimilarity
            (modifiedHausdorffDistance (pts (normR q)) (pts N)) None)
    with (distanceToSimilarity
            (modifiedHausdorffDistance (pts (normR q)) (pts N)) (Some (Fin (5 / 10)))).
  destruct (@distanceToSimilarity_range
              (modifiedHausdorffDistance (pts (normR q)) (pts N)) (5 / 10))
    as (k1 & -> & _); [apply modifiedHausdorffDistance_class|].
  destruct (orderSimilarity_spec_range q P) as (k2 & -> & _).
  rewrite combinedSimilarity_Fin.
  replace (1 * IZR k1 + 0 * IZR k2) with (IZR k1) by ring.
  now rewrite round_half_up_IZR.
Qed.

Lemma legacy_best_image (q : list (R * R)) (imgs : list RouteImage) :
  Forall finite_image imgs ->
  forall best,
    best_image (pts q) (normalizePoints (pts q))
      (the_options (Some mhd_only_options)) imgs best
    = Some (Legacy.best_image (normalizePoints (pts q)) imgs best).
Proof.
  induction 1 as [|image rest Hi Hrest IH]; intros best; [reflexivity|].
  cbn [best_image Legacy.best_image].
  rewrite legacy_image_similarity by assumption. cbn [bind]. apply IH.
Qed.

Lemma legacy_score_routes (q : list (R * R)) (routes : list Route) :
  Forall finite_route routes ->
  forall results,
    score_routes (pts q) (normalizePoints (pts q))
      (the_options (Some mhd_only_options)) routes results
    = Some (Legacy.score_routes (normalizePoints (pts q)) routes results).
Proof.
  induction 1 as [|r rest Hr Hrest IH]; intros results; [reflexivity|].
  cbn [score_routes Legacy.score_routes].
  rewrite legacy_best_image by assumption. cbn [bind]. apply IH.
Qed.

(** X16: on finite inputs the later [searchRoutes], called with
    threshold 0.5, weight 1 for the MHD similarity and weight 0 for
    the order similarity, returns what the earlier [searchRoutes]
    returned. *)
Theorem searchRoutes_extends_legacy (q : list (R * R)) (routes : list Route)
    (maxResults : option Z) :
  Forall finite_route routes ->
  searchRoutes (pts q) routes maxResults (Some mhd_only_options)
  = Some (Legacy.searchRoutes (pts q) routes maxResults).
Proof.
  intros Hr. unfold searchRoutes, Legacy.searchRoutes.
  fold (the_options (Some mhd_only_options)).
  now rewrite legacy_score_routes.
Qed.

Lemma searchRoutes_extends_legacy_witness :
  searchRoutes (pts [(0, 0); (1, 1)]) [sample_route] None (Some mhd_only_options)
  = Some (Legacy.searchRoutes (pts [(0, 0); (1, 1)]) [sample_route] None).
Proof. apply searchRoutes_extends_legacy. exact sample_route_finite. Defined.

(** ** Route management *)

Lemma new_image_normalized (imageId f : string) (P : list Point) :
  normalized_image {| id := imageId; filename := f; points := P;
                      normalizedPoints := normalizePoints P |}.
Proof. reflexivity. Qed.

(** X17: adding a route, adding an image to a route and deleting a
    route all keep the invariant that every stored image carries the
    normalisation of its own points. *)
Theorem useRoutes_keep_normalized (routes : list Route)
    (cache : UseRoutes.BlobUrlCache) (routeId imageId now name_ : string)
    (points_ : list Point) :
  normalized_routes routes ->
  normalized_routes (snd (fst (UseRoutes.addRoute routes routeId imageId now name_ points_))) /\
  normalized_routes (snd (UseRoutes.addImageToRoute routes imageId routeId points_)) /\
  normalized_routes (snd (fst (UseRoutes.deleteRoute routes cache routeId))).
Proof.
  intros H. unfold normalized_routes in *. split; [|split].
  - cbn [UseRoutes.addRoute fst snd]. apply Forall_app. split; [exact H|].
    repeat constructor.
  - cbn [UseRoutes.addImageToRoute snd]. apply Forall_map.
    eapply Forall_impl; [|exact H]. cbv beta. intros r Hr.
    destruct (String.eqb (route_id r) routeId); [|exact Hr].
    cbn [images]. apply Forall_app. split; [exact Hr|]. repeat constructor.
  - unfold UseRoutes.deleteRoute.
    destruct (find _ routes) as [r|]; [|exact H].
    destruct (UseRoutes.delete_images (images r) cache) as [calls cache'].
    cbn [fst snd]. apply Forall_forall. intros r' Hin.
    apply filter_In in Hin. rewrite Forall_forall in H. now apply H.
Qed.

Lemma useRoutes_keep_normalized_witness :
  normalized_routes
    (snd (fst (UseRoutes.addRoute [bare_route_1] "r" "i" "t" "n" (pts [(0, 0)])))).
Proof.
  apply (@useRoutes_keep_normalized [bare_route_1] [] "r" "i" "t" "n" (pts [(0, 0)])).
  repeat constructor.
Defined.

Lemma stored_image_finite (q : list (R * R)) (imageId f : string) :
  finite_image {| id := imageId; filename := f; points := pts q;
                  normalizedPoints := normalizePoints (pts q) |}.
Proof.
  assert (F : forall P, Forall finite_point (pts P)).
  { intros P. apply Forall_map, Forall_forall. intros p _.
    split; eexists; reflexivity. }
  split; cbn [points normalizedPoints]; [apply F|].
  rewrite normalizePoints_pts. apply F.
Qed.

(** X18: a route created from a marking is found by a search with
    the same marking: with the default options its entry has score
    100 and names the new image, and the first result has score
    100. *)
Theorem addRoute_then_search (q : list (R * R)) (routes : list Route)
    (routeId imageId now name_ : string) (maxResults : option Z) :
  q <> [] -> Forall finite_route routes -> (1 <= the_limit maxResults)%Z ->
  let added := UseRoutes.addRoute routes routeId imageId now name_ (pts q) in
  route_entry (pts q) (the_options None) (snd added)
    = {| route := snd added; similarity := Fin 100; matchedImageId := imageId |} /\
  In (snd added) (snd (fst added)) /\
  exists first rest,
    searchRoutes (pts q) (snd (fst added)) maxResults None = Some (first :: rest) /\
    similarity first = Fin 100.
Proof.
  intros Hq Hr Hk added.
  set (image := {| id := imageId; filename := (imageId ++ ".jpg")%string;
                   points := pts q;
                   normalizedPoints := normalizePoints (pts q) |}).
  set (r := {| route_id := routeId; name := name_; images := [image];
               createdAt := now |}).
  change (snd added) with r. change (snd (fst added)) with (routes ++ [r]).
  assert (Hst : stored_for q image) by (split; reflexivity).
  assert (Hfr : finite_route r).
  { constructor; [apply stored_image_finite|constructor]. }
  assert (Hall : Forall finite_route (routes ++ [r])).
  { apply Forall_app. split; [exact Hr|]. now constructor. }
  assert (Hin : In r (routes ++ [r])) by (apply in_or_app; right; now left).
  assert (Hex : exists i, In i (images r) /\ stored_for q i)
    by (exists image; split; [now left|exact Hst]).
  pose proof (best_score_stored Hq Hfr Hex) as Hbest.
  split; [|split; [exact Hin|]].
  - unfold route_entry, best_image_id. rewrite Hbest.
    destruct (Rlt_dec 0 100); [|lra].
    change (images r) with [image]. cbn [earliest_with].
    assert (Hs : image_score (pts q) (the_options None) image = 100).
    { unfold image_score. now rewrite stored_image_similarity. }
    rewrite Hs. destruct (Req_dec_T 100 100); [reflexivity|contradiction].
  - rewrite (@searchRoutes_ranking q (routes ++ [r]) maxResults None I Hall).
    pose proof (rank_routes_perm (pts q) (the_options None) (routes ++ [r])) as Hperm.
    pose proof (rank_routes_sorted (pts q) (the_options None) (routes ++ [r])) as Hsort.
    assert (Hin' : In r (rank_routes (pts q) (the_options None) (routes ++ [r])))
      by (apply (Permutation_in _ (Permutation_sym Hperm)); exact Hin).
    destruct (rank_routes (pts q) (the_options None) (routes ++ [r]))
      as [|h ranked]; [destruct Hin'|].
    assert (Hh : best_score (pts q) (the_options None) h = 100).
    { apply Rle_antisym.
      - apply best_score_default_le.
        rewrite Forall_forall in Hall. apply Hall.
        apply (Permutation_in _ Hperm). now left.
      - destruct (StronglySorted_head Hsort Hin') as [->|Hle]; [lra|].
        cbv beta in Hle. lra. }
    rewrite slice0_firstn by lia.
    destruct (Z.to_nat (the_limit maxResults)) as [|n] eqn:En; [lia|].
    cbn [map firstn]. do 2 eexists. split; [reflexivity|].
    cbn [route_entry similarity]. now rewrite Hh.
Qed.

Lemma addRoute_then_search_witness :
  route_entry (pts [(1, 2); (3, 4)]) (the_options None)
    (snd (UseRoutes.addRoute [] "r" "i" "t" "n" (pts [(1, 2); (3, 4)])))
  = {| route := snd (UseRoutes.addRoute [] "r" "i" "t" "n" (pts [(1, 2); (3, 4)]));
       similarity := Fin 100; matchedImageId := "i" |}.
Proof.
  apply (@addRoute_then_search [(1, 2); (3, 4)] [] "r" "i" "t" "n" None).
  - discriminate.
  - constructor.
  - simpl. lia.
Defined.

Lemma split_unique_id (routes : list Route) (r : Route) :
  NoDup (map route_id routes) -> In r routes ->
  exists pre post,
    routes = pre ++ r :: post /\
    (forall a, In a pre -> has_id (route_id r) a = false) /\
    (forall a, In a post -> has_id (route_id r) a = false).
Proof.
  intros Hnd Hin. apply in_split in Hin. destruct Hin as (pre & post & ->).
  exists pre, post. split; [reflexivity|].
  rewrite map_app in Hnd. cbn [map] in Hnd.
  apply NoDup_remove_2 in Hnd.
  split; intros a Ha; unfold has_id; apply String.eqb_neq; intros E;
    apply Hnd, in_or_app; [left|right]; rewrite <- E; now apply in_map.
Qed.

Lemma find_split (routes pre post : list Route) (r : Route) (routeId : string) :
  routes = pre ++ r :: post ->
  has_id routeId r = true ->
  (forall a, In a pre -> has_id routeId a = false) ->
  find (fun r0 => String.eqb (route_id r0) routeId) routes = Some r.
Proof.
  intros -> Hr Hpre. induction pre as [|a pre IH]; cbn [app find].
  - unfold has_id in Hr. now rewrite Hr.
  - pose proof (Hpre a (or_introl eq_refl)) as Ha. unfold has_id in Ha.
    rewrite Ha. apply IH. intros b Hb. apply Hpre. now right.
Qed.

Lemma filter_none (routes : list Route) (routeId : string) :
  (forall a, In a routes -> has_id routeId a = false) ->
  filter (fun r0 => negb (String.eqb (route_id r0) routeId)) routes = routes.
Proof.
  intros H. induction routes as [|a routes IH]; [reflexivity|].
  cbn [filter]. pose proof (H a (or_introl eq_refl)) as Ha. unfold has_id in Ha.
  rewrite Ha. cbn [negb]. f_equal. apply IH. intros b Hb. apply H. now right.
Qed.

Lemma filter_split (pre post : list Route) (r : Route) (routeId : string) :
  has_id routeId r = true ->
  (forall a, In a pre -> has_id routeId a = false) ->
  (forall a, In a post -> has_id routeId a = false) ->
  filter (fun r0 => negb (String.eqb (route_id r0) routeId)) (pre ++ r :: post)
  = pre ++ post.
Proof.
  intros Hr Hpre Hpost. rewrite filter_app. cbn [filter].
  unfold has_id in Hr. rewrite Hr. cbn [negb].
  now rewrite !filter_none.
Qed.

Lemma find_none (routes : list Route) (routeId : string) :
  (forall a, In a routes -> has_id routeId a = false) ->
  find (fun r0 => String.eqb (route_id r0) routeId) routes = None.
Proof.
  intros H. induction routes as [|a routes IH]; [reflexivity|].
  cbn [find]. pose proof (H a (or_introl eq_refl)) as Ha. unfold has_id in Ha.
  rewrite Ha. apply IH. intros b Hb. apply H. now right.
Qed.

Lemma cache_get_delete (cache : UseRoutes.BlobUrlCache) (k f : string) :
  UseRoutes.cache_get (UseRoutes.cache_delete cache k) f
  = if String.eqb f k then None else UseRoutes.cache_get cache f.
Proof.
  induction cache as [|[k0 v] cache IH].
  - cbn. now destruct (String.eqb f k).
  - cbn [UseRoutes.cache_delete filter fst].
    fold (UseRoutes.cache_delete cache k).
    destruct (String.eqb k0 k) eqn:E0; cbn [negb UseRoutes.cache_get].
    + rewrite IH. apply String.eqb_eq in E0. subst k0.
      destruct (String.eqb f k) eqn:E1; [reflexivity|].
      rewrite String.eqb_sym, E1. reflexivity.
    + rewrite IH.
      destruct (String.eqb k0 f) eqn:E1; [|reflexivity].
      apply String.eqb_eq in E1. subst k0. now rewrite E0.
Qed.

Lemma uncached_delete (cache : UseRoutes.BlobUrlCache) (k f : string) :
  uncached cache f -> uncached (UseRoutes.cache_delete cache k) f.
Proof.
  unfold uncached. rewrite cache_get_delete.
  now destruct (String.eqb f k).
Qed.

Lemma delete_images_spec (imgs : list RouteImage) (cache : UseRoutes.BlobUrlCache) :
  deleted_files (fst (UseRoutes.delete_images imgs cache)) = map filename imgs /\
  (forall f, uncached cache f ->
             uncached (snd (UseRoutes.delete_images imgs cache)) f) /\
  (forall image, In image imgs ->
                 uncached (snd (UseRoutes.delete_images imgs cache)) (filename image)).
Proof.
  revert cache. induction imgs as [|image rest IH]; intros cache.
  - cbn. repeat split; trivial. intros image [].
  - cbn [UseRoutes.delete_images].
    set (step := match UseRoutes.cache_get cache (filename image) with
                 | Some cachedUrl =>
                     if UseRoutes.truthy cachedUrl
                     then ([UseRoutes.RevokeObjectURL cachedUrl],
                           UseRoutes.cache_delete cache (filename image))
                     else ([], cache)
                 | None => ([], cache)
                 end).
    assert (Hstep : deleted_files (fst step) = [] /\
                    (forall f, uncached cache f -> uncached (snd step) f) /\
                    uncached (snd step) (filename image)).
    { subst step. unfold uncached at 3.
      destruct (UseRoutes.cache_get cache (filename image)) as [u|] eqn:E.
      - destruct (UseRoutes.truthy u) eqn:Hu; cbn [fst snd].
        + repeat split; [intros f; apply uncached_delete|].
          rewrite cache_get_delete, String.eqb_refl. exact I.
        + repeat split; trivial. now rewrite E.
      - cbn [fst snd]. repeat split; trivial. now rewrite E. }
    destruct step as [revoked cache1]. cbn [fst snd] in Hstep.
    destruct Hstep as (Hrev & Hkeep & Hclean).
    destruct (IH cache1) as (Hfiles & Hkeep' & Hclean').
    destruct (UseRoutes.delete_images rest cache1) as [calls cache2].
    cbn [fst snd] in *. split; [|split].
    + unfold deleted_files in *. rewrite flat_map_app, Hrev.
      cbn [flat_map app map]. now rewrite Hfiles.
    + intros f Hf. now apply Hkeep', Hkeep.
    + intros i [<-|Hi]; [now apply Hkeep'|now apply Hclean'].
Qed.

(** [deleteRoute] when every storage call resolves. *)
Lemma useRoutes_deleteRoute (routes : list Route) (cache : UseRoutes.BlobUrlCache) :
  (forall routeId,
      (forall a, In a routes -> route_id a <> routeId) ->
      UseRoutes.deleteRoute routes cache routeId = ([], routes, cache)) /\
  (forall r,
      NoDup (map route_id routes) -> In r routes ->
      exists pre post calls cache',
        routes = pre ++ r :: post /\
        UseRoutes.deleteRoute routes cache (route_id r)
          = (calls ++ [UseRoutes.SaveRoutes (pre ++ post)], pre ++ post, cache') /\
        deleted_files calls = map filename (images r) /\
        (forall image, In image (images r) -> uncached cache' (filename image)) /\
        (forall a, In a (pre ++ post) -> route_id a <> route_id r)).
Proof.
  split.
  - intros routeId Hnone. unfold UseRoutes.deleteRoute.
    rewrite find_none; [reflexivity|].
    intros a Ha. unfold has_id. apply String.eqb_neq. now apply Hnone.
  - intros r Hnd Hin.
    destruct (@split_unique_id routes r Hnd Hin) as (pre & post & E & Hpre & Hpost).
    assert (Hr : has_id (route_id r) r = true) by apply String.eqb_refl.
    destruct (delete_images_spec (images r) cache) as (Hfiles & _ & Hclean).
    exists pre, post, (fst (UseRoutes.delete_images (images r) cache)),
           (snd (UseRoutes.delete_images (images r) cache)).
    split; [exact E|]. split; [|split; [exact Hfiles|split; [exact Hclean|]]].
    + unfold UseRoutes.deleteRoute.
      rewrite (@find_split routes pre post r (route_id r) E Hr Hpre).
      destruct (UseRoutes.delete_images (images r) cache) as [calls cache'].
      cbn [fst snd]. rewrite E, (@filter_split pre post r (route_id r) Hr Hpre Hpost).
      reflexivity.
    + intros a Ha. apply in_app_or in Ha.
      assert (Hf : has_id (route_id r) a = false)
        by (destruct Ha; [now apply Hpre|now apply Hpost]).
      unfold has_id in Hf. now apply String.eqb_neq.
Qed.

(** [addImageToRoute] when every storage call resolves. *)
Lemma useRoutes_addImageToRoute (routes : list Route) (imageId routeId : string)
    (points_ : list Point) :
  let new_image :=
    {| id := imageId; filename := (imageId ++ ".jpg")%string;
       points := points_; normalizedPoints := normalizePoints points_ |} in
  let result := UseRoutes.addImageToRoute routes imageId routeId points_ in
  fst result = [UseRoutes.SaveImage (imageId ++ ".jpg")%string;
                UseRoutes.SaveRoutes (snd result)] /\
  map route_id (snd result) = map route_id routes /\
  map name (snd result) = map name routes /\
  map createdAt (snd result) = map createdAt routes /\
  ((forall a, In a routes -> route_id a <> routeId) -> snd result = routes) /\
  (forall r, NoDup (map route_id routes) -> In r routes -> route_id r = routeId ->
     exists pre post,
       routes = pre ++ r :: post /\
       snd result =
         pre ++ {| route_id := route_id r; name := name r;
                   images := images r ++ [new_image];
                   createdAt := createdAt r |} :: post).
Proof.
  intros new_image result. subst result. cbn [UseRoutes.addImageToRoute fst snd].
  fold new_image.
  assert (Hext : forall l : list Route,
             (forall a, In a l -> has_id routeId a = false) ->
             map (fun route_ =>
                    if String.eqb (route_id route_) routeId
                    then {| route_id := route_id route_; name := name route_;
                            images := images route_ ++ [new_image];
                            createdAt := createdAt route_ |}
                    else route_) l = l).
  { intros l H. rewrite <- (map_id l) at 2. apply map_ext_in.
    intros a Ha. specialize (H a Ha). unfold has_id in H. now rewrite H. }
  split; [reflexivity|].
  repeat split.
  - rewrite map_map. apply map_ext. intros a.
    now destruct (String.eqb (route_id a) routeId).
  - rewrite map_map. apply map_ext. intros a.
    now destruct (String.eqb (route_id a) routeId).
  - rewrite map_map. apply map_ext. intros a.
    now destruct (String.eqb (route_id a) routeId).
  - intros Hnone. apply Hext. intros a Ha. unfold has_id.
    apply String.eqb_neq. now apply Hnone.
  - intros r Hnd Hin <-.
    destruct (@split_unique_id routes r Hnd Hin) as (pre & post & E & Hpre & Hpost).
    exists pre, post. split; [exact E|].
    rewrite E, map_app. cbn [map]. rewrite String.eqb_refl.
    now rewrite !Hext.
Qed.

(** ** Showing a result *)

Lemma earliest_with_find (score : RouteImage -> R) (m : R)
    (imgs : list RouteImage) :
  NoDup (map id imgs) ->
  (exists image, In image imgs /\ score image = m) ->
  exists image,
    In image imgs /\ score image = m /\
    find (fun img => String.eqb (id img) (earliest_with score m imgs)) imgs
    = Some image.
Proof.
  induction imgs as [|a rest IH]; intros Hnd (image & Hin & Hs); [destruct Hin|].
  cbn [earliest_with]. destruct (Req_dec_T (score a) m) as [Ea|Ea].
  - exists a. split; [now left|]. split; [exact Ea|].
    cbn [find]. now rewrite String.eqb_refl.
  - destruct Hin as [->|Hin]; [contradiction|].
    cbn [map] in Hnd. apply NoDup_cons_iff in Hnd. destruct Hnd as [Hna Hnd].
    destruct (IH Hnd) as (i0 & Hi0 & Hs0 & Hf); [now exists image|].
    exists i0. split; [now right|]. split; [exact Hs0|].
    cbn [find].
    destruct (String.eqb (id a) (earliest_with score m rest)) eqn:E; [|exact Hf].
    exfalso. apply String.eqb_eq in E.
    apply find_some in Hf. destruct Hf as [Hin0 Hid].
    apply String.eqb_eq in Hid. apply Hna. rewrite E, <- Hid.
    now apply in_map.
Qed.

Lemma find_no_empty_id (imgs : list RouteImage) :
  (forall image, In image imgs -> id image <> EmptyString) ->
  find (fun img => String.eqb (id img) EmptyString) imgs = None.
Proof.
  intros H. induction imgs as [|a rest IH]; [reflexivity|].
  cbn [find]. destruct (String.eqb (id a) EmptyString) eqn:E.
  - apply String.eqb_eq in E. exfalso. now apply (H a (or_introl eq_refl)).
  - apply IH. intros i Hi. apply H. now right.
Qed.

(** X21: the thumbnail of a search result.  For a result with a
    positive score whose route has distinct image ids, [RouteCard]
    shows an image that attains the score of the route; for a
    result with score 0 (no matched image id) whose route has no
    empty image id, it shows the first image of the route. *)
Theorem routeCard_image (q : list (R * R)) (routes : list Route)
    (maxResults : option Z) (options : option MatchingOptions)
    (results : list SearchResult) (entry : SearchResult) :
  match options with Some o => finite_options o | None => True end ->
  Forall finite_route routes ->
  searchRoutes (pts q) routes maxResults options = Some results ->
  In entry results ->
  exists s,
    similarity entry = Fin s /\ 0 <= s /\
    (0 < s -> NoDup (map id (images (route entry))) ->
     exists image,
       RouteDetail.matchedImage (route entry) (matchedImageId entry) = Some image /\
       In image (images (route entry)) /\
       image_score (pts q) (the_options options) image = s) /\
    (s = 0 ->
     (forall image, In image (images (route entry)) -> id image <> EmptyString) ->
     RouteDetail.matchedImage (route entry) (matchedImageId entry)
     = nth_error (images (route entry)) 0).
Proof.
  intros Ho Hr Hsearch Hin.
  rewrite (searchRoutes_ranking q maxResults options Ho Hr) in Hsearch.
  injection Hsearch as <-.
  apply In_slice0, in_map_iff in Hin. destruct Hin as (r & <- & _).
  set (opts := the_options options).
  exists (best_score (pts q) opts r).
  split; [reflexivity|]. split; [apply best_score_nonneg|].
  cbn [route_entry route matchedImageId]. unfold best_image_id. split.
  - intros Hpos Hnd. destruct (Rlt_dec 0 (best_score (pts q) opts r)); [|lra].
    destruct (best_score_attained (pts q) opts r) as [E|Hatt]; [lra|].
    destruct (@earliest_with_find (image_score (pts q) opts)
                (best_score (pts q) opts r) (images r) Hnd Hatt)
      as (image & Hi & Hs & Hf).
    exists image. unfold RouteDetail.matchedImage. rewrite Hf. now repeat split.
  - intros E Hids. rewrite E. destruct (Rlt_dec 0 0); [lra|].
    unfold RouteDetail.matchedImage. now rewrite find_no_empty_id.
Qed.

Lemma findIndex_from_spec (A : Type) (f : A -> bool) (l : list A) (i : Z) :
  (0 <= i)%Z ->
  match find f l with
  | None => RouteDetail.findIndex_from f l i = (-1)%Z
  | Some a =>
      exists k : nat,
        RouteDetail.findIndex_from f l i = (i + Z.of_nat k)%Z /\
        nth_error l k = Some a /\ (k < length l)%nat
  end.
Proof.
  revert i. induction l as [|b l IH]; intros i Hi; [reflexivity|].
  cbn [find RouteDetail.findIndex_from]. destruct (f b).
  - exists 0%nat. cbn [nth_error length]. repeat split; lia.
  - specialize (IH (i + 1)%Z ltac:(lia)). destruct (find f l) as [a|].
    + destruct IH as (k & E & Hn & Hk). exists (S k).
      cbn [nth_error length]. repeat split; [lia|exact Hn|lia].
    + exact IH.
Qed.

(** X22: in the detail view of a route with at least one image, the
    previous and next buttons keep the index inside the images, wrap
    around at both ends and undo each other, so an image is always
    shown. *)
Theorem routeDetail_navigation (r : Route) (i : Z) :
  (1 <= Z.of_nat (length (images r)))%Z ->
  (0 <= i < Z.of_nat (length (images r)))%Z ->
  (0 <= RouteDetail.handlePrev r i < Z.of_nat (length (images r)))%Z /\
  (0 <= RouteDetail.handleNext r i < Z.of_nat (length (images r)))%Z /\
  RouteDetail.handleNext r (RouteDetail.handlePrev r i) = i /\
  RouteDetail.handlePrev r (RouteDetail.handleNext r i) = i /\
  RouteDetail.handlePrev r 0 = (Z.of_nat (length (images r)) - 1)%Z /\
  RouteDetail.handleNext r (Z.of_nat (length (images r)) - 1) = 0%Z /\
  exists image, RouteDetail.currentImage r i = Some image.
Proof.
  intros Hn Hi. unfold RouteDetail.handlePrev, RouteDetail.handleNext.
  set (n := Z.of_nat (length (images r))) in *.
  rewrite !Z.gtb_ltb.
  do 6 (split;
    [destruct (Z.ltb_spec 0 i), (Z.ltb_spec i (n - 1)); cbv iota;
     repeat match goal with
       | |- context [(?a <? ?b)%Z] => destruct (Z.ltb_spec a b)
       end; lia|]).
  unfold RouteDetail.currentImage.
  destruct (Z.ltb_spec i 0); [lia|].
  destruct (nth_error (images r) (Z.to_nat i)) as [image|] eqn:E;
    [now exists image|].
  apply (proj1 (nth_error_None _ _)) in E. lia.
Qed.

Lemma routeDetail_navigation_witness :
  RouteDetail.handlePrev gallery_route 0 = 2%Z /\
  RouteDetail.handleNext gallery_route 2 = 0%Z /\
  RouteDetail.handleNext gallery_route (RouteDetail.handlePrev gallery_route 0) = 0%Z /\
  RouteDetail.handlePrev gallery_route (RouteDetail.handleNext gallery_route 0) = 0%Z /\
  (0 <= RouteDetail.handleNext gallery_route 0 < 3)%Z /\
  exists image, RouteDetail.currentImage gallery_route 0 = Some image.
Proof.
  destruct (@routeDetail_navigation gallery_route 0)
    as (_ & Hn & Hnp & Hpn & Hwrap & Hwrap' & Himage).
  - simpl; lia.
  - simpl; lia.
  - repeat split; try assumption; apply Hn.
Defined.

(** X23: the detail view opens on an index inside the images of the
    route (0 when there are none), and on the very image the
    thumbnail shows, provided the matched id is not empty or no
    image of the route has an empty id. *)
Theorem routeDetail_opens_on_thumbnail (r : Route) (mid : string) :
  (0 <= RouteDetail.initialIndex r (Some mid))%Z /\
  (RouteDetail.initialIndex r (Some mid)
   < Z.max 1 (Z.of_nat (length (images r))))%Z /\
  RouteDetail.initialIndex r None = 0%Z /\
  (UseRoutes.truthy mid = true \/
   (forall image, In image (images r) -> id image <> EmptyString) ->
   RouteDetail.currentImage r (RouteDetail.initialIndex r (Some mid))
   = RouteDetail.matchedImage r mid).
Proof.
  pose proof (@findIndex_from_spec _ (fun img => String.eqb (id img) mid)
                (images r) 0%Z ltac:(lia)) as Hspec.
  unfold RouteDetail.initialIndex, RouteDetail.matchedImage,
    RouteDetail.currentImage.
  destruct (UseRoutes.truthy mid) eqn:Ht.
  - destruct (find (fun img => String.eqb (id img) mid) (images r)) as [a|].
    + destruct Hspec as (k & -> & Hn & Hk).
      destruct (Z.eqb_spec (0 + Z.of_nat k) (-1)); [lia|].
      repeat split; try lia. intros _.
      destruct (Z.ltb_spec (0 + Z.of_nat k) 0); [lia|].
      replace (Z.to_nat (0 + Z.of_nat k)) with k by lia. exact Hn.
    + rewrite Hspec. cbn. repeat split; try lia.
  - repeat split; try lia. intros [H|H]; [discriminate|].
    assert (mid = EmptyString) by (destruct mid; [reflexivity|discriminate]).
    subst mid. cbn. now rewrite find_no_empty_id.
Qed.

Lemma routeDetail_opens_on_thumbnail_witness :
  RouteDetail.currentImage sample_route
    (RouteDetail.initialIndex sample_route (Some EmptyString))
  = RouteDetail.matchedImage sample_route EmptyString.
Proof.
  apply routeDetail_opens_on_thumbnail. right.
  intros image [<-|[]]. discriminate.
Defined.

(** ** Marking a point *)

(** X24: a click inside an image of positive size appends, after
    the points already marked, one point whose coordinates lie in
    [0,1]; a read-only marker, or one without [onPointsChange],
    changes nothing. *)
Theorem handleClick_spec (l t w h cx cy : R) (points_ : list Point) :
  0 < w -> 0 < h -> l <= cx <= l + w -> t <= cy <= t + h ->
  let rect := {| ImageMarker.rect_left := Fin l; ImageMarker.rect_top := Fin t;
                 ImageMarker.rect_width := Fin w; ImageMarker.rect_height := Fin h |} in
  (exists u v,
      ImageMarker.handleClick false true rect (Fin cx) (Fin cy) points_
        = Some (points_ ++ [pt (u, v)]) /\
      0 <= u <= 1 /\ 0 <= v <= 1) /\
  (forall b, ImageMarker.handleClick true b rect (Fin cx) (Fin cy) points_ = None) /\
  ImageMarker.handleClick false false rect (Fin cx) (Fin cy) points_ = None.
Proof.
  intros Hw Hh Hx Hy rect. split; [|split; [reflexivity|reflexivity]].
  exists ((cx - l) / w), ((cy - t) / h).
  unfold ImageMarker.handleClick, rect. cbn [orb negb ImageMarker.rect_left
    ImageMarker.rect_top ImageMarker.rect_width ImageMarker.rect_height].
  rewrite !sub_Fin, !div_Fin by lra. split; [reflexivity|].
  assert (Hu : 0 <= (cx - l) / w <= 1).
  { split.
    - apply Rmult_le_pos; [lra|left; now apply Rinv_0_lt_compat].
    - apply (Rmult_le_reg_r w); [assumption|].
      unfold Rdiv. rewrite Rmult_assoc, Rinv_l by lra. lra. }
  assert (Hv : 0 <= (cy - t) / h <= 1).
  { split.
    - apply Rmult_le_pos; [lra|left; now apply Rinv_0_lt_compat].
    - apply (Rmult_le_reg_r h); [assumption|].
      unfold Rdiv. rewrite Rmult_assoc, Rinv_l by lra. lra. }
  split; assumption.
Qed.

Lemma handleClick_spec_witness :
  exists u v,
    ImageMarker.handleClick false true
      {| ImageMarker.rect_left := Fin 10; ImageMarker.rect_top := Fin 20;
         ImageMarker.rect_width := Fin 100; ImageMarker.rect_height := Fin 50 |}
      (Fin 60) (Fin 30) []
    = Some ([] ++ [pt (u, v)]) /\
    0 <= u <= 1 /\ 0 <= v <= 1.
Proof.
  apply (@handleClick_spec 10 20 100 50 60 30 []); lra.
Defined.

(** ** The prototype of the order similarity *)

Lemma normalizeSeq_Fin (l : list R) :
  Script.normalizeSeq (map Fin l) = map Fin (minmaxR l).
Proof.
  destruct l as [|a l].
  { unfold minmaxR. destruct (Req_dec_T _ _); reflexivity. }
  set (L := a :: l). unfold Script.normalizeSeq, minmaxR.
  rewrite Math_min_Fin, Math_max_Fin by discriminate.
  rewrite sub_Fin. unfold strict_eq.
  destruct (Req_dec_T (maxR L - minR L) 0) as [E|E],
           (Req_dec_T (maxR L) (minR L)) as [E'|E']; try lra; rewrite !map_map.
  - reflexivity.
  - apply map_ext; intros v. rewrite !sub_Fin, div_Fin; [reflexivity|lra].
Qed.

(** X25: on finite point sets with at least two points each, the
    prototype of the order similarity in the test script and the
    library function return the same value; with fewer than two
    points on either side the prototype returns 0, also for one
    point against one, where the library returns 100. *)
Theorem script_relativeOrderSimilarity (A B : list (R * R)) :
  ((2 <= length A)%nat -> (2 <= length B)%nat ->
   Script.relativeOrderSimilarity (pts A) (pts B)
   = relativeOrderSimilarity (pts A) (pts B)) /\
  ((length A < 2)%nat \/ (length B < 2)%nat ->
   Script.relativeOrderSimilarity (pts A) (pts B) = Some (Fin 0)) /\
  (length A = 1%nat -> length B = 1%nat ->
   relativeOrderSimilarity (pts A) (pts B) = Some (Fin 100)).
Proof.
  split; [|split].
  - intros HA HB.
    rewrite relativeOrderSimilarity_pts.
    rewrite orderSimilarity_spec_general
      by (try (intros [? ?]; lia); destruct A, B; simpl in *; try lia; discriminate).
    unfold Script.relativeOrderSimilarity. rewrite !length_pts.
    destruct (Nat.ltb_spec (length A) 2); [lia|].
    destruct (Nat.ltb_spec (length B) 2); [lia|]. cbn [orb]. cbv zeta.
    unfold Script.getOrderedXSequence.
    rewrite !sort_by_y_pts, !map_x_pts, !normalizeSeq_Fin.
    fold (orderedProjection A). fold (orderedProjection B).
    rewrite dtwDistance_is_reference. cbn [bind].
    destruct (@dtw_reference_finite (minmaxR (orderedProjection A))
                (minmaxR (orderedProjection B))) as (d & -> & Hd).
    + apply minmax_projection_nonempty. destruct A; [simpl in HA; lia|discriminate].
    + apply minmax_projection_nonempty. destruct B; [simpl in HB; lia|discriminate].
    + rewrite similarity_of_distance_Fin, sub_Fin, Math_max_pair.
      cbn [mul Math_round]. do 4 f_equal. ring.
  - intros H. unfold Script.relativeOrderSimilarity. rewrite !length_pts.
    destruct H as [H|H].
    + destruct (Nat.ltb_spec (length A) 2); [reflexivity|lia].
    + destruct (Nat.ltb_spec (length B) 2); [|lia].
      now rewrite orb_true_r.
  - intros HA HB. rewrite relativeOrderSimilarity_pts.
    destruct A as [|a [|a' A]], B as [|b [|b' B]]; try discriminate. reflexivity.
Qed.

Lemma script_relativeOrderSimilarity_witness :
  Script.relativeOrderSimilarity (pts [(0, 0); (1, 1)]) (pts [(0, 0); (1, 2); (0, 3)])
  = relativeOrderSimilarity (pts [(0, 0); (1, 1)]) (pts [(0, 0); (1, 2); (0, 3)]).
Proof. apply script_relativeOrderSimilarity; simpl; lia. Defined.

(** ** The sample routes *)

Lemma stored_image_stored (imageId : string) (q : list (R * R)) :
  stored_for q (stored_image imageId q).
Proof. split; reflexivity. Qed.

Lemma stored_image_score (q : list (R * R)) (image : RouteImage) :
  q <> [] -> stored_for q image ->
  image_score (pts q) (the_options None) image = 100.
Proof.
  intros Hq Hs. unfold image_score.
  now rewrite (stored_image_similarity Hq Hs).
Qed.

Lemma empty_query_score (opts : RequiredOptions) (image : RouteImage) :
  finite_required opts -> image_score [] opts image = 0.
Proof.
  intros Ho. unfold image_score. now rewrite empty_query_similarity.
Qed.

Lemma tied_route_finite : finite_route tied_route.
Proof.
  unfold finite_route, tied_route. cbn [images].
  constructor; [apply stored_image_finite|].
  constructor; [apply stored_image_finite|constructor].
Qed.

Lemma tied_route_entry :
  route_entry (pts sample_marking) (the_options None) tied_route
  = {| route := tied_route; similarity := Fin 100; matchedImageId := "a" |}.
Proof.
  assert (Hq : sample_marking <> []) by discriminate.
  assert (Ha : image_score (pts sample_marking) (the_options None)
                 (stored_image "a" sample_marking) = 100)
    by (apply stored_image_score; [exact Hq|apply stored_image_stored]).
  assert (Hb : image_score (pts sample_marking) (the_options None)
                 (stored_image "b" sample_marking) = 100)
    by (apply stored_image_score; [exact Hq|apply stored_image_stored]).
  rewrite (@route_entry_earliest (pts sample_marking) (the_options None) tied_route
             [] [stored_image "b" sample_marking] (stored_image "a" sample_marking)).
  - now rewrite Ha.
  - reflexivity.
  - rewrite Ha; lra.
  - intros i [].
  - intros i [<-|[]]. rewrite Ha, Hb; lra.
Qed.

Lemma tied_search_result :
  searchRoutes (pts sample_marking) [tied_route] None None
  = Some [ {| route := tied_route; similarity := Fin 100; matchedImageId := "a" |} ].
Proof.
  rewrite (@searchRoutes_ranking sample_marking [tied_route] None None I
             (Forall_cons _ tied_route_finite (Forall_nil _))).
  unfold rank_routes. cbn [sort insert map].
  now rewrite tied_route_entry.
Qed.

Lemma searchRoutes_zero_score_witness :
  route_entry (pts []) (the_options None) tied_route
  = {| route := tied_route; similarity := Fin 0; matchedImageId := EmptyString |} /\
  (exists results,
      searchRoutes (pts []) [bare_route_1; tied_route] (Some 2%Z) None = Some results /\
      In (route_entry (pts []) (the_options None) tied_route) results) /\
  route_entry (pts sample_marking) (the_options None) tied_route
  = {| route := tied_route;
       similarity := Fin (image_score (pts sample_marking) (the_options None)
                            (stored_image "a" sample_marking));
       matchedImageId := "a" |}.
Proof.
  assert (Hf : Forall finite_route [bare_route_1; tied_route]).
  { constructor; [constructor|]. constructor; [exact tied_route_finite|constructor]. }
  assert (Hs : forall imageId,
             image_score (pts sample_marking) (the_options None)
               (stored_image imageId sample_marking) = 100).
  { intros imageId. apply stored_image_score;
      [discriminate|apply stored_image_stored]. }
  destruct (@searchRoutes_zero_score [] [bare_route_1; tied_route] (Some 2%Z) None
              tied_route I Hf (or_intror (or_introl eq_refl)))
    as (_ & Hreturned & Hzero & _).
  destruct (@searchRoutes_zero_score sample_marking [bare_route_1; tied_route]
              (Some 2%Z) None tied_route I Hf (or_intror (or_introl eq_refl)))
    as (_ & _ & _ & Htie).
  split; [|split].
  - apply Hzero. intros image _.
    change (pts []) with (@nil Point).
    rewrite empty_query_score; [lra|now apply the_options_finite].
  - apply Hreturned. simpl; lia.
  - apply (Htie [] [stored_image "b" sample_marking]).
    + reflexivity.
    + rewrite Hs; lra.
    + intros i [].
    + intros i [<-|[]]. rewrite !Hs; lra.
Defined.

Lemma tied_empty_search :
  searchRoutes (pts []) [tied_route] None None = Some [ no_match tied_route ].
Proof.
  rewrite (@searchRoutes_ranking [] [tied_route] None None I
             (Forall_cons _ tied_route_finite (Forall_nil _))).
  unfold rank_routes. cbn [sort insert map].
  rewrite route_entry_zero; [reflexivity|].
  intros image _. change (pts []) with (@nil Point).
  rewrite empty_query_score; [lra|now apply the_options_finite].
Qed.

Lemma routeCard_image_witness :
  (exists image,
      RouteDetail.matchedImage tied_route "a" = Some image /\
      In image (images tied_route) /\
      image_score (pts sample_marking) (the_options None) image = 100) /\
  RouteDetail.matchedImage tied_route EmptyString = nth_error (images tied_route) 0.
Proof.
  assert (Hf : Forall finite_route [tied_route])
    by (constructor; [exact tied_route_finite|constructor]).
  split.
  - destruct (@routeCard_image sample_marking [tied_route] None None
                [ {| route := tied_route; similarity := Fin 100;
                     matchedImageId := "a" |} ]
                {| route := tied_route; similarity := Fin 100;
                   matchedImageId := "a" |}
                I Hf tied_search_result (or_introl eq_refl))
      as (s & E & _ & Hpositive & _).
    cbn [similarity route matchedImageId] in E, Hpositive.
    injection E as <-. apply Hpositive; [lra|].
    repeat constructor; cbn; intuition discriminate.
  - destruct (@routeCard_image [] [tied_route] None None
                [ no_match tied_route ] (no_match tied_route)
                I Hf tied_empty_search (or_introl eq_refl))
      as (s & E & _ & _ & Hzero).
    cbn [no_match similarity route matchedImageId] in E, Hzero.
    injection E as <-. apply Hzero; [reflexivity|].
    intros image [<-|[<-|[]]]; discriminate.
Defined.

(** ** The callbacks of [useRoutes] over a storage layer that can fail *)

Lemma fallible_reliable (routes : list Route) (cache : UseRoutes.BlobUrlCache)
    (routeId imageId now name_ : string) (points_ : list Point) :
  (let '(calls, updated, newRoute) :=
     UseRoutes.addRoute routes routeId imageId now name_ points_ in
   Fallible.addRoute Fallible.reliable routes routeId imageId now name_ points_
   = Fallible.mkOutcome calls updated (Some newRoute)) /\
  (let '(calls, updated) :=
     UseRoutes.addImageToRoute routes imageId routeId points_ in
   Fallible.addImageToRoute Fallible.reliable routes imageId routeId points_
   = Fallible.mkOutcome calls updated (Some tt)).
Proof. split; reflexivity. Qed.

Lemma fallible_delete_images (storage : Fallible.Storage)
    (imgs : list RouteImage) (cache : UseRoutes.BlobUrlCache) :
  (snd (Fallible.delete_images storage imgs cache) = true ->
   fst (Fallible.delete_images storage imgs cache)
   = UseRoutes.delete_images imgs cache) /\
  (snd (Fallible.delete_images storage imgs cache) = false ->
   exists calls image,
     fst (fst (Fallible.delete_images storage imgs cache))
     = calls ++ [UseRoutes.DeleteImage (filename image)] /\
     In image imgs /\
     storage (UseRoutes.DeleteImage (filename image)) = false) /\
  ((forall image, In image imgs ->
      storage (UseRoutes.DeleteImage (filename image)) = true) ->
   snd (Fallible.delete_images storage imgs cache) = true).
Proof.
  revert cache. induction imgs as [|image rest IH]; intros cache.
  - cbn. repeat split; trivial. discriminate.
  - cbn [Fallible.delete_images UseRoutes.delete_images].
    set (step := match UseRoutes.cache_get cache (filename image) with
                 | Some cachedUrl =>
                     if UseRoutes.truthy cachedUrl
                     then ([UseRoutes.RevokeObjectURL cachedUrl],
                           UseRoutes.cache_delete cache (filename image))
                     else ([], cache)
                 | None => ([], cache)
                 end).
    destruct step as [revoked cache1].
    destruct (storage (UseRoutes.DeleteImage (filename image))) eqn:Es.
    + destruct (IH cache1) as (Hok & Hfail & Hall).
      destruct (Fallible.delete_images storage rest cache1) as [[calls cache2] ok].
      destruct (UseRoutes.delete_images rest cache1) as [calls' cache2'].
      cbn [fst snd] in *. split; [|split].
      * intros E. specialize (Hok E). now injection Hok as -> ->.
      * intros E. destruct (Hfail E) as (calls0 & i & -> & Hi & Hs).
        exists (revoked ++ UseRoutes.DeleteImage (filename image) :: calls0), i.
        split; [now rewrite <- app_assoc|]. split; [now right|exact Hs].
      * intros H. apply Hall. intros i Hi. apply H. now right.
    + cbn [fst snd]. split; [discriminate|]. split.
      * intros _. exists revoked, image. repeat split; trivial. now left.
      * intros H. rewrite H in Es by now left. discriminate.
Qed.

(** X19: [deleteRoute] over a storage layer that can fail.  An id
    that no route has: no storage call, nothing changes.  The id of
    a route, ids being distinct: when the promise resolves, that
    route and no other is removed, the order of the rest is kept,
    exactly the image files of the route were deleted, in order, no
    usable cached URL is left for them, and the last call saved the
    new list; when it rejects, the routes are unchanged and the last
    call made is the rejected one, the deletion of one of the
    route's files or the saving of the list; and it resolves when
    the storage accepts the deletions and the saving. *)
Theorem deleteRoute_spec (storage : Fallible.Storage) (routes : list Route)
    (cache : UseRoutes.BlobUrlCache) :
  (forall routeId,
      (forall a, In a routes -> route_id a <> routeId) ->
      Fallible.deleteRoute storage routes cache routeId
      = (Fallible.mkOutcome [] routes (Some tt), cache)) /\
  (forall r,
      NoDup (map route_id routes) -> In r routes ->
      let run := fst (Fallible.deleteRoute storage routes cache (route_id r)) in
      let cache' := snd (Fallible.deleteRoute storage routes cache (route_id r)) in
      exists pre post,
        routes = pre ++ r :: post /\
        (forall a, In a (pre ++ post) -> route_id a <> route_id r) /\
        (Fallible.result run = Some tt ->
         Fallible.state run = pre ++ post /\
         exists calls,
           Fallible.issued run = calls ++ [UseRoutes.SaveRoutes (pre ++ post)] /\
           deleted_files calls = map filename (images r) /\
           (forall image, In image (images r) -> uncached cache' (filename image))) /\
        (Fallible.result run = None ->
         Fallible.state run = routes /\
         exists calls c,
           Fallible.issued run = calls ++ [c] /\
           storage c = false /\
           (c = UseRoutes.SaveRoutes (pre ++ post) \/
            exists image, In image (images r) /\
                          c = UseRoutes.DeleteImage (filename image))) /\
        ((forall image, In image (images r) ->
            storage (UseRoutes.DeleteImage (filename image)) = true) ->
         storage (UseRoutes.SaveRoutes (pre ++ post)) = true ->
         Fallible.result run = Some tt)).
Proof.
  split.
  - intros routeId Hnone. unfold Fallible.deleteRoute.
    rewrite find_none; [reflexivity|].
    intros a Ha. unfold has_id. apply String.eqb_neq. now apply Hnone.
  - intros r Hnd Hin run cache'.
    destruct (@split_unique_id routes r Hnd Hin) as (pre & post & E & Hpre & Hpost).
    assert (Hr : has_id (route_id r) r = true) by apply String.eqb_refl.
    exists pre, post. split; [exact E|]. split.
    { intros a Ha. apply in_app_or in Ha.
      assert (Hf : has_id (route_id r) a = false)
        by (destruct Ha; [now apply Hpre|now apply Hpost]).
      unfold has_id in Hf. now apply String.eqb_neq. }
    destruct (fallible_delete_images storage (images r) cache) as (Hok & Hfail & Hall).
    destruct (delete_images_spec (images r) cache) as (Hfiles & _ & Hclean).
    subst run cache'. unfold Fallible.deleteRoute.
    rewrite (@find_split routes pre post r (route_id r) E Hr Hpre).
    replace (filter (fun r0 => negb (String.eqb (route_id r0) (route_id r))) routes)
      with (pre ++ post)
      by (rewrite E; symmetry; exact (@filter_split pre post r (route_id r) Hr Hpre Hpost)).
    destruct (Fallible.delete_images storage (images r) cache) as [[calls c'] ok].
    cbn [fst snd] in Hok, Hfail, Hall. destruct ok.
    + rewrite <- (Hok eq_refl) in Hfiles, Hclean. cbn [fst snd] in Hfiles, Hclean.
      destruct (storage (UseRoutes.SaveRoutes (pre ++ post))) eqn:Es;
        cbn [fst snd Fallible.result Fallible.state Fallible.issued].
      * split; [|split; [discriminate|reflexivity]].
        intros _. split; [reflexivity|]. exists calls. now repeat split.
      * split; [discriminate|]. split; [|intros _ H; discriminate H].
        intros _. split; [reflexivity|].
        exists calls, (UseRoutes.SaveRoutes (pre ++ post)).
        split; [reflexivity|]. split; [exact Es|now left].
    + cbn [fst snd Fallible.result Fallible.state Fallible.issued].
      destruct (Hfail eq_refl) as (calls0 & image & -> & Hi & Hs).
      split; [discriminate|]. split.
      * intros _. split; [reflexivity|].
        exists calls0, (UseRoutes.DeleteImage (filename image)).
        split; [reflexivity|]. split; [exact Hs|]. right. now exists image.
      * intros Hd _. specialize (Hall Hd). discriminate Hall.
Qed.

Lemma deleteRoute_spec_witness :
  (exists pre post,
      [bare_route_1; tied_route] = pre ++ tied_route :: post /\
      Fallible.state
        (fst (Fallible.deleteRoute Fallible.reliable [bare_route_1; tied_route]
                sample_cache "tied")) = pre ++ post /\
      exists calls,
        Fallible.issued
          (fst (Fallible.deleteRoute Fallible.reliable [bare_route_1; tied_route]
                  sample_cache "tied"))
        = calls ++ [UseRoutes.SaveRoutes (pre ++ post)] /\
        deleted_files calls = ["a.jpg"; "b.jpg"]%string /\
        (forall image, In image (images tied_route) ->
           uncached
             (snd (Fallible.deleteRoute Fallible.reliable [bare_route_1; tied_route]
                     sample_cache "tied"))
             (filename image))) /\
  Fallible.state
    (fst (Fallible.deleteRoute keeps_b [bare_route_1; tied_route]
            sample_cache "tied")) = [bare_route_1; tied_route].
Proof.
  assert (Hnd : NoDup (map route_id [bare_route_1; tied_route]))
    by (repeat constructor; cbn; intuition discriminate).
  assert (Hin : In tied_route [bare_route_1; tied_route]) by (right; now left).
  split.
  - destruct (deleteRoute_spec Fallible.reliable [bare_route_1; tied_route]
                sample_cache) as [_ H].
    destruct (H tied_route Hnd Hin) as (pre & post & E & _ & Hresolved & _ & _).
    exists pre, post. split; [exact E|].
    apply Hresolved. reflexivity.
  - destruct (deleteRoute_spec keeps_b [bare_route_1; tied_route] sample_cache)
      as [_ H].
    destruct (H tied_route Hnd Hin) as (pre & post & _ & _ & _ & Hrejected & _).
    apply Hrejected. reflexivity.
Defined.

(** X20: [addImageToRoute] over a storage layer that can fail.  It
    first saves the file [<imageId>.jpg]; if that is rejected
    nothing else is done.  Otherwise it saves the new list of
    routes, and the state becomes the new list only if that call
    resolves; in both rejected cases the routes are unchanged.  The
    new list keeps the routes, their order, ids, names and time
    stamps; it is the old list when no route has the given id (the
    file is stored all the same); and a route whose id is unique
    gains exactly the new image, after its other images. *)
Theorem addImageToRoute_spec (storage : Fallible.Storage) (routes : list Route)
    (imageId routeId : string) (points_ : list Point) :
  let filename_ := (imageId ++ ".jpg")%string in
  let new_image :=
    {| id := imageId; filename := filename_;
       points := points_; normalizedPoints := normalizePoints points_ |} in
  let run := Fallible.addImageToRoute storage routes imageId routeId points_ in
  exists updated,
    (map route_id updated = map route_id routes /\
     map name updated = map name routes /\
     map createdAt updated = map createdAt routes) /\
    ((forall a, In a routes -> route_id a <> routeId) -> updated = routes) /\
    (forall r, NoDup (map route_id routes) -> In r routes -> route_id r = routeId ->
       exists pre post,
         routes = pre ++ r :: post /\
         updated =
           pre ++ {| route_id := route_id r; name := name r;
                     images := images r ++ [new_image];
                     createdAt := createdAt r |} :: post) /\
    (storage (UseRoutes.SaveImage filename_) = false ->
     run = Fallible.mkOutcome [UseRoutes.SaveImage filename_] routes None) /\
    (storage (UseRoutes.SaveImage filename_) = true ->
     storage (UseRoutes.SaveRoutes updated) = false ->
     run = Fallible.mkOutcome
             [UseRoutes.SaveImage filename_; UseRoutes.SaveRoutes updated]
             routes None) /\
    (storage (UseRoutes.SaveImage filename_) = true ->
     storage (UseRoutes.SaveRoutes updated) = true ->
     run = Fallible.mkOutcome
             [UseRoutes.SaveImage filename_; UseRoutes.SaveRoutes updated]
             updated (Some tt)).
Proof.
  intros filename_ new_image run.
  destruct (@useRoutes_addImageToRoute routes imageId routeId points_)
    as (_ & Hid & Hname & Htime & Hnone & Hgain).
  exists (snd (UseRoutes.addImageToRoute routes imageId routeId points_)).
  split; [now repeat split|]. split; [exact Hnone|]. split; [exact Hgain|].
  subst run filename_. unfold Fallible.addImageToRoute.
  cbn [UseRoutes.addImageToRoute snd].
  destruct (storage (UseRoutes.SaveImage (imageId ++ ".jpg")%string)) eqn:E1.
  - match goal with
    | |- context [storage (UseRoutes.SaveRoutes ?u)] =>
        destruct (storage (UseRoutes.SaveRoutes u)) eqn:E2
    end; repeat split; intros; try reflexivity; discriminate.
  - repeat split; intros; try reflexivity; discriminate.
Qed.

Lemma addImageToRoute_spec_witness :
  (exists pre post,
      [bare_route_1; sample_route] = pre ++ sample_route :: post /\
      Fallible.state
        (Fallible.addImageToRoute Fallible.reliable [bare_route_1; sample_route]
           "new" "r" (pts sample_marking))
      = pre ++ {| route_id := "r"; name := "r";
                  images := [sample_image; stored_image "new" sample_marking];
                  createdAt := "t" |} :: post /\
      Fallible.result
        (Fallible.addImageToRoute Fallible.reliable [bare_route_1; sample_route]
           "new" "r" (pts sample_marking))
      = Some tt) /\
  Fallible.state
    (Fallible.addImageToRoute read_only_list [bare_route_1; sample_route]
       "new" "r" (pts sample_marking))
  = [bare_route_1; sample_route].
Proof.
  split.
  - destruct (@addImageToRoute_spec Fallible.reliable [bare_route_1; sample_route]
                "new" "r" (pts sample_marking))
      as (updated & _ & _ & Hgain & _ & _ & Hresolved).
    destruct (Hgain sample_route) as (pre & post & E & Eu).
    + repeat constructor; cbn; intuition discriminate.
    + right; now left.
    + reflexivity.
    + exists pre, post. split; [exact E|].
      rewrite (Hresolved eq_refl eq_refl).
      cbn [Fallible.state Fallible.result]. split; [exact Eu|reflexivity].
  - destruct (@addImageToRoute_spec read_only_list [bare_route_1; sample_route]
                "new" "r" (pts sample_marking))
      as (updated & _ & _ & _ & _ & Hrejected & _).
    now rewrite (Hrejected eq_refl eq_refl).
Defined.
